(** * Email-Aggregator: the account synchronisation engine

    A shallow embedding of the TypeScript services of the repository

      - [ElasticsearchService]  (src/services/elasticsearch/ElasticsearchService.ts)
      - [AIService]             (src/services/ai/AIService.ts)
      - [WebhookService]        (src/services/webhook/WebhookService.ts)
      - [IMAPService]           (src/services/imap/IMAPService.ts)
      - [EmailController]       (src/controllers/EmailController.ts) for the
        routes of single emails, suggested replies, the categorization
        backfill and the webhook test, with the service functions these call

    Asynchronous code is embedded in a state-and-exception monad [M] over a
    [World]: the Elasticsearch index, the maps owned by the IMAP service, the
    pending timers and a trace of every call made to a collaborator and of
    every console line.  The collaborators themselves (Elasticsearch, the
    Gemini model, axios, the IMAP server, mailparser, html-to-text, uuid, the
    clock) are an [Env] of oracles indexed by the logical time of the call, so
    that each single call may succeed or fail independently of the others.

    Idealisations: JavaScript strings are Rocq strings (one [ascii] per code
    unit), JavaScript numbers that hold counts and milliseconds are integers,
    the index is immediately consistent (a query sorted by date breaks ties
    in the order of the ids), and the per-message pipelines of one batch run
    one after the other, in the order in which the server emits the
    messages. *)

From Stdlib Require Import ZArith Ascii String.
From stdpp Require Import gmap strings list fin_maps pretty sorting.

Local Set Warnings "-register-all".

(** ** JavaScript values and string helpers *)

Module Js.

(** The values [JSON.parse] can produce and the payloads axios serialises. *)
Inductive Json :=
| JNull
| JBool (b : bool)
| JNum (z : Z)
| JStr (s : string)
| JArr (l : list Json)
| JObj (fields : list (string * Json)).

(** [s] is truthy: the empty string is the only falsy string. *)
Definition truthy (s : string) : bool := negb (String.eqb s "").

(** [o || d] for an optional string [o]. *)
Definition or_default (o : option string) (d : string) : string :=
  match o with
  | Some s => if truthy s then s else d
  | None => d
  end.

(** Truthiness of an arbitrary value, [None] standing for [undefined]. *)
Definition truthy_value (v : option Json) : bool :=
  match v with
  | None | Some JNull => false
  | Some (JBool b) => b
  | Some (JNum z) => negb (z =? 0)%Z
  | Some (JStr s) => truthy s
  | Some (JArr _) | Some (JObj _) => true
  end.

(** [a.includes(v)] for an array [a] of strings: SameValueZero only ever
    identifies a string element with a string of the same contents. *)
Definition includes (a : list string) (v : option Json) : bool :=
  match v with
  | Some (JStr s) => existsb (String.eqb s) a
  | _ => false
  end.

(** Own property [k] of a parsed object. *)
Fixpoint lookup_field (k : string) (fields : list (string * Json)) : option Json :=
  match fields with
  | [] => None
  | (k', v) :: rest => if String.eqb k k' then Some v else lookup_field k rest
  end.

(** [v.k]: [None] when reading a property of [null] (a TypeError),
    [Some None] when the property is [undefined]. *)
Definition member (v : Json) (k : string) : option (option Json) :=
  match v with
  | JNull => None
  | JObj fields => Some (lookup_field k fields)
  | _ => Some None
  end.

Definition is_ws (a : ascii) : bool :=
  let n := nat_of_ascii a in
  (n =? 9)%nat || (n =? 10)%nat || (n =? 11)%nat || (n =? 12)%nat || (n =? 13)%nat || (n =? 32)%nat
  || (n =? 160)%nat.

Fixpoint trimStart (s : string) : string :=
  match s with
  | EmptyString => EmptyString
  | String a s' => if is_ws a then trimStart s' else s
  end.

Definition trimEnd (s : string) : string := String.rev (trimStart (String.rev s)).

Definition trim (s : string) : string := trimEnd (trimStart s).

(** [s.substring(0, n)]. *)
Definition substring0 (n : nat) (s : string) : string := String.substring 0 n s.

(** [a.slice(0, n)] and [a.slice(-n)]. *)
Definition slice0 {A} (n : nat) (a : list A) : list A := take n a.
Definition slice_last {A} (n : nat) (a : list A) : list A := drop (length a - n) a.

Definition nl : string := String (ascii_of_nat 10) EmptyString.

End Js.
Import Js.

(** ** Types (src/types/index.ts) and the mailparser result *)

Module EmailAccount.
Record t := mk {
  id : string;
  email : string;
  password : string;
  imapHost : string;
  imapPort : Z
}.
End EmailAccount.

Module EmailDocument.
Record t := mk {
  id : string;
  accountId : string;
  folder : string;
  subject : string;
  body : string;
  htmlBody : option string;
  from : string;
  to : list string;
  cc : option (list string);
  date : Z;
  aiCategory : string;
  indexedAt : Z;
  messageId : string;
  inReplyTo : option string;
  references : option (list string)
}.

(** [{...doc, aiCategory: c}] *)
Definition with_aiCategory (c : string) (d : t) : t :=
  mk (id d) (accountId d) (folder d) (subject d) (body d) (htmlBody d) (from d) (to d)
     (cc d) (date d) c (indexedAt d) (messageId d) (inReplyTo d) (references d).
End EmailDocument.

Module IMAPConnectionStatus.
Record t := mk {
  accountId : string;
  connected : bool;
  lastSync : Z;
  error : option string
}.
End IMAPConnectionStatus.

Module ParsedMail.
(** One mailbox of an address header: [address] is absent for a group. *)
Record EmailAddress := mkAddress {
  name : string;
  address : option string
}.

(** An address header as parsed; [value] is [None] when it is not an array. *)
Record AddressObject := mkAddressObject {
  value : option (list EmailAddress)
}.

(** What [getAddresses] receives: nothing, one object or an array of them. *)
Inductive AddressField :=
| Absent
| One (o : AddressObject)
| Many (l : list AddressObject).

Record t := mk {
  messageId : option string;
  html : option string;          (* [string | false] *)
  text : option string;
  subject : option string;
  from : AddressField;
  to : AddressField;
  cc : AddressField;
  date : option Z;
  inReplyTo : option string;
  references : option (list string)
}.
End ParsedMail.

(** ** Configuration (src/config/index.ts) *)

Module Config.
Record t := mk {
  port : Z;
  imap_maxReconnectAttempts : Z;
  imap_reconnectDelay : Z;
  ai_provider : string;
  ai_apiKey : string;
  ai_model : string;
  webhooks_interestedUrls : list string;
  webhooks_slack : option string;
  webhooks_generic : option string;
  APP_BASE_URL : option string
}.
End Config.

(** ** The world, the trace and the monad *)

Inductive Error :=
| TypeError
| SyntaxError
| EsError
| AiError
| HttpError (status : option Z)
| ParseError
| ImapError
| NotConfigured.

(** Outcome of one [axios.post]: a 2xx answer, an answer with another status,
    or no answer at all (network error, timeout). *)
Inductive PostOutcome :=
| Post2xx
| PostStatus (status : Z)
| PostNoResponse.

(** The lines written to the console, by the place that writes them. *)
Inductive ConsoleLine :=
| ErrIndexing | ErrUpdatingCategory | ErrSearchingByMessageId
| WarnAiNotConfigured | ErrCategorizing
| LogTriggeringWebhooks (subject : string)
| LogAllWebhooksTriggered | ErrTriggeringWebhooks
| WarnSlackNotConfigured | LogSlackSent | ErrSlack
| WarnGenericNotConfigured
| WarnRateLimited (url : string) | ErrSendingWebhook (url : string)
| LogGenericTriggered | WarnNoInterestedUrls
| LogBroadcast (successCount total : nat)
| LogDuplicateSkipped (messageId : string)
| LogProcessed (subject category : string)
| ErrProcessingEmail
| ErrProcessingMessage
| ErrFetch
| LogConnected | ErrReadyHandler
| LogStartingInitialSync | LogNoEmailsFound
| LogFound (found syncing : nat)
| LogInitialSyncCompleted
| LogStartingIdle | LogIdleActive
| LogNewMail (numNewMsgs : Z)
| ErrSearchingNewEmails
| ErrMaxReconnect
| LogReconnecting (delay : Z) (attempt : nat).

(** Calls to the collaborators, with what they were given and how they ended. *)
Inductive Event :=
| EsSearch (messageId : string) (ok : bool)
| EsIndex (doc : EmailDocument.t) (ok : bool)
| EsUpdate (emailId category : string) (ok : bool)
| AiGenerate (prompt : string) (ok : bool)
| HttpPost (url : string) (payload : Json) (outcome : PostOutcome)
| ImapOpenBox (ok : bool)
| ImapSearch (unseen : bool) (ok : bool)
| ImapFetch (seqNos : list Z)
| ImapMessage (seqno : Z)
| SetInterval (ms : Z)
| Console (line : ConsoleLine).

Record World := mkWorld {
  es_docs : gmap string EmailDocument.t;           (* the index, by document id *)
  connectionStatus : gmap string IMAPConnectionStatus.t;
  reconnectAttempts : gmap string nat;
  timers : list (Z * EmailAccount.t);              (* pending [setTimeout]s: delay, account to connect *)
  trace : list Event;
  clock : nat
}.

Definition set_es_docs (f : gmap string EmailDocument.t -> gmap string EmailDocument.t) (w : World) : World :=
  mkWorld (f (es_docs w)) (connectionStatus w) (reconnectAttempts w) (timers w) (trace w) (clock w).
Definition set_connectionStatus (f : gmap string IMAPConnectionStatus.t -> gmap string IMAPConnectionStatus.t)
  (w : World) : World :=
  mkWorld (es_docs w) (f (connectionStatus w)) (reconnectAttempts w) (timers w) (trace w) (clock w).
Definition set_reconnectAttempts (f : gmap string nat -> gmap string nat) (w : World) : World :=
  mkWorld (es_docs w) (connectionStatus w) (f (reconnectAttempts w)) (timers w) (trace w) (clock w).
Definition set_timers (f : list (Z * EmailAccount.t) -> list (Z * EmailAccount.t)) (w : World) : World :=
  mkWorld (es_docs w) (connectionStatus w) (reconnectAttempts w) (f (timers w)) (trace w) (clock w).
Definition set_trace (f : list Event -> list Event) (w : World) : World :=
  mkWorld (es_docs w) (connectionStatus w) (reconnectAttempts w) (timers w) (f (trace w)) (clock w).
Definition set_clock (f : nat -> nat) (w : World) : World :=
  mkWorld (es_docs w) (connectionStatus w) (reconnectAttempts w) (timers w) (trace w) (f (clock w)).

Inductive Result (A : Type) :=
| Ok (a : A)
| Throw (e : Error).
Arguments Ok {A} a.
Arguments Throw {A} e.

Definition M (A : Type) : Type := World -> Result A * World.

Definition ret {A} (a : A) : M A := fun w => (Ok a, w).
Definition throw {A} (e : Error) : M A := fun w => (Throw e, w).
Definition bind {A B} (m : M A) (k : A -> M B) : M B :=
  fun w => match m w with
           | (Ok a, w') => k a w'
           | (Throw e, w') => (Throw e, w')
           end.

(** [try { m } catch (e) { h e }] *)
Definition try_catch {A} (m : M A) (h : Error -> M A) : M A :=
  fun w => match m w with
           | (Ok a, w') => (Ok a, w')
           | (Throw e, w') => h e w'
           end.

(** Runs [m] and hands back how it settled, as [Promise.allSettled] would. *)
Definition settle {A} (m : M A) : M (Result A) :=
  fun w => let '(r, w') := m w in (Ok r, w').

Declare Scope js_scope.
Delimit Scope js_scope with js.
Notation "x <- m ;; k" := (bind m (fun x => k))
  (at level 100, m at next level, right associativity) : js_scope.
Notation "m ;; k" := (bind m (fun _ => k))
  (at level 100, right associativity) : js_scope.
Local Open Scope js_scope.

Definition emit (e : Event) : M unit := fun w => (Ok tt, set_trace (fun t => t ++ [e]) w).
Definition console (l : ConsoleLine) : M unit := emit (Console l).
Definition tick : M nat := fun w => (Ok (clock w), set_clock S w).
Definition get_world : M World := fun w => (Ok w, w).
Definition modify (f : World -> World) : M unit := fun w => (Ok tt, f w).

(** [await Promise.all(ps)] over promises that have already run: it rejects
    with the first rejection in array order. *)
Fixpoint promise_all (ps : list (Result unit)) : M unit :=
  match ps with
  | [] => ret tt
  | Ok _ :: rest => promise_all rest
  | Throw e :: _ => throw e
  end.

(** ** The collaborators *)

Record Env := mkEnv {
  es_search : nat -> string -> bool;                 (* [client.search] completes *)
  es_index : nat -> EmailDocument.t -> bool;         (* [client.index] completes *)
  es_update : nat -> string -> string -> bool;       (* [client.update] completes *)
  generateContent : nat -> string -> option string;  (* [response.text()], or it throws *)
  JSON_parse : string -> option Json;                (* or a SyntaxError *)
  axios_post : nat -> string -> Json -> PostOutcome;
  imap_openBox : nat -> bool;
  imap_search : nat -> bool -> option (list Z);      (* [UNSEEN] or [ALL]; an error, or the results *)
  imap_fetch : nat -> list Z -> bool;                (* the fetch emits its messages, or [error] *)
  imap_source : Z -> string;                         (* the full source of a message *)
  simpleParser : string -> option ParsedMail.t;      (* or it throws *)
  htmlToText : string -> string;
  uuidv4 : nat -> string;
  now : nat -> Z
}.

Fixpoint mapM {A B} (f : A -> M B) (l : list A) : M (list B) :=
  match l with
  | [] => ret []
  | x :: rest => y <- f x;; ys <- mapM f rest;; ret (y :: ys)
  end.

(** ** ElasticsearchService *)

Module ElasticsearchService.
Section Service.
Context (env : Env).

Definition indexEmail (email : EmailDocument.t) : M unit :=
  try_catch
    (t <- tick;;
     if es_index env t email
     then (emit (EsIndex email true);;
           modify (set_es_docs <[EmailDocument.id email := email]>))
     else (emit (EsIndex email false);; throw EsError))
    (fun e => console ErrIndexing;; throw e).

(** A partial update of a document that is not in the index is refused. *)
Definition updateEmailCategory (emailId category : string) : M unit :=
  try_catch
    (t <- tick;;
     w <- get_world;;
     match es_docs w !! emailId with
     | Some d =>
         if es_update env t emailId category
         then (emit (EsUpdate emailId category true);;
               modify (set_es_docs <[emailId := EmailDocument.with_aiCategory category d]>))
         else (emit (EsUpdate emailId category false);; throw EsError)
     | None => emit (EsUpdate emailId category false);; throw EsError
     end)
    (fun e => console ErrUpdatingCategory;; throw e).

(** The hits of the term query on [messageId]. *)
Definition hits (messageId : string) (docs : gmap string EmailDocument.t)
  : list (string * EmailDocument.t) :=
  List.filter (fun hit => String.eqb (EmailDocument.messageId hit.2) messageId) (map_to_list docs).

Definition findByMessageId (messageId : string) : M (option (string * EmailDocument.t)) :=
  try_catch
    (t <- tick;;
     if es_search env t messageId
     then (emit (EsSearch messageId true);;
           w <- get_world;;
           ret (head (hits messageId (es_docs w))))
     else (emit (EsSearch messageId false);; throw EsError))
    (fun _ => console ErrSearchingByMessageId;; ret None).

Definition existsByMessageId (messageId : string) : M bool :=
  found <- findByMessageId messageId;;
  ret (match found with Some _ => true | None => false end).

End Service.
End ElasticsearchService.

(** ** AIService *)

Module AIService.

Definition validCategories : list string :=
  [ "Interested"; "Meeting Booked"; "Not Interested"; "Spam"; "Out of Office"; "Uncategorized" ].

Record AICategorizationResponse := mkResponse { category : string }.

Record CategorizeInput := mkInput { subject : string; body : string; from : string }.

Section Service.
Context (cfg : Config.t) (env : Env).

(** The constructor builds the models only for the gemini provider with a key. *)
Definition categorizationModel : bool :=
  String.eqb (Config.ai_provider cfg) "gemini" && truthy (Config.ai_apiKey cfg).

Definition prompt_of (email : CategorizeInput) : string :=
  trim (nl +:+ "        From: " +:+ from email +:+ nl
        +:+ "        Subject: " +:+ subject email +:+ nl
        +:+ "        Body: " +:+ substring0 4000 (body email) +:+ nl
        +:+ "      ").

(** [await model.generateContent(prompt)] followed by [response.text()]. *)
Definition generate (prompt : string) : M string :=
  t <- tick;;
  match generateContent env t prompt with
  | Some text => emit (AiGenerate prompt true);; ret text
  | None => emit (AiGenerate prompt false);; throw AiError
  end.

Definition parse (text : string) : M Json :=
  match JSON_parse env text with
  | Some v => ret v
  | None => throw SyntaxError
  end.

Definition get_category (jsonResponse : Json) : M (option Json) :=
  match member jsonResponse "category" with
  | Some v => ret v
  | None => throw TypeError
  end.

(** The validated [category] is returned as it is; only a string passes
    [includes], so the response carries a string. *)
Definition categorizeEmail (email : CategorizeInput) : M AICategorizationResponse :=
  if negb categorizationModel
  then (console WarnAiNotConfigured;; ret (mkResponse "Uncategorized"))
  else
    try_catch
      (let prompt := prompt_of email in
       text <- generate prompt;;
       jsonResponse <- parse text;;
       category <- get_category jsonResponse;;
       if truthy_value category && includes validCategories category
       then match category with
            | Some (JStr s) => ret (mkResponse s)
            | _ => ret (mkResponse "Uncategorized")
            end
       else ret (mkResponse "Uncategorized"))
      (fun _ => console ErrCategorizing;; ret (mkResponse "Uncategorized")).

End Service.
End AIService.

(** ** WebhookService *)

Module WebhookService.
Section Service.
Context (cfg : Config.t) (env : Env).

(** [await axios.post(url, payload, ...)]: anything but a 2xx answer rejects. *)
Definition post (url : string) (payload : Json) : M unit :=
  t <- tick;;
  let outcome := axios_post env t url payload in
  emit (HttpPost url payload outcome);;
  match outcome with
  | Post2xx => ret tt
  | PostStatus status => throw (HttpError (Some status))
  | PostNoResponse => throw (HttpError None)
  end.

Definition baseUrl : string :=
  or_default (Config.APP_BASE_URL cfg) ("http://localhost:" +:+ pretty (Config.port cfg)).

Definition emailUrl (email : EmailDocument.t) : string :=
  baseUrl +:+ "/#email-" +:+ EmailDocument.id email.

Definition slackPayload (email : EmailDocument.t) : Json :=
  JObj
    [ ("text", JStr "🎉 New Interested Lead!");
      ("blocks",
       JArr
         [ JObj [ ("type", JStr "header");
                  ("text", JObj [ ("type", JStr "plain_text");
                                  ("text", JStr "🎯 New Interested Lead");
                                  ("emoji", JBool true) ]) ];
           JObj [ ("type", JStr "section");
                  ("fields",
                   JArr [ JObj [ ("type", JStr "mrkdwn");
                                 ("text", JStr ("*From:*" +:+ nl +:+ EmailDocument.from email)) ];
                          JObj [ ("type", JStr "mrkdwn");
                                 ("text", JStr ("*Subject:*" +:+ nl +:+ EmailDocument.subject email)) ] ]) ];
           JObj [ ("type", JStr "actions");
                  ("elements",
                   JArr [ JObj [ ("type", JStr "button");
                                 ("text", JObj [ ("type", JStr "plain_text");
                                                 ("text", JStr "View Email") ]);
                                 ("url", JStr (emailUrl email));
                                 ("style", JStr "primary") ] ]) ];
           JObj [ ("type", JStr "divider") ] ]) ].

Definition sendSlackNotification (email : EmailDocument.t) : M unit :=
  match Config.webhooks_slack cfg with
  | None => console WarnSlackNotConfigured
  | Some slackUrl =>
      if negb (truthy slackUrl) then console WarnSlackNotConfigured
      else
        try_catch
          (post slackUrl (slackPayload email);;
           console LogSlackSent)
          (fun e => console ErrSlack;; throw e)
  end.

(** The sanitized copy of the email: no [htmlBody], trimmed arrays and text. *)
Definition sanitizedEmail (email : EmailDocument.t) : list (string * Json) :=
  [ ("id", JStr (EmailDocument.id email));
    ("accountId", JStr (EmailDocument.accountId email));
    ("folder", JStr (EmailDocument.folder email));
    ("subject", JStr (EmailDocument.subject email));
    ("from", JStr (EmailDocument.from email));
    ("to", JArr (JStr <$> slice0 5 (EmailDocument.to email))) ]
  ++ match EmailDocument.cc email with
     | Some cc => if (0 <? length cc)%nat then [ ("cc", JArr (JStr <$> slice0 5 cc)) ] else []
     | None => []
     end
  ++ [ ("date", JNum (EmailDocument.date email));
       ("aiCategory", JStr (EmailDocument.aiCategory email));
       ("messageId", JStr (EmailDocument.messageId email));
       ("body", JStr (substring0 300 (or_default (Some (EmailDocument.body email)) ""))) ].

Definition basePayload (email : EmailDocument.t) (timestamp : Z) : Json :=
  JObj [ ("event", JStr "InterestedLead");
         ("email", JObj (sanitizedEmail email));
         ("emailUrl", JStr (emailUrl email));
         ("timestamp", JNum timestamp) ].

Definition postSafely (url : string) (payload : Json) : M bool :=
  try_catch
    (post url payload;; ret true)
    (fun error =>
       match error with
       | HttpError (Some 429%Z) => console (WarnRateLimited url);; ret false
       | _ => console (ErrSendingWebhook url);; ret false
       end).

(** A [Set<string>] as the list of its members in insertion order. *)
Definition set_add (u : string) (s : list string) : list string :=
  if existsb (String.eqb u) s then s else s ++ [u].
Definition set_delete (u : string) (s : list string) : list string :=
  List.filter (fun x => negb (String.eqb x u)) s.

(** The URLs of the broadcast: the generic URL and the interested list,
    without the primary that was already attempted. *)
Definition broadcastUrls (genericUrl : string) : list string :=
  let urlsSet := set_add genericUrl [] in
  let urlsSet :=
    fold_left (fun s u => set_add u s) (List.filter truthy (Config.webhooks_interestedUrls cfg)) urlsSet in
  set_delete genericUrl urlsSet.

Definition sendGenericWebhook (email : EmailDocument.t) : M unit :=
  match Config.webhooks_generic cfg with
  | None => console WarnGenericNotConfigured
  | Some genericUrl =>
      if negb (truthy genericUrl) then console WarnGenericNotConfigured
      else
        w <- get_world;;
        let payload := basePayload email (now env (clock w)) in
        okPrimary <- postSafely genericUrl payload;;
        (if okPrimary : bool then console LogGenericTriggered else ret tt);;
        let urls := broadcastUrls genericUrl in
        if (length urls =? 0)%nat then console WarnNoInterestedUrls
        else
          results <- mapM (fun u => postSafely u payload) urls;;
          let successCount := length (List.filter (fun b : bool => b) results) in
          console (LogBroadcast successCount (length urls))
  end.

Definition configured (url : option string) : bool :=
  match url with Some u => truthy u | None => false end.

(** Both notifications are started before either is awaited; [Promise.all]
    then rejects if one of them did, and the rejection is logged. *)
Definition triggerInterestedWebhooks (email : EmailDocument.t) : M unit :=
  console (LogTriggeringWebhooks (EmailDocument.subject email));;
  slack <- (if configured (Config.webhooks_slack cfg)
            then (p <- settle (sendSlackNotification email);; ret [p])
            else ret []);;
  generic <- (if configured (Config.webhooks_generic cfg)
              then (p <- settle (sendGenericWebhook email);; ret [p])
              else ret []);;
  try_catch
    (promise_all (slack ++ generic);;
     console LogAllWebhooksTriggered)
    (fun _ => console ErrTriggeringWebhooks).

End Service.
End WebhookService.

(** ** IMAPService *)

Module IMAPService.
Section Service.
Context (cfg : Config.t) (env : Env).

(** The helper of [processEmail] that extracts the addresses of a header. *)
Definition addresses_of (o : ParsedMail.AddressObject) : list string :=
  match ParsedMail.value o with
  | Some value => (fun v => or_default (ParsedMail.address v) "") <$> value
  | None => []
  end.

Definition getAddresses (field : ParsedMail.AddressField) : list string :=
  match field with
  | ParsedMail.Absent => []
  | ParsedMail.Many items => flat_map addresses_of items
  | ParsedMail.One o => addresses_of o
  end.

(** The document [processEmail] builds for a message that is not a duplicate. *)
Definition emailDoc_of (parsed : ParsedMail.t) (account : EmailAccount.t) (folder : string)
  (rawMessageId emailId : string) (today : Z) : EmailDocument.t :=
  let html := match ParsedMail.html parsed with Some h => h | None => "" end in
  let text := or_default (ParsedMail.text parsed) "" in
  let bodyText := if truthy html then htmlToText env html else text in
  let fromText :=
    match ParsedMail.from parsed with
    | ParsedMail.Absent => ""
    | f => or_default (head (getAddresses f)) ""
    end in
  let toText := getAddresses (ParsedMail.to parsed) in
  let ccText :=
    match ParsedMail.cc parsed with
    | ParsedMail.Absent => None
    | f => Some (getAddresses f)
    end in
  EmailDocument.mk
    emailId
    (EmailAccount.id account)
    folder
    (or_default (ParsedMail.subject parsed) "(No Subject)")
    bodyText
    (ParsedMail.html parsed)
    fromText
    toText
    (match ccText with
     | Some l => if (0 <? length l)%nat then Some l else None
     | None => None
     end)
    (match ParsedMail.date parsed with Some d => d | None => today end)
    "Uncategorized"
    today
    (if truthy rawMessageId then rawMessageId else emailId)
    (match ParsedMail.inReplyTo parsed with
     | Some r => if truthy r then Some r else None
     | None => None
     end)
    (ParsedMail.references parsed).

Definition processEmail (parsed : ParsedMail.t) (account : EmailAccount.t) (folder : string) : M unit :=
  try_catch
    (let rawMessageId := trim (or_default (ParsedMail.messageId parsed) "") in
     exists_ <- (if truthy rawMessageId
                 then ElasticsearchService.existsByMessageId env rawMessageId
                 else ret false);;
     if exists_ : bool
     then console (LogDuplicateSkipped rawMessageId)
     else
       t <- tick;;
       let emailId := uuidv4 env t in
       let emailDoc := emailDoc_of parsed account folder rawMessageId emailId (now env t) in
       ElasticsearchService.indexEmail env emailDoc;;
       categorization <-
         AIService.categorizeEmail cfg env
           (AIService.mkInput (EmailDocument.subject emailDoc) (EmailDocument.body emailDoc)
                              (EmailDocument.from emailDoc));;
       let category := AIService.category categorization in
       ElasticsearchService.updateEmailCategory env emailId category;;
       let emailDoc := EmailDocument.with_aiCategory category emailDoc in
       (if String.eqb category "Interested"
        then WebhookService.triggerInterestedWebhooks cfg env emailDoc
        else ret tt);;
       console (LogProcessed (EmailDocument.subject emailDoc) category))
    (fun _ => console ErrProcessingEmail).

(** The handler of one fetched message: its promise rejects when the
    source does not parse. *)
Definition onMessage (account : EmailAccount.t) (folder : string) (seqno : Z) : M unit :=
  emit (ImapMessage seqno);;
  try_catch
    (match simpleParser env (imap_source env seqno) with
     | Some parsed => processEmail parsed account folder
     | None => throw ParseError
     end)
    (fun error => console ErrProcessingMessage;; throw error).

(** The server either emits [error], here before any message, or one
    message per requested sequence number and then [end]; the handler of
    [end] awaits all the message promises. *)
Definition fetchEmailsBySeqNo (account : EmailAccount.t) (seqNos : list Z) (folder : string) : M unit :=
  t <- tick;;
  emit (ImapFetch seqNos);;
  if negb (imap_fetch env t seqNos) then (console ErrFetch;; throw ImapError)
  else
    emailPromises <- mapM (fun seqno => settle (onMessage account folder seqno)) seqNos;;
    try_catch (promise_all emailPromises) (fun error => throw error).

Definition performInitialSync (account : EmailAccount.t) : M unit :=
  t <- tick;;
  if negb (imap_openBox env t) then (emit (ImapOpenBox false);; throw ImapError)
  else
    emit (ImapOpenBox true);;
    console LogStartingInitialSync;;
    t <- tick;;
    match imap_search env t false with
    | None => emit (ImapSearch false false);; throw ImapError
    | Some results =>
        emit (ImapSearch false true);;
        if (length results =? 0)%nat then console LogNoEmailsFound
        else
          try_catch
            (let limitedResults := slice_last 10 results in
             console (LogFound (length results) (length limitedResults));;
             fetchEmailsBySeqNo account limitedResults "INBOX";;
             console LogInitialSyncCompleted)
            (fun error => throw error)
    end.

(** The connection is authenticated when [ready] fires. *)
Definition startIdleMode (account : EmailAccount.t) : M unit :=
  console LogStartingIdle;;
  console LogIdleActive;;
  emit (SetInterval (29 * 60 * 1000)).

Definition onReady (account : EmailAccount.t) : M unit :=
  console LogConnected;;
  w <- get_world;;
  modify (set_connectionStatus
            <[EmailAccount.id account :=
                IMAPConnectionStatus.mk (EmailAccount.id account) true (now env (clock w)) None]>);;
  modify (set_reconnectAttempts <[EmailAccount.id account := 0%nat]>);;
  try_catch
    (performInitialSync account;;
     startIdleMode account)
    (fun _ => console ErrReadyHandler).

(** The [mail] handler.  The rejection of the fetch inside the search
    callback is not caught by anything: it is the result of the handler. *)
Definition onMail (account : EmailAccount.t) (numNewMsgs : Z) : M unit :=
  console (LogNewMail numNewMsgs);;
  t <- tick;;
  match imap_search env t true with
  | None => emit (ImapSearch true false);; console ErrSearchingNewEmails
  | Some results =>
      emit (ImapSearch true true);;
      match last results with
      | None => ret tt
      | Some latestSeqNo => fetchEmailsBySeqNo account [latestSeqNo] "INBOX"
      end
  end.

Definition scheduleReconnect (account : EmailAccount.t) : M unit :=
  w <- get_world;;
  let attempts := default 0%nat (reconnectAttempts w !! EmailAccount.id account) in
  if (Config.imap_maxReconnectAttempts cfg <=? Z.of_nat attempts)%Z
  then console ErrMaxReconnect
  else
    let delay := Z.min (Config.imap_reconnectDelay cfg * 2 ^ Z.of_nat attempts) 60000 in
    console (LogReconnecting delay (attempts + 1));;
    modify (set_reconnectAttempts <[EmailAccount.id account := (attempts + 1)%nat]>);;
    modify (set_timers (fun ts => ts ++ [(delay, account)])).

Definition onError (account : EmailAccount.t) (message : string) : M unit :=
  w <- get_world;;
  modify (set_connectionStatus
            <[EmailAccount.id account :=
                IMAPConnectionStatus.mk (EmailAccount.id account) false (now env (clock w)) (Some message)]>);;
  scheduleReconnect account.

Definition onEnd (account : EmailAccount.t) : M unit :=
  w <- get_world;;
  modify (set_connectionStatus
            <[EmailAccount.id account :=
                IMAPConnectionStatus.mk (EmailAccount.id account) false (now env (clock w)) None]>);;
  scheduleReconnect account.

End Service.
End IMAPService.

(** ** The HTTP surface and the loss of a connection

    [EmailController] (src/controllers/EmailController.ts), the route
    [/webhooks/test] (src/routes/index.ts) and the service functions only
    they call: [findUncategorized] and [getEmailById] of
    [ElasticsearchService], [searchSimilarContext] of [VectorService],
    [generateReply] of [AIService] and [testWebhooks] of [WebhookService];
    and the handlers of [error] and [end] of [IMAPService] with their
    console lines. *)

(** The calls and console lines of this code, kept beside the trace of the
    engine (which they never touch) in the order in which they happen. *)
Inductive Note :=
| ErrImapConnection (message : string)
| LogConnectionEnded
| EsSearchUncategorized (size : Z) (ok : bool)
| EsGet (emailId : string) (ok : bool)
| ChatSendMessage (prompt : string) (ok : bool)
| ErrFindingUncategorized
| ErrGettingEmailById
| WarnQdrantNotConfigured
| LogSearchingContext (query : string)
| ErrSearchingContext
| ErrGeneratingReply
| ErrRouteGetEmailById
| ErrRouteSuggestReply
| LogSlackTestOk | ErrSlackTest
| LogGenericTestOk | ErrGenericTest.

Record Server := mkServer {
  world : World;
  notes : list Note
}.

(** The collaborators of this code: the two further queries of the index
    complete or not, the chat model answers with a text or throws. *)
Record HttpEnv := mkHttpEnv {
  es_search_uncategorized : nat -> Z -> bool;
  es_get : nat -> string -> bool;
  chat_sendMessage : nat -> string -> option string
}.

Definition H (A : Type) : Type := Server -> Result A * Server.

Module Http.

Definition ret {A} (a : A) : H A := fun s => (Ok a, s).
Definition throw {A} (e : Error) : H A := fun s => (Throw e, s).
Definition bind {A B} (m : H A) (k : A -> H B) : H B :=
  fun s => match m s with
           | (Ok a, s') => k a s'
           | (Throw e, s') => (Throw e, s')
           end.
Definition try_catch {A} (m : H A) (h : Error -> H A) : H A :=
  fun s => match m s with
           | (Ok a, s') => (Ok a, s')
           | (Throw e, s') => h e s'
           end.

(** A computation of the engine, run on the world of the server. *)
Definition lift {A} (m : M A) : H A :=
  fun s => let '(r, w') := m (world s) in (r, mkServer w' (notes s)).

Definition note (n : Note) : H unit :=
  fun s => (Ok tt, mkServer (world s) (notes s ++ [n])).

End Http.

Declare Scope http_scope.
Delimit Scope http_scope with http.
Notation "x <- m ;; k" := (Http.bind m (fun x => k))
  (at level 100, m at next level, right associativity) : http_scope.
Notation "m ;; k" := (Http.bind m (fun _ => k))
  (at level 100, right associativity) : http_scope.

(** The handlers of [error] and [end] that [setupIMAPHandlers] registers:
    a console line, then the status update and the reconnection. *)
Module IMAPHandlers.
Section Handlers.
Context (cfg : Config.t) (env : Env).
Local Open Scope http_scope.

Definition error (account : EmailAccount.t) (message : string) : H unit :=
  Http.note (ErrImapConnection message);;
  Http.lift (IMAPService.onError cfg env account message).

Definition end_ (account : EmailAccount.t) : H unit :=
  Http.note LogConnectionEnded;;
  Http.lift (IMAPService.onEnd cfg env account).

End Handlers.
End IMAPHandlers.

(** [parseInt(s)] without a radix, [None] standing for [NaN]: leading
    white space, a sign, [0x] for base 16, then the longest run of digits.
    A parameter that is absent reads as the string [undefined]. *)
Definition digit_value (radix : Z) (a : ascii) : option Z :=
  let n := Z.of_nat (nat_of_ascii a) in
  let v := if (48 <=? n)%Z && (n <=? 57)%Z then Some (n - 48)%Z
           else if (97 <=? n)%Z && (n <=? 122)%Z then Some (n - 87)%Z
           else if (65 <=? n)%Z && (n <=? 90)%Z then Some (n - 55)%Z
           else None in
  match v with
  | Some d => if (d <? radix)%Z then Some d else None
  | None => None
  end.

Fixpoint parse_digits (radix : Z) (s : string) (acc : option Z) : option Z :=
  match s with
  | EmptyString => acc
  | String a s' =>
      match digit_value radix a with
      | Some d => parse_digits radix s' (Some (default 0 acc * radix + d)%Z)
      | None => acc
      end
  end.

Definition parseInt (input : option string) : option Z :=
  let s := trimStart (default "undefined" input) in
  let signed :=
    match s with
    | String "-" rest => ((-1)%Z, rest)
    | String "+" rest => (1%Z, rest)
    | _ => (1%Z, s)
    end in
  let based :=
    match signed.2 with
    | String "0" (String "x" rest) | String "0" (String "X" rest) => (16%Z, rest)
    | rest => (10%Z, rest)
    end in
  match parse_digits based.1 based.2 None with
  | Some n => Some (signed.1 * n)%Z
  | None => None
  end.

(** [n || d] for a number [n]: [NaN] and [0] are falsy. *)
Definition num_or (n : option Z) (d : Z) : Z :=
  match n with
  | Some z => if (z =? 0)%Z then d else z
  | None => d
  end.

(** The order of [sort: [{ date: { order: 'desc' } }]]. *)
Definition more_recent (a b : EmailDocument.t) : Prop :=
  (EmailDocument.date b <= EmailDocument.date a)%Z.

#[local] Instance more_recent_dec a b : Decision (more_recent a b) :=
  Z.le_dec (EmailDocument.date b) (EmailDocument.date a).

Module Services.
Section Service.
Context (cfg : Config.t) (qdrant : bool) (env : Env) (henv : HttpEnv).
Local Open Scope http_scope.

(** The hits of the term query on [aiCategory], most recent first. *)
Definition uncategorized_hits (docs : gmap string EmailDocument.t) : list EmailDocument.t :=
  merge_sort more_recent
    (List.filter (fun d => String.eqb (EmailDocument.aiCategory d) "Uncategorized")
       (snd <$> map_to_list docs)).

(** [ElasticsearchService.findUncategorized]; the index refuses a negative
    [size]. *)
Definition findUncategorized (limit : Z) : H (list EmailDocument.t) :=
  Http.try_catch
    (t <- Http.lift tick;;
     if (0 <=? limit)%Z && es_search_uncategorized henv t limit
     then (Http.note (EsSearchUncategorized limit true);;
           w <- Http.lift get_world;;
           Http.ret (take (Z.to_nat limit) (uncategorized_hits (es_docs w))))
     else (Http.note (EsSearchUncategorized limit false);; Http.throw EsError))
    (fun _ => Http.note ErrFindingUncategorized;; Http.ret []).

(** [ElasticsearchService.getEmailById]; the get of a document that is not
    in the index throws. *)
Definition getEmailById (emailId : string) : H (option EmailDocument.t) :=
  Http.try_catch
    (t <- Http.lift tick;;
     w <- Http.lift get_world;;
     match es_docs w !! emailId with
     | Some d =>
         if es_get henv t emailId
         then (Http.note (EsGet emailId true);; Http.ret (Some d))
         else (Http.note (EsGet emailId false);; Http.throw EsError)
     | None => Http.note (EsGet emailId false);; Http.throw EsError
     end)
    (fun _ => Http.note ErrGettingEmailById;; Http.ret None).

(** [VectorService.searchSimilarContext]: a placeholder that finds nothing. *)
Definition searchSimilarContext (query : string) (limit : Z) : H (list string) :=
  if negb qdrant
  then (Http.note WarnQdrantNotConfigured;; Http.ret [])
  else
    Http.try_catch
      (Http.note (LogSearchingContext (substring0 50 query));;
       Http.ret [])
      (fun _ => Http.note ErrSearchingContext;; Http.ret []).

(** The constructor of [AIService] builds both models in the same branch. *)
Definition generationModel : bool :=
  String.eqb (Config.ai_provider cfg) "gemini" && truthy (Config.ai_apiKey cfg).

Definition reply_prompt (emailContent : string) (contexts : option (list string)) : string :=
  let prompt := nl +:+ "**Original Email:**" +:+ nl +:+ emailContent +:+ nl in
  let prompt :=
    match contexts with
    | Some (c :: cs) =>
        prompt +:+ nl +:+ "**Retrieved Context:**" +:+ nl
        +:+ String.concat (nl +:+ "---" +:+ nl) (c :: cs) +:+ nl
    | _ => prompt
    end in
  prompt +:+ nl +:+ "**Task:**" +:+ nl
  +:+ "Draft a professional and helpful reply to the above email.".

(** [AIService.generateReply]. *)
Definition generateReply (emailContent : string) (contexts : option (list string)) : H string :=
  if negb generationModel then Http.throw NotConfigured
  else
    Http.try_catch
      (let prompt := reply_prompt emailContent contexts in
       t <- Http.lift tick;;
       match chat_sendMessage henv t (trim prompt) with
       | Some text => Http.note (ChatSendMessage (trim prompt) true);; Http.ret text
       | None => Http.note (ChatSendMessage (trim prompt) false);; Http.throw AiError
       end)
      (fun error => Http.note ErrGeneratingReply;; Http.throw error).

(** [WebhookService.testWebhooks]. *)
Definition testWebhooks : H (bool * bool) :=
  slack <-
    match Config.webhooks_slack cfg with
    | None => Http.ret false
    | Some slackUrl =>
        if negb (truthy slackUrl) then Http.ret false
        else
          Http.try_catch
            (Http.lift
               (WebhookService.post env slackUrl
                  (JObj [("text", JStr "✅ Test message from ReachInbox Onebox")]));;
             Http.note LogSlackTestOk;;
             Http.ret true)
            (fun _ => Http.note ErrSlackTest;; Http.ret false)
    end;;
  generic <-
    match Config.webhooks_generic cfg with
    | None => Http.ret false
    | Some genericUrl =>
        if negb (truthy genericUrl) then Http.ret false
        else
          Http.try_catch
            (Http.lift
               (WebhookService.post env genericUrl
                  (JObj [("event", JStr "test");
                         ("message", JStr "Test webhook from ReachInbox Onebox")]));;
             Http.note LogGenericTestOk;;
             Http.ret true)
            (fun _ => Http.note ErrGenericTest;; Http.ret false)
    end;;
  Http.ret (slack, generic).

End Service.
End Services.

(** What a route answers: the status is 200 for the first four, then 400,
    404 and, with the message of the error, 500. *)
Record SuggestedReply := mkSuggestedReply {
  reply : string;
  context : list string;
  confidence : Z                    (* in hundredths *)
}.

Inductive Response :=
| BackfillReport (processed categorized failed : nat)
| EmailFound (email : EmailDocument.t)
| ReplySuggested (emailId : string) (suggestedReply : SuggestedReply)
| WebhookTestReport (slack generic : bool)
| BadRequest (error : string)
| NotFound (error : string)
| ServerError (error : Error).

Definition status (r : Response) : Z :=
  match r with
  | BadRequest _ => 400
  | NotFound _ => 404
  | ServerError _ => 500
  | _ => 200
  end.

Module EmailController.
Section Controller.
Context (cfg : Config.t) (qdrant : bool) (env : Env) (henv : HttpEnv).

(** The loop of [backfillCategorization] over the batch, with its two
    counters. *)
Fixpoint backfill_loop (batch : list EmailDocument.t) (success failed : nat) : M (nat * nat) :=
  match batch with
  | [] => ret (success, failed)
  | email :: rest =>
      ok <- try_catch
              (cat <- AIService.categorizeEmail cfg env
                        (AIService.mkInput (EmailDocument.subject email)
                           (or_default (Some (EmailDocument.body email)) "")
                           (EmailDocument.from email));;
               ElasticsearchService.updateEmailCategory env (EmailDocument.id email)
                 (AIService.category cat);;
               ret true)
              (fun _ => ret false);;
      if ok : bool
      then backfill_loop rest (S success) failed
      else backfill_loop rest success (S failed)
  end.

Local Open Scope http_scope.

Definition backfillCategorization (limit : option string) : H Response :=
  Http.try_catch
    (let limit := Z.min (num_or (parseInt limit) 50) 200 in
     batch <- Services.findUncategorized henv limit;;
     counts <- Http.lift (backfill_loop batch 0 0);;
     Http.ret (BackfillReport (length batch) counts.1 counts.2))
    (fun error => Http.ret (ServerError error)).

Definition getEmailById (id : string) : H Response :=
  Http.try_catch
    (if negb (truthy id) then Http.ret (BadRequest "Email ID is required")
     else
       email <- Services.getEmailById henv id;;
       match email with
       | None => Http.ret (NotFound "Email not found")
       | Some email => Http.ret (EmailFound email)
       end)
    (fun error => Http.note ErrRouteGetEmailById;; Http.ret (ServerError error)).

Definition suggestReply (id : string) : H Response :=
  Http.try_catch
    (if negb (truthy id) then Http.ret (BadRequest "Email ID is required")
     else
       email <- Services.getEmailById henv id;;
       match email with
       | None => Http.ret (NotFound "Email not found")
       | Some email =>
           let queryText := EmailDocument.subject email +:+ " " +:+ EmailDocument.body email in
           contexts <- Services.searchSimilarContext qdrant queryText 3;;
           reply <- Services.generateReply cfg henv
                      ("Subject: " +:+ EmailDocument.subject email +:+ nl
                       +:+ "From: " +:+ EmailDocument.from email +:+ nl +:+ nl
                       +:+ EmailDocument.body email)
                      (Some contexts);;
           Http.ret (ReplySuggested id (mkSuggestedReply reply contexts 85))
       end)
    (fun error => Http.note ErrRouteSuggestReply;; Http.ret (ServerError error)).

(** The handler of [POST /webhooks/test]. *)
Definition webhooks_test : H Response :=
  Http.try_catch
    (results <- Services.testWebhooks cfg env;;
     Http.ret (WebhookTestReport results.1 results.2))
    (fun error => Http.ret (ServerError error)).

End Controller.
End EmailController.

(** * Properties *)

(** ** Vocabulary *)

(** Every run of [m] relates the world it starts in to the one it ends in
    by [R], and a value it returns satisfies [P]. *)
Definition spec {A} (R : World -> World -> Prop) (P : A -> Prop) (m : M A) : Prop :=
  forall w r w', m w = (r, w') ->
    R w w' /\ match r with Ok a => P a | Throw _ => True end.

Definition preserves {A} (R : World -> World -> Prop) (m : M A) : Prop :=
  spec R (fun _ => True) m.

(** [m] never throws. *)
Definition total {A} (m : M A) : Prop :=
  forall w, exists a w', m w = (Ok a, w').

(** The destinations of the fanout, as the configuration gives them: Slack,
    then the generic URL, then the remaining interested URLs. *)
Definition destinations (cfg : Config.t) : list string :=
  (if WebhookService.configured (Config.webhooks_slack cfg)
   then [default "" (Config.webhooks_slack cfg)] else [])
  ++ (if WebhookService.configured (Config.webhooks_generic cfg)
      then default "" (Config.webhooks_generic cfg)
             :: WebhookService.broadcastUrls cfg (default "" (Config.webhooks_generic cfg))
      else []).

(** A broadcast report counts at most as many successes as URLs, and at
    most [K] URLs. *)
Definition broadcast_within (K : nat) (e : Event) : Prop :=
  match e with
  | Console (LogBroadcast successCount total) => successCount <= total /\ total <= K
  | _ => True
  end.

(** Every post carries a payload built by [basePayload] for [email]. *)
Definition sends_basePayload (cfg : Config.t) (email : EmailDocument.t) (e : Event) : Prop :=
  match e with
  | HttpPost _ payload _ => exists timestamp, payload = WebhookService.basePayload cfg email timestamp
  | _ => True
  end.

(** The [email] of a payload is bounded: no [htmlBody], a [body] of at most
    300 characters, at most 5 addresses in [to] and in [cc]. *)
Definition payload_bounded (payload : Json) : Prop :=
  exists fields,
    member payload "email" = Some (Some (JObj fields)) /\
    lookup_field "htmlBody" fields = None /\
    (exists b, lookup_field "body" fields = Some (JStr b) /\ String.length b <= 300) /\
    (exists l, lookup_field "to" fields = Some (JArr l) /\ length l <= 5) /\
    (forall v, lookup_field "cc" fields = Some v -> exists l, v = JArr l /\ length l <= 5).

(** The events a run from [w] to [w'] added to the trace. *)
Definition new_events (w w' : World) : list Event := drop (length (trace w)) (trace w').

(** The maps and timers of the IMAP service are left alone. *)
Definition service_frame (w w' : World) : Prop :=
  reconnectAttempts w' = reconnectAttempts w /\
  connectionStatus w' = connectionStatus w /\
  timers w' = timers w.

(** The service is left alone and every event added satisfies [Q]. *)
Definition steps (Q : Event -> Prop) (w w' : World) : Prop :=
  service_frame w w' /\
  exists evs, trace w' = trace w ++ evs /\ Forall Q evs.

(** Moreover the index is left alone. *)
Definition frame (Q : Event -> Prop) (w w' : World) : Prop :=
  es_docs w' = es_docs w /\ steps Q w w'.

Definition is_ai_event (e : Event) : Prop :=
  match e with
  | AiGenerate _ _ | Console WarnAiNotConfigured | Console ErrCategorizing => True
  | _ => False
  end.

Definition is_webhook_line (l : ConsoleLine) : Prop :=
  match l with
  | LogAllWebhooksTriggered | ErrTriggeringWebhooks
  | WarnSlackNotConfigured | LogSlackSent | ErrSlack
  | WarnGenericNotConfigured | WarnRateLimited _ | ErrSendingWebhook _
  | LogGenericTriggered | WarnNoInterestedUrls | LogBroadcast _ _ => True
  | _ => False
  end.

Definition is_webhook_event (e : Event) : Prop :=
  match e with
  | HttpPost _ _ _ => True
  | Console l => is_webhook_line l
  | _ => False
  end.

(** The events of the ingestion pipeline: everything but the IMAP traffic. *)
Definition is_pipeline_event (e : Event) : Prop :=
  match e with
  | ImapOpenBox _ | ImapSearch _ _ | ImapFetch _ | ImapMessage _ | SetInterval _ => False
  | _ => True
  end.

(** The events of a batch that fetches the sequence numbers [seqNos]. *)
Definition is_batch_event (seqNos : list Z) (e : Event) : Prop :=
  match e with
  | ImapFetch l => l = seqNos
  | ImapMessage s => s ∈ seqNos
  | ImapOpenBox _ | ImapSearch _ _ | SetInterval _ => False
  | _ => True
  end.

(** What an event contributes to each reading of a trace. *)
Definition seqno_of (e : Event) : option Z :=
  match e with ImapMessage s => Some s | _ => None end.
Definition fetch_of (e : Event) : option (list Z) :=
  match e with ImapFetch l => Some l | _ => None end.
Definition insert_of (e : Event) : option EmailDocument.t :=
  match e with EsIndex d true => Some d | _ => None end.
Definition url_of (e : Event) : option string :=
  match e with HttpPost url _ _ => Some url | _ => None end.
Definition payload_of (e : Event) : option Json :=
  match e with HttpPost _ payload _ => Some payload | _ => None end.
Definition prompt_sent (e : Event) : option string :=
  match e with AiGenerate prompt _ => Some prompt | _ => None end.
Definition trigger_of (e : Event) : option string :=
  match e with Console (LogTriggeringWebhooks s) => Some s | _ => None end.

(** The sequence numbers whose message handler ran, the fetches requested
    and the documents whose insert succeeded, in the order of the trace. *)
Definition handled (evs : list Event) : list Z := omap seqno_of evs.
Definition fetched (evs : list Event) : list (list Z) := omap fetch_of evs.
Definition inserted (evs : list Event) : list EmailDocument.t := omap insert_of evs.

(** The URLs and payloads posted, the prompts sent to the model and the
    subjects for which the fanout was triggered, in the order of the trace. *)
Definition posted (evs : list Event) : list string := omap url_of evs.
Definition payloads (evs : list Event) : list Json := omap payload_of evs.
Definition classified (evs : list Event) : list string := omap prompt_sent evs.
Definition triggered (evs : list Event) : list string := omap trigger_of evs.

(** Every run of [m] adds events that read as [l] under [f]. *)
Definition yields {A B} (f : Event -> option B) (l : list B) (m : M A) : Prop :=
  forall w r w', m w = (r, w') -> exists evs, trace w' = trace w ++ evs /\ omap f evs = l.

(** Every run of [m] posts to exactly the URLs [l], in this order. *)
Abbreviation posts := (yields url_of).

(** The reconnection delay as the specification words it. *)
Definition backoff_delay (baseDelay maxDelayCap : Z) (k : nat) : Z :=
  Z.min (baseDelay * 2 ^ Z.of_nat k) maxDelayCap.

(** Every mailbox of an address header, whatever its address. *)
Definition mailboxes (field : ParsedMail.AddressField) : list ParsedMail.EmailAddress :=
  match field with
  | ParsedMail.Absent => []
  | ParsedMail.One o => default [] (ParsedMail.value o)
  | ParsedMail.Many items => flat_map (fun o => default [] (ParsedMail.value o)) items
  end.

Definition is_search_event (e : Event) : Prop :=
  match e with
  | EsSearch _ _ | Console ErrSearchingByMessageId => True
  | _ => False
  end.

(** The identifier [processEmail] looks up and stores. *)
Definition rawMessageId_of (parsed : ParsedMail.t) : string :=
  trim (or_default (ParsedMail.messageId parsed) "").

(** The ways one run of [processEmail] from [w] to [w'] can go: the message
    is skipped as a duplicate; the insert fails; the record is inserted and
    the category update fails; or the record is inserted, its category is
    updated to [c] and, for [Interested], the webhooks are triggered. *)
Inductive pipeline_run (env : Env) (parsed : ParsedMail.t) (account : EmailAccount.t)
  (folder : string) (w w' : World) : Prop :=
| run_duplicate (hit : string * EmailDocument.t) :
    truthy (rawMessageId_of parsed) = true ->
    es_search env (clock w) (rawMessageId_of parsed) = true ->
    head (ElasticsearchService.hits (rawMessageId_of parsed) (es_docs w)) = Some hit ->
    es_docs w' = es_docs w ->
    trace w' = trace w ++ [ EsSearch (rawMessageId_of parsed) true;
                            Console (LogDuplicateSkipped (rawMessageId_of parsed)) ] ->
    pipeline_run env parsed account folder w w'
| run_insert_failed (pre : list Event) (t : nat) :
    Forall is_search_event pre ->
    let doc := IMAPService.emailDoc_of env parsed account folder (rawMessageId_of parsed)
                 (uuidv4 env t) (now env t) in
    es_docs w' = es_docs w ->
    trace w' = trace w ++ pre ++ [ EsIndex doc false; Console ErrIndexing;
                                     Console ErrProcessingEmail ] ->
    pipeline_run env parsed account folder w w'
| run_update_failed (pre ai : list Event) (t : nat) (c : string) :
    Forall is_search_event pre -> Forall is_ai_event ai ->
    c ∈ AIService.validCategories ->
    let doc := IMAPService.emailDoc_of env parsed account folder (rawMessageId_of parsed)
                 (uuidv4 env t) (now env t) in
    es_docs w' = <[EmailDocument.id doc := doc]> (es_docs w) ->
    trace w' = trace w ++ pre ++ [EsIndex doc true] ++ ai
                 ++ [ EsUpdate (EmailDocument.id doc) c false; Console ErrUpdatingCategory;
                      Console ErrProcessingEmail ] ->
    pipeline_run env parsed account folder w w'
| run_completed (pre ai fan : list Event) (t : nat) (c : string) :
    Forall is_search_event pre -> Forall is_ai_event ai ->
    c ∈ AIService.validCategories ->
    (ai = [] -> c = "Uncategorized") ->
    (forall p, AiGenerate p false ∈ ai -> c = "Uncategorized") ->
    let doc := IMAPService.emailDoc_of env parsed account folder (rawMessageId_of parsed)
                 (uuidv4 env t) (now env t) in
    es_docs w' = <[EmailDocument.id doc := EmailDocument.with_aiCategory c doc]> (es_docs w) ->
    (c = "Interested" /\
       (exists hooks, fan = Console (LogTriggeringWebhooks (EmailDocument.subject doc)) :: hooks /\
                      Forall is_webhook_event hooks)
     \/ c <> "Interested" /\ fan = []) ->
    trace w' = trace w ++ pre ++ [EsIndex doc true] ++ ai
                 ++ [EsUpdate (EmailDocument.id doc) c true] ++ fan
                 ++ [Console (LogProcessed (EmailDocument.subject doc) c)] ->
    pipeline_run env parsed account folder w w'.

(** The keep-alive intervals armed, in the order of the trace. *)
Definition interval_of (e : Event) : option Z :=
  match e with SetInterval ms => Some ms | _ => None end.
Definition intervals (evs : list Event) : list Z := omap interval_of evs.

(** The identifiers skipped as duplicates, in the order of the trace. *)
Definition duplicate_of (e : Event) : option string :=
  match e with Console (LogDuplicateSkipped messageId) => Some messageId | _ => None end.
Definition skipped (evs : list Event) : list string := omap duplicate_of evs.

(** How the handling of one fetched message ends, as the trace shows it:
    its source does not parse, it is skipped as a duplicate, the index
    refuses its record, or its record is inserted. *)
Inductive Outcome :=
| ParseFailed
| DuplicateSkipped (messageId : string)
| InsertRefused (doc : EmailDocument.t)
| Inserted (doc : EmailDocument.t).

Definition outcome_of (e : Event) : option Outcome :=
  match e with
  | Console ErrProcessingMessage => Some ParseFailed
  | Console (LogDuplicateSkipped messageId) => Some (DuplicateSkipped messageId)
  | EsIndex doc false => Some (InsertRefused doc)
  | EsIndex doc true => Some (Inserted doc)
  | _ => None
  end.

Definition outcomes (evs : list Event) : list Outcome := omap outcome_of evs.

(** One mark per outcome. *)
Definition outcome_mark (e : Event) : option unit :=
  match outcome_of e with Some _ => Some tt | None => None end.

(** The record [emailId] is in the index with one of the six categories. *)
Definition categorized (w : World) (emailId : string) : Prop :=
  exists d, es_docs w !! emailId = Some d /\
            EmailDocument.aiCategory d ∈ AIService.validCategories.

(** From [w] to [w'], every document whose insert succeeded is a categorized
    record of [w'], and the categorized records of [w] still are. *)
Definition sync_rel (w w' : World) : Prop :=
  exists evs, trace w' = trace w ++ evs /\
    (forall doc, doc ∈ inserted evs -> categorized w' (EmailDocument.id doc)) /\
    (forall emailId, categorized w emailId -> categorized w' emailId).

(** The world after the handlers of the messages [seqNos] have run. *)
Definition after_handlers (cfg : Config.t) (env : Env) (account : EmailAccount.t)
  (folder : string) (seqNos : list Z) (w : World) : World :=
  (mapM (fun seqno => settle (IMAPService.onMessage cfg env account folder seqno)) seqNos w).2.

(** *** Example inputs *)

Definition example_config : Config.t :=
  Config.mk 3000 10 5000 "gemini" "key" "gemini-1.5-flash"
    ["https://hooks.example.com/a"; "https://hooks.example.com/b"]
    None (Some "https://hooks.example.com/generic") None.

Definition example_account : EmailAccount.t :=
  EmailAccount.mk "account-1" "me@example.com" "secret" "imap.example.com" 993.

Definition example_parsed : ParsedMail.t :=
  ParsedMail.mk (Some "<m1@example.com>") None (Some "Hello") (Some "Offer")
    (ParsedMail.One
       (ParsedMail.mkAddressObject (Some [ParsedMail.mkAddress "Ann" (Some "ann@example.com")])))
    ParsedMail.Absent ParsedMail.Absent (Some 1700000000000%Z) None None.

(** A record already indexed for the message of [example_parsed]. *)
Definition example_record : EmailDocument.t :=
  EmailDocument.mk "doc-1" "account-1" "INBOX" "Offer" "Hello" None "ann@example.com" [] None
    1700000000000 "Interested" 1700000000001 "<m1@example.com>" None None.

Definition example_uuid (t : nat) : string := String (ascii_of_nat (97 + t)) "".

(** Collaborators that all answer: the model says [Interested], the mailbox
    holds twelve messages, and the message number 3 does not parse. *)
Definition example_env : Env :=
  mkEnv (fun _ _ => true) (fun _ _ => true) (fun _ _ _ => true)
    (fun _ _ => Some "Interested")
    (fun text => Some (JObj [("category", JStr text)]))
    (fun _ _ _ => Post2xx)
    (fun _ => true)
    (fun _ _ => Some [1; 2; 3; 4; 5; 6; 7; 8; 9; 10; 11; 12]%Z)
    (fun _ _ => true)
    (fun seqno => if (seqno =? 3)%Z then "garbage" else "message")
    (fun source => if String.eqb source "garbage" then None else Some example_parsed)
    (fun html => html)
    example_uuid
    Z.of_nat.

(** The same, but every search of the index fails. *)
Definition example_env_search_down : Env :=
  mkEnv (fun _ _ => false) (es_index example_env) (es_update example_env)
    (generateContent example_env) (JSON_parse example_env) (axios_post example_env)
    (imap_openBox example_env) (imap_search example_env) (imap_fetch example_env)
    (imap_source example_env) (simpleParser example_env) (htmlToText example_env)
    (uuidv4 example_env) (now example_env).

(** The same, but every insert into the index fails. *)
Definition example_env_index_down : Env :=
  mkEnv (es_search example_env) (fun _ _ => false) (es_update example_env)
    (generateContent example_env) (JSON_parse example_env) (axios_post example_env)
    (imap_openBox example_env) (imap_search example_env) (imap_fetch example_env)
    (imap_source example_env) (simpleParser example_env) (htmlToText example_env)
    (uuidv4 example_env) (now example_env).

Definition empty_world : World := mkWorld ∅ ∅ ∅ [] [] 0.

(** A world whose index holds [example_record]. *)
Definition example_world : World :=
  mkWorld {[ "doc-1" := example_record ]} ∅ ∅ [] [] 0.

(** An address header with a group, which has no address of its own. *)
Definition example_recipients : ParsedMail.AddressField :=
  ParsedMail.One
    (ParsedMail.mkAddressObject
       (Some [ ParsedMail.mkAddress "undisclosed-recipients" None;
               ParsedMail.mkAddress "Ann" (Some "ann@example.com") ])).

(** *** Further readings of a trace *)

(** The identifiers looked up in the index, in the order of the trace. *)
Definition search_of (e : Event) : option string :=
  match e with EsSearch messageId _ => Some messageId | _ => None end.
Definition searches (evs : list Event) : list string := omap search_of evs.

(** The events of the pipeline after the duplicate check. *)
Definition is_ingest_event (e : Event) : Prop :=
  is_pipeline_event e /\ search_of e = None /\ duplicate_of e = None.

(** Some record of the index carries the identifier [messageId]. *)
Definition indexed (w : World) (messageId : string) : Prop :=
  exists i d, es_docs w !! i = Some d /\ EmailDocument.messageId d = messageId.

(** From [w] to [w'], no record of the index is removed, and the index
    grows by at most one record per insert that succeeded. *)
Definition keeps_records (w w' : World) : Prop :=
  exists evs, trace w' = trace w ++ evs /\
    (forall i, is_Some (es_docs w !! i) -> is_Some (es_docs w' !! i)) /\
    size (es_docs w') <= size (es_docs w) + length (inserted evs).

(** [m], [n] times in a row, stopping at the first throw. *)
Fixpoint repeatM (n : nat) (m : M unit) : M unit :=
  match n with
  | O => ret tt
  | S n' => bind m (fun _ => repeatM n' m)
  end.

(** Every post carries the payload [payload]. *)
Definition sends_payload (payload : Json) (e : Event) : Prop :=
  match e with
  | HttpPost _ p _ => p = payload
  | _ => True
  end.

(** The world in which the [ready] handler of [account] starts the initial
    sync: the connection is logged, the status is set and the counter is
    reset. *)
Definition ready_world (env : Env) (account : EmailAccount.t) (w : World) : World :=
  set_reconnectAttempts <[EmailAccount.id account := 0%nat]>
    (set_connectionStatus
       <[EmailAccount.id account :=
           IMAPConnectionStatus.mk (EmailAccount.id account) true (now env (clock w)) None]>
       (set_trace (fun t => t ++ [Console LogConnected]) w)).

(** The source of the message [seqno] parses. *)
Definition parses (env : Env) (seqno : Z) : bool :=
  match simpleParser env (imap_source env seqno) with Some _ => true | None => false end.

(** *** The HTTP surface *)

(** The category updates that completed, in the order of the trace. *)
Definition update_of (e : Event) : option (string * string) :=
  match e with EsUpdate emailId category true => Some (emailId, category) | _ => None end.
Definition updates (evs : list Event) : list (string * string) := omap update_of evs.

(** The events of a backfill: calls of the model and category updates. *)
Definition is_backfill_event (e : Event) : Prop :=
  match e with
  | AiGenerate _ _ | EsUpdate _ _ _
  | Console WarnAiNotConfigured | Console ErrCategorizing | Console ErrUpdatingCategory => True
  | _ => False
  end.

(** Every record of the index is stored under its own [id], as
    [indexEmail] stores it. *)
Definition index_keyed (w : World) : Prop :=
  forall i d, es_docs w !! i = Some d -> EmailDocument.id d = i.

(** The chat prompts sent, in the order of the notes. *)
Definition chat_of (n : Note) : option string :=
  match n with ChatSendMessage prompt _ => Some prompt | _ => None end.

Definition is2xx (o : PostOutcome) : bool :=
  match o with Post2xx => true | _ => false end.

(** *** Counting the answers of a fanout *)

(** Whether a post was answered with 2xx, the primary post reported as
    triggered, and the counts of a broadcast report. *)
Definition answered_of (e : Event) : option bool :=
  match e with HttpPost _ _ outcome => Some (is2xx outcome) | _ => None end.
Definition primary_of (e : Event) : option unit :=
  match e with Console LogGenericTriggered => Some tt | _ => None end.
Definition report_of (e : Event) : option (nat * nat) :=
  match e with Console (LogBroadcast successCount total) => Some (successCount, total) | _ => None end.

(** The number of posts answered with 2xx. *)
Definition successes (evs : list Event) : nat :=
  length (List.filter (fun b : bool => b) (omap answered_of evs)).

(** Collaborators of the controller that all answer. *)
Definition example_henv : HttpEnv :=
  mkHttpEnv (fun _ _ => true) (fun _ _ => true) (fun _ _ => Some "Thank you.").

(** A record still [Uncategorized], and a server whose index holds it. *)
Definition example_pending : EmailDocument.t :=
  EmailDocument.mk "doc-2" "account-1" "INBOX" "Hi" "Hello" None "bob@example.com" [] None
    1700000000002 "Uncategorized" 1700000000003 "<m2@example.com>" None None.

Definition example_server : Server :=
  mkServer (mkWorld {[ "doc-2" := example_pending ]} ∅ ∅ [] [] 0) [].

(** A configuration without a key for the model. *)
Definition example_config_no_ai : Config.t :=
  Config.mk 3000 10 5000 "gemini" "" "gemini-1.5-flash" [] None None None.

(** *** The verdict of the classifier *)




(** ** Reasoning about computations *)

Section Spec.
Context (R : World -> World -> Prop).
Hypothesis R_refl : forall w, R w w.
Hypothesis R_trans : forall w1 w2 w3, R w1 w2 -> R w2 w3 -> R w1 w3.

Lemma spec_ret {A} (P : A -> Prop) (a : A) : P a -> spec R P (ret a).
Proof. intros Ha w r w' H. inversion H; subst. split; [apply R_refl | exact Ha]. Qed.

Lemma spec_throw {A} (P : A -> Prop) (e : Error) : spec R P (throw e).
Proof. intros w r w' H. inversion H; subst. split; [apply R_refl | exact I]. Qed.

Lemma spec_get_world (P : World -> Prop) : (forall w, P w) -> spec R P get_world.
Proof. intros HP w r w' H. inversion H; subst. split; [apply R_refl | apply HP]. Qed.

Lemma spec_bind {A B} (P : A -> Prop) (Q : B -> Prop) (m : M A) (k : A -> M B) :
  spec R P m -> (forall a, P a -> spec R Q (k a)) -> spec R Q (bind m k).
Proof.
  intros Hm Hk w r w' H. unfold bind in H.
  destruct (m w) as [[a|e] w1] eqn:E.
  - destruct (Hm _ _ _ E) as [H1 Ha]. destruct (Hk a Ha _ _ _ H) as [H2 Hr].
    split; [eapply R_trans; eassumption | exact Hr].
  - inversion H; subst. destruct (Hm _ _ _ E) as [H1 _]. split; [exact H1 | exact I].
Qed.

Lemma spec_try_catch {A} (P : A -> Prop) (m : M A) (h : Error -> M A) :
  spec R P m -> (forall e, spec R P (h e)) -> spec R P (try_catch m h).
Proof.
  intros Hm Hh w r w' H. unfold try_catch in H.
  destruct (m w) as [[a|e] w1] eqn:E.
  - inversion H; subst. exact (Hm _ _ _ E).
  - destruct (Hm _ _ _ E) as [H1 _]. destruct (Hh e _ _ _ H) as [H2 Hr].
    split; [eapply R_trans; eassumption | exact Hr].
Qed.

Lemma spec_settle {A} (P : A -> Prop) (m : M A) :
  spec R P m -> spec R (fun _ => True) (settle m).
Proof.
  intros Hm w r w' H. unfold settle in H.
  destruct (m w) as [r1 w1] eqn:E. inversion H; subst.
  destruct (Hm _ _ _ E) as [H1 _]. split; [exact H1 | exact I].
Qed.

Lemma spec_weaken {A} (P Q : A -> Prop) (m : M A) :
  (forall a, P a -> Q a) -> spec R P m -> spec R Q m.
Proof.
  intros HPQ Hm w r w' H. destruct (Hm _ _ _ H) as [H1 Hr].
  split; [exact H1|]. destruct r; [apply HPQ, Hr | exact I].
Qed.

Lemma spec_promise_all ps : spec R (fun _ => True) (promise_all ps).
Proof.
  induction ps as [|[u|e] ps IH]; simpl.
  - apply spec_ret. exact I.
  - exact IH.
  - apply spec_throw.
Qed.

Lemma spec_mapM {A B} (f : A -> M B) (l : list A) :
  (forall x, x ∈ l -> preserves R (f x)) -> spec R (fun _ => True) (mapM f l).
Proof.
  induction l as [|x l IH]; simpl; intros Hf.
  - apply spec_ret. exact I.
  - eapply spec_bind; [apply Hf; left|]. intros y _.
    eapply spec_bind; [apply IH; intros z Hz; apply Hf; right; exact Hz|].
    intros ys _. apply spec_ret. exact I.
Qed.

Lemma preserves_bind {A B} (m : M A) (k : A -> M B) :
  preserves R m -> (forall a, preserves R (k a)) -> preserves R (bind m k).
Proof. intros Hm Hk. eapply spec_bind; [exact Hm | intros a _; apply Hk]. Qed.

Lemma preserves_try_catch {A} (m : M A) (h : Error -> M A) :
  preserves R m -> (forall e, preserves R (h e)) -> preserves R (try_catch m h).
Proof. intros Hm Hh. apply spec_try_catch; assumption. Qed.

Lemma preserves_settle {A} (m : M A) : preserves R m -> preserves R (settle m).
Proof. apply spec_settle. Qed.

Lemma preserves_any {A} (P : A -> Prop) (m : M A) : spec R P m -> preserves R m.
Proof. apply spec_weaken. intros; exact I. Qed.

End Spec.

(** ** Frames of the primitive effects *)

Lemma service_frame_refl w : service_frame w w.
Proof. repeat split. Qed.

Lemma service_frame_trans w1 w2 w3 :
  service_frame w1 w2 -> service_frame w2 w3 -> service_frame w1 w3.
Proof. intros (A1 & B1 & C1) (A2 & B2 & C2). repeat split; congruence. Qed.

Lemma steps_refl Q w : steps Q w w.
Proof.
  split; [apply service_frame_refl|]. exists []. split; [by rewrite app_nil_r | constructor].
Qed.

Lemma steps_trans Q w1 w2 w3 : steps Q w1 w2 -> steps Q w2 w3 -> steps Q w1 w3.
Proof.
  intros [S1 (e1 & T1 & F1)] [S2 (e2 & T2 & F2)].
  split; [eapply service_frame_trans; eassumption|].
  exists (e1 ++ e2). split; [by rewrite T2, T1, app_assoc | by apply Forall_app].
Qed.

Lemma frame_refl Q w : frame Q w w.
Proof. split; [reflexivity | apply steps_refl]. Qed.

Lemma frame_trans Q w1 w2 w3 : frame Q w1 w2 -> frame Q w2 w3 -> frame Q w1 w3.
Proof.
  intros [D1 S1] [D2 S2]. split; [congruence | eapply steps_trans; eassumption].
Qed.

Lemma steps_mono (Q Q' : Event -> Prop) w w' :
  (forall e, Q e -> Q' e) -> steps Q w w' -> steps Q' w w'.
Proof.
  intros HQ [S (evs & T & F)]. split; [exact S|]. exists evs. split; [exact T|].
  eapply Forall_impl; eassumption.
Qed.

Lemma frame_steps Q w w' : frame Q w w' -> steps Q w w'.
Proof. intros [_ S]. exact S. Qed.

Lemma steps_emit Q e w : Q e -> steps Q w (set_trace (fun t => t ++ [e]) w).
Proof.
  intros He. split; [repeat split|]. exists [e]. split; [reflexivity | by constructor].
Qed.

Lemma steps_tick Q w : steps Q w (set_clock S w).
Proof. split; [repeat split|]. exists []. split; [by rewrite app_nil_r | constructor]. Qed.

Lemma steps_docs Q f w : steps Q w (set_es_docs f w).
Proof. split; [repeat split|]. exists []. split; [by rewrite app_nil_r | constructor]. Qed.

Lemma spec_emit_steps Q e : Q e -> preserves (steps Q) (emit e).
Proof. intros He w r w' H. inversion H; subst. split; [by apply steps_emit | exact I]. Qed.

Lemma spec_tick_steps Q (P : nat -> Prop) : (forall t, P t) -> spec (steps Q) P tick.
Proof. intros HP w r w' H. inversion H; subst. split; [apply steps_tick | apply HP]. Qed.

Lemma spec_docs_steps Q f : preserves (steps Q) (modify (set_es_docs f)).
Proof. intros w r w' H. inversion H; subst. split; [apply steps_docs | exact I]. Qed.

Lemma spec_emit_frame Q e : Q e -> preserves (frame Q) (emit e).
Proof.
  intros He w r w' H. inversion H; subst.
  split; [split; [reflexivity | by apply steps_emit] | exact I].
Qed.

Lemma spec_tick_frame Q (P : nat -> Prop) : (forall t, P t) -> spec (frame Q) P tick.
Proof.
  intros HP w r w' H. inversion H; subst.
  split; [split; [reflexivity | apply steps_tick] | apply HP].
Qed.

(** One step of a proof that a computation stays within a relation. *)
Ltac rel_side :=
  first [ exact (steps_refl _) | exact (steps_trans _)
        | exact (frame_refl _) | exact (frame_trans _) ].

Ltac pres_step :=
  lazymatch goal with
  | |- preserves _ (bind _ _) => apply preserves_bind; try rel_side; [| intros ?]
  | |- preserves _ (try_catch _ _) => apply preserves_try_catch; try rel_side; [| intros ?]
  | |- preserves _ (settle _) => apply preserves_settle
  | |- preserves _ (mapM _ _) => apply spec_mapM; try rel_side; intros ? _
  | |- preserves _ (promise_all _) => apply spec_promise_all; rel_side
  | |- preserves _ (ret _) => apply spec_ret; first [rel_side | exact I]
  | |- preserves _ (throw _) => apply spec_throw; rel_side
  | |- preserves _ get_world => apply spec_get_world; first [rel_side | intros; exact I]
  | |- preserves _ (console _) => unfold console
  | |- preserves _ (if ?b then _ else _) => destruct b
  | |- preserves _ (match ?x with _ => _ end) => destruct x
  | |- preserves _ (let _ := _ in _) => cbv zeta
  end.

Create HintDb steps.

(** Computations that only add events satisfying [Q], leaving the service
    (and, for [frame_tac], the index) alone. *)
Ltac steps_one :=
  first
    [ pres_step
    | apply spec_emit_steps; simpl; solve [eauto]
    | apply spec_tick_steps; intros; exact I
    | apply spec_docs_steps
    | solve [eauto with steps] ].

Ltac steps_tac := repeat steps_one.

Ltac frame_tac :=
  repeat first
    [ pres_step
    | apply spec_emit_frame; simpl; solve [eauto]
    | apply spec_tick_frame; intros; exact I
    | solve [eauto with steps] ].

(** Unfolds the monad and the primitive effects in the goal. *)
Ltac run :=
  cbv beta iota zeta delta
    [bind try_catch settle ret throw emit console tick get_world modify].

(** Closes [frame Q w w'] or [steps Q w w'] for a world written out. *)
Ltac frame_done :=
  repeat (split; try reflexivity);
  eexists; (split; [simpl; rewrite <- ?app_assoc; reflexivity | repeat constructor]).

Tactic Notation "run_in" hyp(H) :=
  cbv beta iota zeta delta
    [bind try_catch settle ret throw emit console tick get_world modify] in H.

(** Computes the fields of a world written out. *)
Ltac wsimpl :=
  cbn [trace es_docs clock reconnectAttempts connectionStatus timers
       set_trace set_es_docs set_clock set_timers set_reconnectAttempts set_connectionStatus] in *.

(** Closes the frame conditions of a run whose final world is written out. *)
Ltac close_run :=
  simpl; rewrite <- ?app_assoc;
  split; [reflexivity|]; split; [by repeat split|]; split; [lia|];
  split; [reflexivity|]; split; [repeat constructor|].

(** ** The classification client *)

Lemma includes_elem_of (a : list string) (s : string) :
  includes a (Some (JStr s)) = true -> s ∈ a.
Proof.
  simpl. rewrite existsb_exists. intros (x & Hx & Heq).
  apply String.eqb_eq in Heq. subst x. apply list_elem_of_In. exact Hx.
Qed.

Lemma Uncategorized_valid : "Uncategorized" ∈ AIService.validCategories.
Proof. unfold AIService.validCategories. set_solver. Qed.

Lemma categorizeEmail_run cfg env email w :
  exists c w' ai,
    AIService.categorizeEmail cfg env email w = (Ok (AIService.mkResponse c), w') /\
    c ∈ AIService.validCategories /\
    es_docs w' = es_docs w /\ service_frame w w' /\ clock w <= clock w' /\
    trace w' = trace w ++ ai /\ Forall is_ai_event ai /\
    (c = "Uncategorized" \/
     (AIService.categorizationModel cfg = true /\
      ai = [AiGenerate (AIService.prompt_of email) true] /\
      exists text v,
        generateContent env (clock w) (AIService.prompt_of email) = Some text /\
        JSON_parse env text = Some v /\
        member v "category" = Some (Some (JStr c)))).
Proof.
  pose proof Uncategorized_valid as HU.
  unfold AIService.categorizeEmail.
  destruct (AIService.categorizationModel cfg) eqn:Hcfg; simpl.
  2:{ eexists _, _, _. split; [reflexivity|]. split; [exact HU|]. close_run. by left. }
  unfold AIService.generate, AIService.parse, AIService.get_category. run.
  destruct (generateContent env (clock w) (AIService.prompt_of email)) as [text|] eqn:Hgen; run.
  2:{ eexists _, _, _. split; [reflexivity|]. split; [exact HU|]. close_run. by left. }
  destruct (JSON_parse env text) as [v|] eqn:Hparse; run.
  2:{ eexists _, _, _. split; [reflexivity|]. split; [exact HU|]. close_run. by left. }
  destruct (member v "category") as [category|] eqn:Hmem; run.
  2:{ eexists _, _, _. split; [reflexivity|]. split; [exact HU|]. close_run. by left. }
  destruct (truthy_value category && includes AIService.validCategories category) eqn:Hok.
  2:{ eexists _, _, _. split; [reflexivity|]. split; [exact HU|]. close_run. by left. }
  apply andb_true_iff in Hok as [_ Hinc].
  destruct category as [[| | |s| |]|]; try discriminate Hinc.
  eexists _, _, _. split; [reflexivity|]. split; [apply includes_elem_of, Hinc|]. close_run.
  right. split; [reflexivity|]. split; [reflexivity|]. exists text, v. auto.
Qed.

(** C2: for every input and every behaviour of the model, [categorizeEmail]
    returns (it never throws) one of the six fixed categories; the result is
    [Uncategorized] unless the model is configured, answers, its answer parses
    and the [category] of the parsed answer is the returned string itself. *)
Theorem categorizeEmail_fixed_category cfg env email w :
  exists c w',
    AIService.categorizeEmail cfg env email w = (Ok (AIService.mkResponse c), w') /\
    c ∈ AIService.validCategories /\
    (c = "Uncategorized" \/
     (AIService.categorizationModel cfg = true /\
      exists text v,
        generateContent env (clock w) (AIService.prompt_of email) = Some text /\
        JSON_parse env text = Some v /\
        member v "category" = Some (Some (JStr c)))).
Proof.
  destruct (categorizeEmail_run cfg env email w)
    as (c & w' & ai & Hrun & Hc & _ & _ & _ & _ & _ & Hdeg).
  exists c, w'. split; [exact Hrun|]. split; [exact Hc|].
  destruct Hdeg as [->|(Hm & _ & Hrest)]; [by left | right; auto].
Qed.

(** ** Computations that never throw *)

Lemma total_ret {A} (a : A) : total (ret a).
Proof. intros w. eexists _, _. reflexivity. Qed.

Lemma total_emit e : total (emit e).
Proof. intros w. eexists _, _. reflexivity. Qed.

Lemma total_tick : total tick.
Proof. intros w. eexists _, _. reflexivity. Qed.

Lemma total_get_world : total get_world.
Proof. intros w. eexists _, _. reflexivity. Qed.

Lemma total_bind {A B} (m : M A) (k : A -> M B) :
  total m -> (forall a, total (k a)) -> total (bind m k).
Proof.
  intros Hm Hk w. destruct (Hm w) as (a & w1 & E). destruct (Hk a w1) as (b & w2 & E2).
  exists b, w2. unfold bind. rewrite E. exact E2.
Qed.

Lemma total_settle {A} (m : M A) : total (settle m).
Proof. intros w. unfold settle. destruct (m w) as [r w']. eexists _, _. reflexivity. Qed.

Lemma total_try_catch {A} (m : M A) (h : Error -> M A) :
  (forall e, total (h e)) -> total (try_catch m h).
Proof.
  intros Hh w. unfold try_catch. destruct (m w) as [[a|e] w1].
  - eexists _, _. reflexivity.
  - apply Hh.
Qed.

Ltac total_tac :=
  repeat first
    [ apply total_ret
    | apply total_emit
    | apply total_tick
    | apply total_get_world
    | apply total_settle
    | apply total_try_catch; intros ?
    | apply total_bind; [| intros ?]
    | progress unfold console
    | lazymatch goal with
      | |- total (if ?b then _ else _) => destruct b
      | |- total (match ?x with _ => _ end) => destruct x
      end ].

(** ** The index *)

Lemma indexEmail_steps env email :
  preserves (steps is_pipeline_event) (ElasticsearchService.indexEmail env email).
Proof. unfold ElasticsearchService.indexEmail. steps_tac. Qed.

Lemma updateEmailCategory_steps env emailId category :
  preserves (steps is_pipeline_event) (ElasticsearchService.updateEmailCategory env emailId category).
Proof. unfold ElasticsearchService.updateEmailCategory. steps_tac. Qed.

Lemma existsByMessageId_frame env messageId :
  preserves (frame is_pipeline_event) (ElasticsearchService.existsByMessageId env messageId).
Proof.
  unfold ElasticsearchService.existsByMessageId, ElasticsearchService.findByMessageId. frame_tac.
Qed.

Lemma preserves_mono {A} (R R' : World -> World -> Prop) (m : M A) :
  (forall w w', R w w' -> R' w w') -> preserves R m -> preserves R' m.
Proof.
  intros HR Hm w r w' H. destruct (Hm _ _ _ H) as [H1 _]. split; [apply HR, H1 | by destruct r].
Qed.

Lemma frame_pipeline (Q : Event -> Prop) w w' :
  (forall e, Q e -> is_pipeline_event e) -> frame Q w w' -> steps is_pipeline_event w w'.
Proof. intros HQ [_ Hs]. eapply steps_mono; eassumption. Qed.

Lemma ai_event_pipeline e : is_ai_event e -> is_pipeline_event e.
Proof. destruct e; simpl; auto. Qed.

Lemma webhook_event_pipeline e : is_webhook_event e -> is_pipeline_event e.
Proof. destruct e; simpl; auto. Qed.

Lemma categorizeEmail_frame cfg env email :
  preserves (frame is_ai_event) (AIService.categorizeEmail cfg env email).
Proof.
  intros w r w' H.
  destruct (categorizeEmail_run cfg env email w)
    as (c & w1 & ai & Hrun & _ & Hd & Hs & _ & Ht & Hai & _).
  rewrite Hrun in H. inversion H; subst.
  split; [|exact I]. split; [exact Hd|]. split; [exact Hs|]. eauto.
Qed.

Lemma categorizeEmail_steps cfg env email :
  preserves (steps is_pipeline_event) (AIService.categorizeEmail cfg env email).
Proof.
  eapply preserves_mono; [|apply categorizeEmail_frame].
  intros w w'. apply frame_pipeline, ai_event_pipeline.
Qed.

#[local] Hint Resolve indexEmail_steps updateEmailCategory_steps existsByMessageId_frame
  categorizeEmail_steps : steps.

(** ** Notification fanout *)

Lemma post_frame env url payload :
  preserves (frame is_webhook_event) (WebhookService.post env url payload).
Proof. unfold WebhookService.post. frame_tac. Qed.
#[local] Hint Resolve post_frame : steps.

Lemma postSafely_frame env url payload :
  preserves (frame is_webhook_event) (WebhookService.postSafely env url payload).
Proof. unfold WebhookService.postSafely. frame_tac. Qed.
#[local] Hint Resolve postSafely_frame : steps.

Lemma sendSlackNotification_frame cfg env email :
  preserves (frame is_webhook_event) (WebhookService.sendSlackNotification cfg env email).
Proof. unfold WebhookService.sendSlackNotification. frame_tac. Qed.

Lemma sendGenericWebhook_frame cfg env email :
  preserves (frame is_webhook_event) (WebhookService.sendGenericWebhook cfg env email).
Proof. unfold WebhookService.sendGenericWebhook. frame_tac. Qed.
#[local] Hint Resolve sendSlackNotification_frame sendGenericWebhook_frame : steps.

Lemma bind_emit {B} (e : Event) (k : unit -> M B) (w : World) :
  bind (emit e) k w = k tt (set_trace (fun t => t ++ [e]) w).
Proof. reflexivity. Qed.

(** The fanout never throws, leaves the index and the service alone, and
    its events are the announcement followed by webhook events. *)
Lemma triggerInterestedWebhooks_run cfg env email w :
  exists w' hooks,
    WebhookService.triggerInterestedWebhooks cfg env email w = (Ok tt, w') /\
    es_docs w' = es_docs w /\ service_frame w w' /\
    trace w' = trace w ++ Console (LogTriggeringWebhooks (EmailDocument.subject email)) :: hooks /\
    Forall is_webhook_event hooks.
Proof.
  unfold WebhookService.triggerInterestedWebhooks, console.
  rewrite bind_emit.
  set (w0 := set_trace _ w).
  match goal with |- context [ ?m w0 ] =>
    assert (Hf : preserves (frame is_webhook_event) m) by frame_tac;
    destruct (m w0) as [r w'] eqn:Hrun
  end.
  destruct (Hf _ _ _ Hrun) as [(Hd & Hs & hooks & Ht & HQ) _].
  assert (r = Ok tt) as ->.
  { match type of Hrun with ?m _ = _ => assert (Ht' : total m) by total_tac end.
    destruct (Ht' w0) as ([] & w2 & E). rewrite E in Hrun. by inversion Hrun. }
  exists w', hooks. split; [reflexivity|]. split; [exact Hd|]. split; [exact Hs|].
  split; [|exact HQ]. rewrite Ht. subst w0. simpl. by rewrite <- app_assoc.
Qed.

Lemma total_mapM {A B} (f : A -> M B) (l : list A) :
  (forall x, total (f x)) -> total (mapM f l).
Proof. intros Hf. induction l as [|x l IH]; simpl; total_tac; auto. Qed.

Lemma postSafely_never_throws env url payload : total (WebhookService.postSafely env url payload).
Proof. unfold WebhookService.postSafely. total_tac. Qed.

(** *** The URLs posted to *)

Section Yields.
Context {B : Type} (f : Event -> option B).

Lemma yields_intro {A} (m : M A) (l : list B) :
  (forall w, exists evs, trace (m w).2 = trace w ++ evs /\ omap f evs = l) -> yields f l m.
Proof. intros H w r w' E. specialize (H w). rewrite E in H. exact H. Qed.

Lemma yields_ret {A} (a : A) : yields f [] (ret a).
Proof. apply yields_intro. intros w. exists []. by rewrite app_nil_r. Qed.

Lemma yields_throw {A} (e : Error) : yields f [] (@throw A e).
Proof. apply yields_intro. intros w. exists []. by rewrite app_nil_r. Qed.

Lemma yields_get_world : yields f [] get_world.
Proof. apply yields_intro. intros w. exists []. by rewrite app_nil_r. Qed.

Lemma yields_tick : yields f [] tick.
Proof. apply yields_intro. intros w. exists []. by rewrite app_nil_r. Qed.

Lemma yields_docs g : yields f [] (modify (set_es_docs g)).
Proof. apply yields_intro. intros w. exists []. by rewrite app_nil_r. Qed.

Lemma yields_emit (e : Event) : yields f (omap f [e]) (emit e).
Proof. apply yields_intro. intros w. exists [e]. done. Qed.

Lemma yields_bind {A C} (l1 l2 l : list B) (m : M A) (k : A -> M C) :
  yields f l1 m -> (forall a, yields f l2 (k a)) -> l2 = [] \/ total m -> l = l1 ++ l2 ->
  yields f l (bind m k).
Proof.
  intros Hm Hk Hside -> w r w' H. unfold bind in H.
  destruct (m w) as [[a|e] w1] eqn:E.
  - destruct (Hm _ _ _ E) as (e1 & T1 & P1). destruct (Hk a _ _ _ H) as (e2 & T2 & P2).
    exists (e1 ++ e2). split; [by rewrite T2, T1, app_assoc|].
    by rewrite omap_app, P1, P2.
  - inversion H; subst. destruct (Hm _ _ _ E) as (e1 & T1 & P1).
    destruct Hside as [->|Ht].
    + exists e1. by rewrite app_nil_r.
    + destruct (Ht w) as (a & w2 & E'). congruence.
Qed.

Lemma yields_try_catch {A} (l : list B) (m : M A) (h : Error -> M A) :
  yields f l m -> (forall e, yields f [] (h e)) -> yields f l (try_catch m h).
Proof.
  intros Hm Hh w r w' H. unfold try_catch in H.
  destruct (m w) as [[a|e] w1] eqn:E.
  - inversion H; subst. exact (Hm _ _ _ E).
  - destruct (Hm _ _ _ E) as (e1 & T1 & P1). destruct (Hh e _ _ _ H) as (e2 & T2 & P2).
    exists (e1 ++ e2). split; [by rewrite T2, T1, app_assoc|].
    by rewrite omap_app, P1, P2, app_nil_r.
Qed.

Lemma yields_settle {A} (l : list B) (m : M A) : yields f l m -> yields f l (settle m).
Proof.
  intros Hm w r w' H. unfold settle in H.
  destruct (m w) as [r1 w1] eqn:E. inversion H; subst. exact (Hm _ _ _ E).
Qed.

Lemma yields_promise_all ps : yields f [] (promise_all ps).
Proof.
  induction ps as [|[u|e] ps IH]; simpl; [apply yields_ret | exact IH | apply yields_throw].
Qed.

(** Events of a kind that [f] does not read yield nothing. *)
Lemma steps_yields_nil {A} (Q : Event -> Prop) (m : M A) :
  (forall e, Q e -> f e = None) -> preserves (steps Q) m -> yields f [] m.
Proof.
  intros HQ Hm w r w' E. destruct (Hm _ _ _ E) as [[_ (evs & T & F)] _].
  exists evs. split; [exact T|]. clear T.
  induction F as [|e evs He _ IH]; [reflexivity|].
  simpl. rewrite (HQ e He). exact IH.
Qed.

End Yields.

Lemma posts_console (l : ConsoleLine) : posts [] (console l).
Proof. apply (yields_emit url_of (Console l)). Qed.

Lemma post_posts env url payload : posts [url] (WebhookService.post env url payload).
Proof.
  unfold WebhookService.post.
  eapply yields_bind; [apply yields_tick | | right; apply total_tick | reflexivity].
  intros t. cbv zeta.
  eapply yields_bind; [apply yields_emit | | right; apply total_emit | reflexivity]. intros _.
  destruct (axios_post env t url payload); first [apply yields_ret | apply yields_throw].
Qed.

Lemma postSafely_posts env url payload : posts [url] (WebhookService.postSafely env url payload).
Proof.
  unfold WebhookService.postSafely.
  apply yields_try_catch.
  - eapply yields_bind; [apply post_posts | intros; apply yields_ret | by left | reflexivity].
  - intros e.
    assert (Hc : forall line, posts [] (console line;; @ret bool false)).
    { intros line. eapply yields_bind;
        [apply posts_console | intros; apply yields_ret | by left | reflexivity]. }
    repeat lazymatch goal with
    | |- posts _ (match ?x with _ => _ end) => destruct x
    end; apply Hc.
Qed.

Lemma broadcast_posts env payload (urls : list string) :
  posts urls (mapM (fun u => WebhookService.postSafely env u payload) urls).
Proof.
  induction urls as [|u urls IH]; simpl; [apply yields_ret|].
  eapply yields_bind; [apply postSafely_posts | | right; apply postSafely_never_throws | reflexivity].
  intros b.
  eapply yields_bind; [apply IH | intros; apply yields_ret | by left | by rewrite app_nil_r].
Qed.

#[local] Arguments WebhookService.broadcastUrls : simpl never.

Lemma sendSlackNotification_posts cfg env email :
  posts (if WebhookService.configured (Config.webhooks_slack cfg)
         then [default "" (Config.webhooks_slack cfg)] else [])
        (WebhookService.sendSlackNotification cfg env email).
Proof.
  unfold WebhookService.sendSlackNotification, WebhookService.configured.
  destruct (Config.webhooks_slack cfg) as [slackUrl|]; [|apply posts_console].
  destruct (truthy slackUrl); simpl; [|apply posts_console].
  apply yields_try_catch.
  - eapply yields_bind; [apply post_posts | intros; apply posts_console | by left | reflexivity].
  - intros e. eapply yields_bind;
      [apply posts_console | intros; apply yields_throw | by left | reflexivity].
Qed.

Lemma sendGenericWebhook_posts cfg env email :
  posts (if WebhookService.configured (Config.webhooks_generic cfg)
         then default "" (Config.webhooks_generic cfg)
                :: WebhookService.broadcastUrls cfg (default "" (Config.webhooks_generic cfg))
         else [])
        (WebhookService.sendGenericWebhook cfg env email).
Proof.
  unfold WebhookService.sendGenericWebhook, WebhookService.configured.
  destruct (Config.webhooks_generic cfg) as [genericUrl|]; [|apply posts_console].
  destruct (truthy genericUrl); simpl; [|apply posts_console].
  set (urls := WebhookService.broadcastUrls cfg genericUrl).
  eapply yields_bind with (l1 := []) (l2 := genericUrl :: urls);
    [apply yields_get_world | | right; apply total_get_world | reflexivity].
  intros w0. cbv zeta. fold urls.
  eapply yields_bind with (l1 := [genericUrl]) (l2 := urls);
    [apply postSafely_posts | | right; apply postSafely_never_throws | reflexivity].
  intros okPrimary.
  eapply yields_bind with (l1 := []) (l2 := urls); [| | right | reflexivity].
  - destruct okPrimary; [apply posts_console | apply yields_ret].
  - intros _. destruct (length urls =? 0)%nat eqn:Hlen.
    + apply Nat.eqb_eq, nil_length_inv in Hlen. rewrite Hlen. apply posts_console.
    + eapply yields_bind with (l1 := urls) (l2 := []);
        [apply broadcast_posts | intros; apply posts_console | by left |].
      by rewrite app_nil_r.
  - destruct okPrimary; total_tac.
Qed.

Lemma triggerInterestedWebhooks_posts cfg env email :
  posts (destinations cfg) (WebhookService.triggerInterestedWebhooks cfg env email).
Proof.
  unfold WebhookService.triggerInterestedWebhooks, destinations.
  eapply yields_bind with (l1 := []);
    [apply posts_console | | right; apply total_emit | reflexivity].
  intros _.
  eapply yields_bind; [| | right | reflexivity].
  - pose proof (sendSlackNotification_posts cfg env email) as Hp.
    destruct (WebhookService.configured (Config.webhooks_slack cfg)).
    + eapply yields_bind with (l2 := []);
        [apply yields_settle, Hp | intros; apply yields_ret | by left | by rewrite app_nil_r].
    + apply yields_ret.
  - intros slack.
    eapply yields_bind with (l2 := []); [| | by left | by rewrite app_nil_r].
    + pose proof (sendGenericWebhook_posts cfg env email) as Hp.
      destruct (WebhookService.configured (Config.webhooks_generic cfg)).
      * eapply yields_bind with (l2 := []);
          [apply yields_settle, Hp | intros; apply yields_ret | by left | by rewrite app_nil_r].
      * apply yields_ret.
    + intros generic. apply yields_try_catch.
      * eapply yields_bind;
          [apply yields_promise_all | intros; apply posts_console | by left | reflexivity].
      * intros e. apply posts_console.
  - destruct (WebhookService.configured (Config.webhooks_slack cfg)); total_tac.
Qed.

(** *** What the generic webhook sends and reports *)

Lemma spec_mapM_length {A B} (R : World -> World -> Prop) (f : A -> M B) (l : list A) :
  (forall w, R w w) -> (forall w1 w2 w3, R w1 w2 -> R w2 w3 -> R w1 w3) ->
  (forall x, preserves R (f x)) ->
  spec R (fun ys => length ys = length l) (mapM f l).
Proof.
  intros Hr Ht Hf. induction l as [|x l IH]; simpl.
  - by apply spec_ret.
  - eapply spec_bind; [exact Ht | apply Hf |]. intros y _.
    eapply spec_bind; [exact Ht | exact IH |]. intros ys Hys.
    apply spec_ret; [exact Hr | simpl; congruence].
Qed.

Lemma post_steps (Q : Event -> Prop) env url payload :
  (forall o, Q (HttpPost url payload o)) ->
  preserves (steps Q) (WebhookService.post env url payload).
Proof. intros HQ. unfold WebhookService.post. steps_tac. Qed.

Lemma postSafely_steps (Q : Event -> Prop) env url payload :
  (forall o, Q (HttpPost url payload o)) ->
  Q (Console (WarnRateLimited url)) -> Q (Console (ErrSendingWebhook url)) ->
  preserves (steps Q) (WebhookService.postSafely env url payload).
Proof.
  intros HQ H1 H2. unfold WebhookService.postSafely.
  pres_step; [pres_step; [by apply post_steps | steps_tac]|].
  steps_tac.
Qed.

Lemma set_add_length u s : length (WebhookService.set_add u s) <= S (length s).
Proof.
  unfold WebhookService.set_add. destruct (existsb _ s); [lia|].
  rewrite length_app. simpl. lia.
Qed.

Lemma set_add_keeps g u s : In g s -> In g (WebhookService.set_add u s).
Proof.
  unfold WebhookService.set_add. destruct (existsb _ s); [auto|].
  intros H. apply in_or_app. by left.
Qed.

Lemma fold_set_add l : forall s g,
  In g s ->
  In g (fold_left (fun s u => WebhookService.set_add u s) l s) /\
  length (fold_left (fun s u => WebhookService.set_add u s) l s) <= length s + length l.
Proof.
  induction l as [|u l IH]; simpl; intros s g Hg; [split; [exact Hg | lia]|].
  destruct (IH (WebhookService.set_add u s) g (set_add_keeps g u s Hg)) as [H1 H2].
  split; [exact H1|]. pose proof (set_add_length u s). lia.
Qed.

Lemma set_delete_length g s : In g s -> S (length (WebhookService.set_delete g s)) <= length s.
Proof.
  unfold WebhookService.set_delete. induction s as [|x s IH]; simpl; [tauto|].
  intros [->|Hin].
  - rewrite String.eqb_refl. simpl.
    pose proof (List.filter_length_le (fun x => negb (x =? g)%string) s). lia.
  - specialize (IH Hin). destruct (negb (x =? g)%string); simpl; lia.
Qed.

Lemma broadcastUrls_length cfg genericUrl :
  length (WebhookService.broadcastUrls cfg genericUrl) <= length (Config.webhooks_interestedUrls cfg).
Proof.
  unfold WebhookService.broadcastUrls.
  set (l := List.filter truthy (Config.webhooks_interestedUrls cfg)).
  assert (Hin : In genericUrl (WebhookService.set_add genericUrl [])) by (simpl; auto).
  destruct (fold_set_add l _ _ Hin) as [H1 H2].
  pose proof (set_delete_length _ _ H1) as H3.
  pose proof (List.filter_length_le truthy (Config.webhooks_interestedUrls cfg)) as H4.
  simpl in H2. fold l in H4. lia.
Qed.

Lemma sendGenericWebhook_steps cfg env email :
  preserves
    (steps (fun e => sends_basePayload cfg email e /\
                     broadcast_within (length (Config.webhooks_interestedUrls cfg)) e))
    (WebhookService.sendGenericWebhook cfg env email).
Proof.
  unfold WebhookService.sendGenericWebhook.
  destruct (Config.webhooks_generic cfg) as [genericUrl|]; [|steps_tac].
  destruct (negb (truthy genericUrl)); [steps_tac|].
  pres_step; [steps_tac|]. cbv zeta.
  assert (Hpost : forall u,
    preserves
      (steps (fun e => sends_basePayload cfg email e /\
                       broadcast_within (length (Config.webhooks_interestedUrls cfg)) e))
      (WebhookService.postSafely env u (WebhookService.basePayload cfg email (now env (clock a))))).
  { intros u. apply postSafely_steps; simpl; eauto. }
  pres_step; [apply Hpost|].
  pres_step; [steps_tac|].
  destruct (length (WebhookService.broadcastUrls cfg genericUrl) =? 0)%nat; [steps_tac|].
  eapply spec_bind; [apply steps_trans | |].
  - apply spec_mapM_length; [apply steps_refl | apply steps_trans | apply Hpost].
  - intros results Hlen. apply spec_emit_steps. simpl. split; [exact I|]. split.
    + rewrite <- Hlen. apply List.filter_length_le.
    + apply broadcastUrls_length.
Qed.

Lemma new_events_app w w' evs : trace w' = trace w ++ evs -> new_events w w' = evs.
Proof. intros H. unfold new_events. rewrite H. apply drop_app_length. Qed.

Lemma substring0_length n : forall s, String.length (substring0 n s) <= n.
Proof.
  unfold substring0. induction n as [|n IH]; intros [|a s]; simpl; try lia.
  specialize (IH s). lia.
Qed.

Lemma slice0_length {A} n (a : list A) : length (slice0 n a) <= n.
Proof. unfold slice0. rewrite length_take. lia. Qed.

#[local] Arguments slice0 : simpl never.
#[local] Arguments substring0 : simpl never.

Lemma basePayload_bounded cfg email timestamp :
  payload_bounded (WebhookService.basePayload cfg email timestamp).
Proof.
  exists (WebhookService.sanitizedEmail email). split; [reflexivity|].
  unfold WebhookService.sanitizedEmail.
  destruct (EmailDocument.cc email) as [cc|]; [destruct (0 <? length cc)%nat|]; simpl.
  all: split; [reflexivity|].
  all: split; [eexists; split; [reflexivity | apply substring0_length]|].
  all: split; [eexists; split; [reflexivity | rewrite length_fmap; apply slice0_length]|].
  all: intros v Hv; try discriminate Hv.
  inversion Hv; subst. eexists. split; [reflexivity|].
  rewrite length_fmap. apply slice0_length.
Qed.

(** C10: whatever the size of the email, every payload [sendGenericWebhook]
    posts, to the primary URL and to the broadcast URLs alike, carries a
    sanitized email without [htmlBody], whose [body] has at most 300
    characters and whose [to] and [cc] hold at most 5 addresses each. *)
Theorem generic_payload_bounded cfg env email w :
  Forall payload_bounded
    (payloads (new_events w (WebhookService.sendGenericWebhook cfg env email w).2)).
Proof.
  destruct (WebhookService.sendGenericWebhook cfg env email w) as [r w'] eqn:E.
  destruct (sendGenericWebhook_steps cfg env email _ _ _ E) as [[_ (evs & T & F)] _].
  simpl. rewrite (new_events_app _ _ _ T). clear T E.
  induction F as [|e evs [He _] _ IH]; [constructor|].
  unfold payloads in *. destruct e; simpl; try exact IH.
  constructor; [|exact IH]. destruct He as [timestamp ->]. apply basePayload_bounded.
Qed.

(** *** The fanout as a whole *)

Lemma sendSlackNotification_steps K cfg env email :
  preserves (steps (broadcast_within K)) (WebhookService.sendSlackNotification cfg env email).
Proof.
  unfold WebhookService.sendSlackNotification.
  repeat first [ steps_one | apply post_steps; intros; exact I ].
Qed.

Lemma triggerInterestedWebhooks_steps cfg env email :
  preserves (steps (broadcast_within (length (Config.webhooks_interestedUrls cfg))))
    (WebhookService.triggerInterestedWebhooks cfg env email).
Proof.
  unfold WebhookService.triggerInterestedWebhooks.
  repeat first
    [ steps_one
    | apply sendSlackNotification_steps
    | eapply preserves_mono; [|apply sendGenericWebhook_steps];
      intros ? ?; apply steps_mono; intros ? [_ ?]; assumption ].
Qed.

Lemma set_add_elem u s x : In x s \/ x = u -> In x (WebhookService.set_add u s).
Proof.
  unfold WebhookService.set_add. intros [Hin| ->].
  - destruct (existsb _ s); [exact Hin | apply in_or_app; by left].
  - destruct (existsb (String.eqb u) s) eqn:Hex.
    + apply existsb_exists in Hex as (y & Hy & Heq). apply String.eqb_eq in Heq. by subst y.
    + apply in_or_app. right. by left.
Qed.

Lemma fold_set_add_elem l : forall s x,
  In x l \/ In x s -> In x (fold_left (fun s u => WebhookService.set_add u s) l s).
Proof.
  induction l as [|u l IH]; simpl; intros s x H; [tauto|].
  apply IH. destruct H as [[->|Hin]|Hin]; [right | by left | right].
  - apply set_add_elem. by right.
  - apply set_add_elem. by left.
Qed.

(** Every non-empty interested URL other than the primary is broadcast to. *)
Lemma broadcastUrls_covers cfg genericUrl u :
  In u (Config.webhooks_interestedUrls cfg) -> truthy u = true -> u <> genericUrl ->
  In u (WebhookService.broadcastUrls cfg genericUrl).
Proof.
  intros Hin Ht Hne. unfold WebhookService.broadcastUrls, WebhookService.set_delete.
  apply filter_In. split.
  - apply fold_set_add_elem. left. apply filter_In. by split.
  - apply negb_true_iff, String.eqb_neq, Hne.
Qed.

Lemma destinations_cover cfg :
  (WebhookService.configured (Config.webhooks_slack cfg) = true ->
   default "" (Config.webhooks_slack cfg) ∈ destinations cfg) /\
  (WebhookService.configured (Config.webhooks_generic cfg) = true ->
   default "" (Config.webhooks_generic cfg) ∈ destinations cfg /\
   forall u, u ∈ Config.webhooks_interestedUrls cfg -> truthy u = true ->
             u ∈ destinations cfg).
Proof.
  unfold destinations. split.
  - intros ->. apply elem_of_app. left. by left.
  - intros ->. split; [apply elem_of_app; right; by left|].
    intros u Hin Ht. apply elem_of_app. right.
    destruct (decide (u = default "" (Config.webhooks_generic cfg))) as [->|Hne]; [by left|].
    right. apply list_elem_of_In, broadcastUrls_covers; [by apply list_elem_of_In | done | done].
Qed.

(** C8: for every configuration and every pattern of outcomes of the posts,
    the fanout returns normally; it posts to exactly the destinations the
    configuration gives, whatever the outcome of any post, so no failure or
    rate limit of one destination removes the attempt to another: the Slack
    URL when configured and, when the generic URL is configured, that URL
    and every non-empty interested URL; and a reported success count is at
    most the number of URLs of the broadcast, itself at most the number of
    configured interested URLs. *)
Theorem fanout_contains_failures cfg env email w :
  exists w' evs,
    WebhookService.triggerInterestedWebhooks cfg env email w = (Ok tt, w') /\
    trace w' = trace w ++ evs /\
    posted evs = destinations cfg /\
    (WebhookService.configured (Config.webhooks_slack cfg) = true ->
     default "" (Config.webhooks_slack cfg) ∈ posted evs) /\
    (WebhookService.configured (Config.webhooks_generic cfg) = true ->
     default "" (Config.webhooks_generic cfg) ∈ posted evs /\
     forall u, u ∈ Config.webhooks_interestedUrls cfg -> truthy u = true -> u ∈ posted evs) /\
    Forall (broadcast_within (length (Config.webhooks_interestedUrls cfg))) evs.
Proof.
  destruct (triggerInterestedWebhooks_run cfg env email w) as (w' & hooks & E & _ & _ & T & _).
  destruct (triggerInterestedWebhooks_posts cfg env email _ _ _ E) as (evs & T' & P).
  destruct (triggerInterestedWebhooks_steps cfg env email _ _ _ E) as [[_ (evs' & T'' & F)] _].
  exists w', evs. split; [exact E|]. split; [exact T'|]. fold (posted evs) in P.
  split; [exact P|]. rewrite P.
  destruct (destinations_cover cfg) as [Hs Hg].
  split; [exact Hs|]. split; [exact Hg|].
  rewrite T' in T''. apply app_inv_head in T''. by subst evs'.
Qed.

(** ** The ingestion pipeline *)

Lemma existsByMessageId_run env messageId w :
  ElasticsearchService.existsByMessageId env messageId w =
  if es_search env (clock w) messageId
  then (Ok (match head (ElasticsearchService.hits messageId (es_docs w)) with
            | Some _ => true
            | None => false
            end),
        set_trace (fun t => t ++ [EsSearch messageId true]) (set_clock S w))
  else (Ok false,
        set_trace (fun t => t ++ [Console ErrSearchingByMessageId])
          (set_trace (fun t => t ++ [EsSearch messageId false]) (set_clock S w))).
Proof.
  unfold ElasticsearchService.existsByMessageId, ElasticsearchService.findByMessageId. run.
  destruct (es_search env (clock w) messageId); reflexivity.
Qed.

Lemma indexEmail_run env email w :
  ElasticsearchService.indexEmail env email w =
  if es_index env (clock w) email
  then (Ok tt,
        set_es_docs <[EmailDocument.id email := email]>
          (set_trace (fun t => t ++ [EsIndex email true]) (set_clock S w)))
  else (Throw EsError,
        set_trace (fun t => t ++ [Console ErrIndexing])
          (set_trace (fun t => t ++ [EsIndex email false]) (set_clock S w))).
Proof.
  unfold ElasticsearchService.indexEmail. run.
  destruct (es_index env (clock w) email); reflexivity.
Qed.

Lemma updateEmailCategory_run env emailId category d w :
  es_docs w !! emailId = Some d ->
  ElasticsearchService.updateEmailCategory env emailId category w =
  if es_update env (clock w) emailId category
  then (Ok tt,
        set_es_docs <[emailId := EmailDocument.with_aiCategory category d]>
          (set_trace (fun t => t ++ [EsUpdate emailId category true]) (set_clock S w)))
  else (Throw EsError,
        set_trace (fun t => t ++ [Console ErrUpdatingCategory])
          (set_trace (fun t => t ++ [EsUpdate emailId category false]) (set_clock S w))).
Proof.
  intros Hd. unfold ElasticsearchService.updateEmailCategory. run.
  cbn [es_docs set_clock]. rewrite Hd.
  destruct (es_update env (clock w) emailId category); reflexivity.
Qed.

(** A record with the identifier is a hit of the term query. *)
Lemma hits_nonempty messageId (docs : gmap string EmailDocument.t) i d :
  docs !! i = Some d -> EmailDocument.messageId d = messageId ->
  exists hit, head (ElasticsearchService.hits messageId docs) = Some hit.
Proof.
  intros Hi Hm. unfold ElasticsearchService.hits.
  assert (Hin : In (i, d) (List.filter
            (fun hit => String.eqb (EmailDocument.messageId hit.2) messageId) (map_to_list docs))).
  { apply filter_In. split.
    - apply list_elem_of_In, elem_of_map_to_list, Hi.
    - simpl. rewrite Hm. apply String.eqb_refl. }
  destruct (List.filter _ (map_to_list docs)) as [|hit rest]; [destruct Hin|].
  exists hit. reflexivity.
Qed.

Lemma hits_sound messageId (docs : gmap string EmailDocument.t) hit :
  head (ElasticsearchService.hits messageId docs) = Some hit ->
  docs !! hit.1 = Some hit.2 /\ EmailDocument.messageId hit.2 = messageId.
Proof.
  unfold ElasticsearchService.hits. intros H.
  assert (Hin : In hit (List.filter
            (fun hit => String.eqb (EmailDocument.messageId hit.2) messageId) (map_to_list docs))).
  { destruct (List.filter _ (map_to_list docs)) as [|h rest]; [discriminate|].
    inversion H; subst. by left. }
  apply filter_In in Hin as [Hin Heq]. split.
  - apply elem_of_map_to_list. destruct hit. apply list_elem_of_In, Hin.
  - apply String.eqb_eq, Heq.
Qed.

Lemma processEmail_run cfg env parsed account folder w :
  exists w',
    IMAPService.processEmail cfg env parsed account folder w = (Ok tt, w') /\
    service_frame w w' /\
    pipeline_run env parsed account folder w w'.
Proof.
  unfold IMAPService.processEmail. fold (rawMessageId_of parsed).
  set (raw := rawMessageId_of parsed). cbv zeta.
  match goal with |- context [bind tick ?k] => set (rest := bind tick k) end.
  assert (Hrest : forall w1,
    let doc := IMAPService.emailDoc_of env parsed account folder raw
                 (uuidv4 env (clock w1)) (now env (clock w1)) in
    exists r w', rest w1 = (r, w') /\ service_frame w1 w' /\
      ( (r = Throw EsError /\ es_docs w' = es_docs w1 /\
         trace w' = trace w1 ++ [EsIndex doc false; Console ErrIndexing])
      \/ (exists ai c, r = Throw EsError /\ Forall is_ai_event ai /\
            c ∈ AIService.validCategories /\
            es_docs w' = <[EmailDocument.id doc := doc]> (es_docs w1) /\
            trace w' = trace w1 ++ [EsIndex doc true] ++ ai
                         ++ [EsUpdate (EmailDocument.id doc) c false; Console ErrUpdatingCategory])
      \/ (exists ai c fan, r = Ok tt /\ Forall is_ai_event ai /\
            c ∈ AIService.validCategories /\
            (ai = [] -> c = "Uncategorized") /\
            (forall p, AiGenerate p false ∈ ai -> c = "Uncategorized") /\
            es_docs w' = <[EmailDocument.id doc := EmailDocument.with_aiCategory c doc]> (es_docs w1) /\
            (c = "Interested" /\
               (exists hooks,
                  fan = Console (LogTriggeringWebhooks (EmailDocument.subject doc)) :: hooks /\
                  Forall is_webhook_event hooks)
             \/ c <> "Interested" /\ fan = []) /\
            trace w' = trace w1 ++ [EsIndex doc true] ++ ai
                         ++ [EsUpdate (EmailDocument.id doc) c true] ++ fan
                         ++ [Console (LogProcessed (EmailDocument.subject doc) c)]) )).
  { intros w1 doc. subst rest. unfold bind at 1, tick at 1. fold doc.
    unfold bind at 1. rewrite indexEmail_run. cbn [clock set_clock].
    change (uuidv4 env (clock w1)) with (EmailDocument.id doc).
    destruct (es_index env (S (clock w1)) doc) eqn:Hidx.
    2:{ eexists _, _. split; [reflexivity|]. split; [by repeat split|]. left.
        wsimpl. rewrite <- app_assoc. auto. }
    set (w2 := set_es_docs _ _).
    unfold bind at 1.
    destruct (categorizeEmail_run cfg env
                (AIService.mkInput (EmailDocument.subject doc) (EmailDocument.body doc)
                                   (EmailDocument.from doc)) w2)
      as (c & w3 & ai & Hrun & Hc & Hd3 & Hs3 & _ & Ht3 & Hai & Hdeg).
    rewrite Hrun. cbn [AIService.category].
    assert (Hunc1 : ai = [] -> c = "Uncategorized").
    { intros ->. destruct Hdeg as [?|(_ & ? & _)]; [done | discriminate]. }
    assert (Hunc2 : forall p, AiGenerate p false ∈ ai -> c = "Uncategorized").
    { intros p Hp. destruct Hdeg as [?|(_ & -> & _)]; [done|].
      apply list_elem_of_singleton in Hp. discriminate. }
    assert (Hlook : es_docs w3 !! EmailDocument.id doc = Some doc).
    { rewrite Hd3. subst w2. wsimpl. apply lookup_insert_eq. }
    unfold bind at 1. rewrite (updateEmailCategory_run _ _ _ _ _ Hlook).
    destruct (es_update env (clock w3) (EmailDocument.id doc) c) eqn:Hupd.
    2:{ eexists _, _. split; [reflexivity|].
        split; [destruct Hs3 as (? & ? & ?); by repeat split|]. right. left.
        exists ai, c. split; [reflexivity|]. split; [exact Hai|]. split; [exact Hc|].
        wsimpl. rewrite Hd3, Ht3. subst w2. wsimpl.
        split; [reflexivity|]. by rewrite <- !app_assoc. }
    set (w4 := set_es_docs _ _).
    assert (Hd4 : es_docs w4 =
              <[EmailDocument.id doc := EmailDocument.with_aiCategory c doc]> (es_docs w1)).
    { subst w4. wsimpl. rewrite Hd3. subst w2. wsimpl. apply insert_insert_eq. }
    assert (Ht4 : trace w4 = trace w1 ++ [EsIndex doc true] ++ ai
                               ++ [EsUpdate (EmailDocument.id doc) c true]).
    { subst w4. wsimpl. rewrite Ht3. subst w2. wsimpl. by rewrite <- !app_assoc. }
    assert (Hs4 : service_frame w1 w4).
    { destruct Hs3 as (? & ? & ?). subst w4 w2. wsimpl. by repeat split. }
    clearbody w4. clear Hlook Hupd Hrun Hd3 Ht3 Hs3 w2 w3 Hdeg Hidx.
    destruct (c =? "Interested")%string eqn:Hint.
    - apply String.eqb_eq in Hint.
      unfold bind at 1.
      destruct (triggerInterestedWebhooks_run cfg env (EmailDocument.with_aiCategory c doc) w4)
        as (w5 & hooks & Hrun5 & Hd5 & Hs5 & Ht5 & Hh).
      rewrite Hrun5.
      eexists _, _. split; [reflexivity|].
      split; [wsimpl; eapply service_frame_trans; eassumption|]. right. right.
      exists ai, c, (Console (LogTriggeringWebhooks (EmailDocument.subject doc)) :: hooks).
      split; [reflexivity|]. split; [exact Hai|]. split; [exact Hc|].
      split; [exact Hunc1|]. split; [exact Hunc2|].
      wsimpl. split; [by rewrite Hd5|]. split; [left; eauto|].
      rewrite Ht5, Ht4. cbn [EmailDocument.subject EmailDocument.with_aiCategory].
      by rewrite <- !app_assoc.
    - apply String.eqb_neq in Hint.
      eexists _, _. split; [reflexivity|]. split; [exact Hs4|]. right. right.
      exists ai, c, []. split; [reflexivity|]. split; [exact Hai|]. split; [exact Hc|].
      split; [exact Hunc1|]. split; [exact Hunc2|].
      wsimpl. split; [exact Hd4|]. split; [by right|].
      rewrite Ht4. cbn [EmailDocument.subject EmailDocument.with_aiCategory].
      by rewrite <- !app_assoc. }
  clearbody rest.
  assert (Houter : forall w1 pre,
    service_frame w w1 -> es_docs w1 = es_docs w -> trace w1 = trace w ++ pre ->
    Forall is_search_event pre ->
    exists w', try_catch rest (fun _ => console ErrProcessingEmail) w1 = (Ok tt, w') /\
      service_frame w w' /\ pipeline_run env parsed account folder w w').
  { intros w1 pre Hs1 Hd1 Ht1 Hpre.
    destruct (Hrest w1) as (r & w' & Hrun & Hs & Hcases). unfold try_catch. rewrite Hrun.
    destruct Hcases as [(-> & Hd & Ht)|[(ai & c & -> & Hai & Hc & Hd & Ht)
                                       |(ai & c & fan & -> & Hai & Hc & Hu1 & Hu2 & Hd & Hfan & Ht)]].
    - eexists. split; [reflexivity|].
      split; [wsimpl; eapply service_frame_trans; eassumption|].
      apply (run_insert_failed _ _ _ _ _ _ pre (clock w1)); [exact Hpre | |].
      + wsimpl. by rewrite Hd, Hd1.
      + wsimpl. rewrite Ht, Ht1. by rewrite <- !app_assoc.
    - eexists. split; [reflexivity|].
      split; [wsimpl; eapply service_frame_trans; eassumption|].
      apply (run_update_failed _ _ _ _ _ _ pre ai (clock w1) c); [exact Hpre | exact Hai | exact Hc | |].
      + wsimpl. by rewrite Hd, Hd1.
      + wsimpl. rewrite Ht, Ht1. by rewrite <- !app_assoc.
    - eexists. split; [reflexivity|].
      split; [eapply service_frame_trans; eassumption|].
      apply (run_completed _ _ _ _ _ _ pre ai fan (clock w1) c);
        [exact Hpre | exact Hai | exact Hc | exact Hu1 | exact Hu2 | | exact Hfan |].
      + by rewrite Hd, Hd1.
      + rewrite Ht, Ht1. by rewrite <- !app_assoc. }
  clear Hrest. unfold try_catch at 1, bind at 1.
  destruct (truthy raw) eqn:Hraw.
  - rewrite existsByMessageId_run.
    destruct (es_search env (clock w) raw) eqn:Hsearch.
    + destruct (head (ElasticsearchService.hits raw (es_docs w))) as [hit|] eqn:Hhit.
      * eexists. split; [reflexivity|]. split; [by repeat split|].
        apply (run_duplicate _ _ _ _ _ _ hit); try assumption; wsimpl; [reflexivity|].
        by rewrite <- app_assoc.
      * apply (Houter _ [EsSearch raw true]); [by repeat split | reflexivity | reflexivity|].
        by repeat constructor.
    + apply (Houter _ [EsSearch raw false; Console ErrSearchingByMessageId]);
        [by repeat split | reflexivity | wsimpl; by rewrite <- app_assoc|].
      by repeat constructor.
  - apply (Houter w []); [apply service_frame_refl | reflexivity | by rewrite app_nil_r|].
    constructor.
Qed.

(** C1 (as stated) fails when the lookup itself fails: [findByMessageId]
    answers [null] for a search that throws, so a message whose identifier
    is already in the index is inserted, classified and notified again. *)
Lemma duplicate_ingested_when_search_fails :
  let w' := (IMAPService.processEmail example_config example_env_search_down example_parsed
               example_account "INBOX" example_world).2 in
  let evs := new_events example_world w' in
  truthy (rawMessageId_of example_parsed) = true /\
  es_docs example_world !! "doc-1" = Some example_record /\
  EmailDocument.messageId example_record = rawMessageId_of example_parsed /\
  length (inserted evs) = 1 /\
  length (classified evs) = 1 /\
  length (posted evs) = 3 /\
  length (ElasticsearchService.hits (rawMessageId_of example_parsed) (es_docs w')) = 2.
Proof. vm_compute. repeat split. Qed.

(** C1 (amended): for every message whose identifier is non-empty after
    trimming, if a record with that [messageId] is in the index and the
    lookup completes, [processEmail] returns with the index unchanged and
    with the search and the duplicate notice as its only events: no insert,
    no call of the model, no webhook. *)
Theorem duplicate_skipped cfg env parsed account folder w i d :
  truthy (rawMessageId_of parsed) = true ->
  es_docs w !! i = Some d ->
  EmailDocument.messageId d = rawMessageId_of parsed ->
  es_search env (clock w) (rawMessageId_of parsed) = true ->
  exists w',
    IMAPService.processEmail cfg env parsed account folder w = (Ok tt, w') /\
    es_docs w' = es_docs w /\
    new_events w w' = [ EsSearch (rawMessageId_of parsed) true;
                        Console (LogDuplicateSkipped (rawMessageId_of parsed)) ].
Proof.
  intros Hraw Hi Hd Hsearch.
  destruct (hits_nonempty _ _ _ _ Hi Hd) as [hit Hhit].
  unfold IMAPService.processEmail. fold (rawMessageId_of parsed). cbv zeta.
  unfold try_catch at 1, bind at 1.
  rewrite Hraw, existsByMessageId_run, Hsearch, Hhit.
  eexists. split; [reflexivity|]. split; [reflexivity|].
  apply new_events_app. wsimpl. by rewrite <- app_assoc.
Qed.

Lemma duplicate_skipped_witness :
  exists w',
    IMAPService.processEmail example_config example_env example_parsed example_account "INBOX"
      example_world = (Ok tt, w') /\
    es_docs w' = es_docs example_world /\
    new_events example_world w'
      = [ EsSearch (rawMessageId_of example_parsed) true;
          Console (LogDuplicateSkipped (rawMessageId_of example_parsed)) ].
Proof.
  apply (duplicate_skipped example_config example_env example_parsed example_account "INBOX"
           example_world "doc-1" example_record); reflexivity.
Defined.

(** *** Reading a trace *)

Lemma omap_Forall_None {A B} (f : A -> option B) (Q : A -> Prop) (l : list A) :
  (forall e, Q e -> f e = None) -> Forall Q l -> omap f l = [].
Proof.
  intros Hf H. induction H as [|e l He _ IH]; [reflexivity|].
  simpl. rewrite (Hf e He). exact IH.
Qed.

(** Proves that events of one kind project to nothing. *)
Ltac none_tac :=
  let e := fresh "e" in
  let He := fresh "He" in
  intros e He; destruct e as [| [] [] | | | | | | | | | []]; simpl in *; done.

(** Splits a membership in a concatenation into its cases, and closes the
    cases that contradict what is known of the sublist. *)
Ltac in_cases H :=
  repeat first
    [ apply elem_of_app in H as [H|H]
    | apply elem_of_cons in H as [H|H]
    | apply elem_of_nil in H; destruct H ];
  try discriminate H;
  try (match goal with
       | HF : Forall _ ?l |- _ =>
           match type of H with _ ∈ l => eapply Forall_forall in HF; [|exact H]; destruct HF end
       end).

(** Computes a projection of a trace made of known events and of lists of
    events of a known kind. *)
Ltac proj_simpl :=
  unfold triggered, posted, inserted, classified, handled, fetched, payloads;
  rewrite ?omap_app;
  cbn [omap list_omap app];
  repeat match goal with
  | H : Forall ?Q ?l |- context [omap ?f ?l] =>
      rewrite (omap_Forall_None f Q l) by first [exact H | none_tac]
  end;
  cbn [omap list_omap app].







(** ** The message normalizer *)

Lemma or_default_empty (o : option string) : or_default o "" = default "" o.
Proof.
  destruct o as [s|]; [|reflexivity]. simpl. unfold truthy.
  destruct (String.eqb_spec s ""); simpl; congruence.
Qed.

Lemma getAddresses_map field :
  IMAPService.getAddresses field
  = (fun v => default "" (ParsedMail.address v)) <$> mailboxes field.
Proof.
  assert (Hone : forall o, IMAPService.addresses_of o
            = (fun v => default "" (ParsedMail.address v)) <$> default [] (ParsedMail.value o)).
  { intros [[value|]]; simpl; [|reflexivity].
    apply list_fmap_ext. intros _ v _. apply or_default_empty. }
  destruct field as [|o|items]; simpl; [reflexivity | apply Hone |].
  induction items as [|o items IH]; simpl; [reflexivity|].
  by rewrite fmap_app, Hone, IH.
Qed.

(** C9 (as stated) fails: an entry without an address is not dropped, it
    is kept as an empty string. *)
Lemma getAddresses_keeps_empty_entry :
  IMAPService.getAddresses example_recipients = [""; "ann@example.com"] /\
  "" ∈ IMAPService.getAddresses example_recipients.
Proof. split; [reflexivity | by left]. Qed.

(** C9 (amended): for every parsed address header, [getAddresses] returns
    (it cannot raise) one plain string per mailbox of the header, in order:
    the address of the mailbox, never its display name, and the empty
    string for a mailbox that has no address; a header that is absent or
    whose value is not a list contributes nothing. *)
Theorem getAddresses_flattens field :
  length (IMAPService.getAddresses field) = length (mailboxes field) /\
  (forall i v, mailboxes field !! i = Some v ->
     IMAPService.getAddresses field !! i = Some (default "" (ParsedMail.address v))) /\
  (forall a, a ∈ IMAPService.getAddresses field ->
     a = "" \/ exists v, v ∈ mailboxes field /\ ParsedMail.address v = Some a).
Proof.
  rewrite getAddresses_map. split; [apply length_fmap|]. split.
  - intros i v Hv. by rewrite list_lookup_fmap, Hv.
  - intros a Ha. apply list_elem_of_fmap in Ha as (v & -> & Hv).
    destruct (ParsedMail.address v) as [a|] eqn:Hadr; simpl; [right; eauto | by left].
Qed.

(** ** The reconnection scheduler *)

Lemma backoff_delay_mono base cap k :
  (0 <= base)%Z -> (backoff_delay base cap k <= backoff_delay base cap (S k))%Z.
Proof.
  intros Hb. unfold backoff_delay.
  assert (H2 : (2 ^ Z.of_nat k <= 2 ^ Z.of_nat (S k))%Z)
    by (apply Z.pow_le_mono_r; lia).
  assert (Hm : (base * 2 ^ Z.of_nat k <= base * 2 ^ Z.of_nat (S k))%Z)
    by (apply Z.mul_le_mono_nonneg_l; assumption).
  lia.
Qed.

(** ** Frames of the pipeline and of a batch *)

Lemma existsByMessageId_steps env messageId :
  preserves (steps is_pipeline_event) (ElasticsearchService.existsByMessageId env messageId).
Proof. eapply preserves_mono; [apply frame_steps | apply existsByMessageId_frame]. Qed.

Lemma triggerInterestedWebhooks_pipeline cfg env email :
  preserves (steps is_pipeline_event) (WebhookService.triggerInterestedWebhooks cfg env email).
Proof.
  intros w r w' H.
  destruct (triggerInterestedWebhooks_run cfg env email w) as (w1 & hooks & E & _ & Hs & T & F).
  rewrite E in H. inversion H; subst. split; [|exact I]. split; [exact Hs|].
  eexists. split; [exact T|]. constructor; [exact I|].
  eapply Forall_impl; [exact F | apply webhook_event_pipeline].
Qed.
#[local] Hint Resolve existsByMessageId_steps triggerInterestedWebhooks_pipeline : steps.

Lemma processEmail_steps cfg env parsed account folder :
  preserves (steps is_pipeline_event) (IMAPService.processEmail cfg env parsed account folder).
Proof. unfold IMAPService.processEmail. steps_tac. Qed.

Lemma pipeline_event_batch seqNos e : is_pipeline_event e -> is_batch_event seqNos e.
Proof. destruct e; simpl; tauto. Qed.

Lemma processEmail_batch seqNos cfg env parsed account folder :
  preserves (steps (is_batch_event seqNos))
    (IMAPService.processEmail cfg env parsed account folder).
Proof.
  eapply preserves_mono; [|apply processEmail_steps].
  intros w w'. apply steps_mono, pipeline_event_batch.
Qed.
#[local] Hint Resolve processEmail_batch : steps.

Lemma onMessage_steps seqNos cfg env account folder seqno :
  seqno ∈ seqNos ->
  preserves (steps (is_batch_event seqNos)) (IMAPService.onMessage cfg env account folder seqno).
Proof. intros Hin. unfold IMAPService.onMessage. steps_tac. Qed.

Lemma fetchEmailsBySeqNo_steps cfg env account seqNos folder :
  preserves (steps (is_batch_event seqNos))
    (IMAPService.fetchEmailsBySeqNo cfg env account seqNos folder).
Proof.
  unfold IMAPService.fetchEmailsBySeqNo.
  pres_step; [steps_tac|]. pres_step; [steps_tac|].
  destruct (negb (imap_fetch env a seqNos)); [steps_tac|].
  pres_step; [|steps_tac].
  apply spec_mapM; try rel_side. intros seqno Hin. apply preserves_settle.
  by apply onMessage_steps.
Qed.

Lemma performInitialSync_steps cfg env account :
  preserves (steps (fun _ => True)) (IMAPService.performInitialSync cfg env account).
Proof.
  unfold IMAPService.performInitialSync.
  repeat first
    [ steps_one
    | eapply preserves_mono; [|apply fetchEmailsBySeqNo_steps];
      intros ? ?; apply steps_mono; intros ? _; exact I ].
Qed.

Lemma startIdleMode_steps account :
  preserves (steps (fun _ => True)) (IMAPService.startIdleMode account).
Proof. unfold IMAPService.startIdleMode. steps_tac. Qed.
#[local] Hint Resolve performInitialSync_steps startIdleMode_steps : steps.

(** C3: [scheduleReconnect] for an account at attempt count [k] below the
    configured maximum arms one timer with the delay
    [min (reconnectDelay * 2^k) 60000] and counts the attempt; at or above
    the maximum it arms no timer and leaves the counter; for a non-negative
    configured delay, the delay is non-decreasing in [k]; and the [ready]
    handler of a successful connection leaves the counter of the account
    at 0. *)
Theorem reconnect_backoff cfg env account w :
  let id := EmailAccount.id account in
  let k := default 0%nat (reconnectAttempts w !! id) in
  let base := Config.imap_reconnectDelay cfg in
  (exists w',
     IMAPService.scheduleReconnect cfg account w = (Ok tt, w') /\
     if (Z.of_nat k <? Config.imap_maxReconnectAttempts cfg)%Z
     then timers w' = timers w ++ [(backoff_delay base 60000 k, account)] /\
          reconnectAttempts w' = <[id := S k]> (reconnectAttempts w)
     else timers w' = timers w /\ reconnectAttempts w' = reconnectAttempts w) /\
  ((0 <= base)%Z ->
   forall j, (backoff_delay base 60000 j <= backoff_delay base 60000 (S j))%Z) /\
  (exists w',
     IMAPService.onReady cfg env account w = (Ok tt, w') /\
     reconnectAttempts w' = <[id := 0%nat]> (reconnectAttempts w)).
Proof.
  intros id k base. split; [|split].
  - unfold IMAPService.scheduleReconnect. run. fold id k base.
    destruct (Z.ltb_spec (Z.of_nat k) (Config.imap_maxReconnectAttempts cfg)) as [Hlt|Hge].
    + apply Z.leb_gt in Hlt. rewrite Hlt. eexists. split; [reflexivity|].
      wsimpl. by rewrite Nat.add_1_r.
    + apply Z.leb_le in Hge. rewrite Hge. eexists. split; [reflexivity|]. done.
  - intros Hbase j. by apply backoff_delay_mono.
  - unfold IMAPService.onReady, console. rewrite bind_emit.
    unfold bind at 1, get_world. unfold bind at 1, modify at 1. unfold bind at 1, modify at 1.
    match goal with |- context [try_catch ?m ?h ?w0] =>
      assert (Hf : preserves (steps (fun _ => True)) (try_catch m h)) by steps_tac;
      assert (Ht : total (try_catch m h)) by total_tac;
      destruct (Ht w0) as ([] & w' & E);
      destruct (Hf _ _ _ E) as [[(Ha & _) _] _]
    end.
    exists w'. split; [exact E|]. rewrite Ha. reflexivity.
Qed.

Lemma reconnect_backoff_witness :
  (exists w',
     IMAPService.scheduleReconnect example_config example_account empty_world = (Ok tt, w') /\
     timers w' = [(5000%Z, example_account)] /\
     reconnectAttempts w' = <["account-1" := 1%nat]> ∅) /\
  (backoff_delay 5000 60000 3 <= backoff_delay 5000 60000 4)%Z.
Proof.
  destruct (reconnect_backoff example_config example_env example_account empty_world)
    as (Hs & Hm & _).
  split; [exact Hs | apply (Hm ltac:(simpl; lia) 3%nat)].
Defined.

(** ** Batches of fetched messages *)

Lemma processEmail_within (Q : Event -> Prop) cfg env parsed account folder :
  (forall e, is_pipeline_event e -> Q e) ->
  preserves (steps Q) (IMAPService.processEmail cfg env parsed account folder).
Proof.
  intros HQ. eapply preserves_mono; [|apply processEmail_steps].
  intros w w'. by apply steps_mono.
Qed.

Lemma onMessage_within (Q : Event -> Prop) cfg env account folder seqno :
  Q (ImapMessage seqno) -> (forall e, is_pipeline_event e -> Q e) ->
  preserves (steps Q) (IMAPService.onMessage cfg env account folder seqno).
Proof.
  intros Hs HQ. unfold IMAPService.onMessage.
  pres_step; [by apply spec_emit_steps|].
  pres_step.
  - destruct (simpleParser env (imap_source env seqno)); [by apply processEmail_within | steps_tac].
  - unfold console. pres_step; [apply spec_emit_steps, HQ; exact I | steps_tac].
Qed.

Lemma onMessage_handled cfg env account folder seqno :
  yields seqno_of [seqno] (IMAPService.onMessage cfg env account folder seqno).
Proof.
  unfold IMAPService.onMessage.
  eapply yields_bind; [apply yields_emit | | by left | reflexivity]. intros _.
  apply (steps_yields_nil _ is_pipeline_event); [none_tac|].
  pres_step.
  - destruct (simpleParser env (imap_source env seqno)); [apply processEmail_steps | steps_tac].
  - steps_tac.
Qed.

Lemma onMessage_fetches_nothing cfg env account folder seqno :
  yields fetch_of [] (IMAPService.onMessage cfg env account folder seqno).
Proof.
  apply (steps_yields_nil _ (fun e => fetch_of e = None)); [auto|].
  apply onMessage_within; [reflexivity | none_tac].
Qed.

Lemma yields_mapM_settle {A B C} (f : Event -> option B) (g : A -> list B) (h : A -> M C)
  (l : list A) :
  (forall x, yields f (g x) (h x)) ->
  yields f (flat_map g l) (mapM (fun x => settle (h x)) l).
Proof.
  intros Hh. induction l as [|x l IH]; simpl; [apply yields_ret|].
  eapply yields_bind; [apply yields_settle, Hh | | right; apply total_settle | reflexivity].
  intros y. eapply yields_bind; [exact IH | intros; apply yields_ret | by left |].
  by rewrite app_nil_r.
Qed.

Lemma flat_map_singleton {A} (l : list A) : flat_map (fun x => [x]) l = l.
Proof. induction l as [|x l IH]; simpl; congruence. Qed.

Lemma flat_map_nil {A B} (l : list A) : flat_map (fun _ => @nil B) l = [].
Proof. induction l as [|x l IH]; simpl; congruence. Qed.

Lemma onMessage_parse_error cfg env account folder seqno w :
  simpleParser env (imap_source env seqno) = None ->
  IMAPService.onMessage cfg env account folder seqno w =
  (Throw ParseError,
   set_trace (fun t => t ++ [ImapMessage seqno; Console ErrProcessingMessage]) w).
Proof.
  intros Hparse. unfold IMAPService.onMessage. rewrite Hparse. run.
  f_equal. destruct w. unfold set_trace. simpl. by rewrite <- app_assoc.
Qed.

Lemma outcomes_length evs : length (outcomes evs) = length (omap outcome_mark evs).
Proof.
  unfold outcomes. induction evs as [|e evs IH]; [reflexivity|].
  simpl. unfold outcome_mark at 1. destruct (outcome_of e); simpl; [f_equal|]; exact IH.
Qed.

(** A run of the pipeline ends in exactly one way. *)
Lemma processEmail_one_outcome cfg env parsed account folder :
  yields outcome_mark [tt] (IMAPService.processEmail cfg env parsed account folder).
Proof.
  intros w r w' H.
  destruct (processEmail_run cfg env parsed account folder w) as (w1 & Hrun & _ & Hpr).
  rewrite Hrun in H. inversion H; subst.
  destruct Hpr as [hit Hraw Hs Hh Hd Ht | pre t Hpre doc Hd Ht | pre ai t c Hpre Hai Hc doc Hd Ht
                  | pre ai fan t c Hpre Hai Hc Hu1 Hu2 doc Hd Hfan Ht].
  - eexists. split; [exact Ht | reflexivity].
  - eexists. split; [exact Ht|]. by proj_simpl.
  - eexists. split; [exact Ht|]. by proj_simpl.
  - eexists. split; [exact Ht|].
    destruct Hfan as [(-> & hooks & -> & Hhooks)|(Hne & ->)]; by proj_simpl.
Qed.

Lemma onMessage_one_outcome cfg env account folder seqno :
  yields outcome_mark [tt] (IMAPService.onMessage cfg env account folder seqno).
Proof.
  intros w r w' H.
  destruct (simpleParser env (imap_source env seqno)) as [parsed|] eqn:Hparse.
  - unfold IMAPService.onMessage in H. rewrite Hparse, bind_emit in H.
    unfold try_catch in H.
    match type of H with context [IMAPService.processEmail _ _ _ _ _ ?w0] =>
      destruct (processEmail_run cfg env parsed account folder w0) as (w1 & Hrun & _);
      destruct (processEmail_one_outcome cfg env parsed account folder _ _ _ Hrun)
        as (evs & T & Hm)
    end.
    rewrite Hrun in H. inversion H; subst.
    exists (ImapMessage seqno :: evs). split; [|exact Hm].
    rewrite T. wsimpl. by rewrite <- app_assoc.
  - rewrite (onMessage_parse_error _ _ _ _ _ _ Hparse) in H. inversion H; subst.
    eexists. split; reflexivity.
Qed.

(** A fetch requests its sequence numbers once and, when the server answers
    it, runs the message handler on each of them, in order, and each
    handling ends in one outcome. *)
Lemma fetchEmailsBySeqNo_reads cfg env account seqNos folder w r w' :
  IMAPService.fetchEmailsBySeqNo cfg env account seqNos folder w = (r, w') ->
  exists evs, trace w' = trace w ++ evs /\
    fetched evs = [seqNos] /\
    handled evs = (if imap_fetch env (clock w) seqNos then seqNos else []) /\
    length (outcomes evs) = (if imap_fetch env (clock w) seqNos then length seqNos else 0).
Proof.
  unfold IMAPService.fetchEmailsBySeqNo. unfold bind at 1, tick. rewrite bind_emit.
  set (w0 := set_trace _ _).
  destruct (imap_fetch env (clock w) seqNos); cbn [negb].
  - match goal with |- ?m w0 = _ -> _ =>
      assert (Hh : yields seqno_of seqNos m);
      [| assert (Hf : yields fetch_of [] m);
         [| assert (Ho : yields outcome_mark (flat_map (fun _ => [tt]) seqNos) m) ] ]
    end.
    + eapply yields_bind with (l2 := []); [| | by left | by rewrite app_nil_r].
      * rewrite <- (flat_map_singleton seqNos) at 1.
        apply (yields_mapM_settle seqno_of (fun s => [s])). intros s. apply onMessage_handled.
      * intros ps. apply yields_try_catch; [apply yields_promise_all | intros; apply yields_throw].
    + eapply yields_bind with (l2 := []); [| | by left | by rewrite app_nil_r].
      * rewrite <- (flat_map_nil seqNos).
        apply (yields_mapM_settle fetch_of (fun _ => [])). intros s.
        apply onMessage_fetches_nothing.
      * intros ps. apply yields_try_catch; [apply yields_promise_all | intros; apply yields_throw].
    + eapply yields_bind with (l2 := []); [| | by left | by rewrite app_nil_r].
      * apply (yields_mapM_settle outcome_mark (fun _ => [tt])). intros s.
        apply onMessage_one_outcome.
      * intros ps. apply yields_try_catch; [apply yields_promise_all | intros; apply yields_throw].
    + intros E. destruct (Hh _ _ _ E) as (evs & T & H1). destruct (Hf _ _ _ E) as (evs' & T' & H2).
      destruct (Ho _ _ _ E) as (evs'' & T'' & H3).
      rewrite T in T', T''. apply app_inv_head in T', T''. subst evs' evs''.
      exists (ImapFetch seqNos :: evs). subst w0. wsimpl.
      split; [by rewrite T, <- app_assoc|]. unfold fetched, handled. split; [|split].
      * change (seqNos :: omap fetch_of evs = [seqNos]). by rewrite H2.
      * exact H1.
      * rewrite outcomes_length.
        change (length (omap outcome_mark evs) = length seqNos). rewrite H3.
        clear. induction seqNos as [|s l IH]; simpl; congruence.
  - run. intros E. inversion E; subst. subst w0. wsimpl.
    exists [ImapFetch seqNos; Console ErrFetch]. split; [by rewrite <- app_assoc | done].
Qed.

(** ** Live mode *)

(** C7 (as stated) fails: of the twelve unseen messages the re-query
    finds, the [mail] handler runs the pipeline on the last one only. *)
Lemma mail_skips_earlier_unseen :
  let w' := (IMAPService.onMail example_config example_env example_account 2 empty_world).2 in
  imap_search example_env (clock empty_world) true
    = Some [1; 2; 3; 4; 5; 6; 7; 8; 9; 10; 11; 12]%Z /\
  handled (new_events empty_world w') = [12%Z].
Proof. vm_compute. split; reflexivity. Qed.

(** C7 (amended): in live mode, for every new-message notification the
    handler re-queries the folder for unseen messages and, when the query
    finds some, fetches only the latest of them (the last of the results)
    and runs the pipeline on that one message, when the server answers the
    fetch. *)
Theorem mail_fetches_latest_only cfg env account numNewMsgs w results latest :
  imap_search env (clock w) true = Some results ->
  last results = Some latest ->
  let w' := (IMAPService.onMail cfg env account numNewMsgs w).2 in
  let evs := new_events w w' in
  fetched evs = [[latest]] /\
  handled evs = (if imap_fetch env (S (clock w)) [latest] then [latest] else []).
Proof.
  intros Hsearch Hlast.
  destruct (IMAPService.onMail cfg env account numNewMsgs w) as [r w'] eqn:E.
  cbn [snd]. cbv zeta.
  unfold IMAPService.onMail, console in E. rewrite bind_emit in E.
  unfold bind at 1, tick in E. cbn [clock set_trace set_clock] in E.
  rewrite Hsearch, bind_emit, Hlast in E.
  destruct (fetchEmailsBySeqNo_reads _ _ _ _ _ _ _ _ E) as (evs & T & Hf & Hh & _).
  wsimpl.
  rewrite (new_events_app w w' ([Console (LogNewMail numNewMsgs); ImapSearch true true] ++ evs)).
  2:{ rewrite T. by rewrite <- !app_assoc. }
  unfold fetched, handled in *. rewrite !omap_app. by rewrite Hf, Hh.
Qed.

Lemma mail_fetches_latest_only_witness :
  let w' := (IMAPService.onMail example_config example_env example_account 2 empty_world).2 in
  fetched (new_events empty_world w') = [[12%Z]] /\
  handled (new_events empty_world w') = [12%Z].
Proof.
  apply (mail_fetches_latest_only example_config example_env example_account 2 empty_world
           [1; 2; 3; 4; 5; 6; 7; 8; 9; 10; 11; 12]%Z 12%Z); reflexivity.
Defined.

(** ** Initial sync *)

Lemma sync_rel_refl w : sync_rel w w.
Proof.
  exists []. split; [by rewrite app_nil_r|]. split; [|auto].
  intros doc Hin. by apply elem_of_nil in Hin.
Qed.

Lemma sync_rel_trans w1 w2 w3 : sync_rel w1 w2 -> sync_rel w2 w3 -> sync_rel w1 w3.
Proof.
  intros (e1 & T1 & A1 & B1) (e2 & T2 & A2 & B2).
  exists (e1 ++ e2). split; [by rewrite T2, T1, app_assoc|]. split; [|auto].
  intros doc Hin. unfold inserted in Hin. rewrite omap_app in Hin.
  apply elem_of_app in Hin as [Hin|Hin]; [apply B2, A1, Hin | apply A2, Hin].
Qed.

Ltac rel_side ::=
  first [ exact (steps_refl _) | exact (steps_trans _)
        | exact (frame_refl _) | exact (frame_trans _)
        | exact sync_rel_refl | exact sync_rel_trans ].

Lemma sync_rel_quiet w w' evs :
  es_docs w' = es_docs w -> trace w' = trace w ++ evs -> inserted evs = [] -> sync_rel w w'.
Proof.
  intros Hd Ht Hi. exists evs. split; [exact Ht|]. rewrite Hi. split.
  - intros doc Hin. by apply elem_of_nil in Hin.
  - intros emailId (d & Hl & Hc). exists d. by rewrite Hd.
Qed.

Lemma sync_rel_insert w w' evs doc d :
  es_docs w' = <[EmailDocument.id doc := d]> (es_docs w) ->
  EmailDocument.aiCategory d ∈ AIService.validCategories ->
  trace w' = trace w ++ evs -> inserted evs = [doc] -> sync_rel w w'.
Proof.
  intros Hd Hc Ht Hi. exists evs. split; [exact Ht|]. rewrite Hi. split.
  - intros doc' Hin. apply list_elem_of_singleton in Hin. subst doc'.
    exists d. by rewrite Hd, lookup_insert_eq.
  - intros emailId (d' & Hl & Hc'). unfold categorized. rewrite Hd.
    destruct (decide (EmailDocument.id doc = emailId)) as [<-|Hne].
    + exists d. by rewrite lookup_insert_eq.
    + exists d'. by rewrite lookup_insert_ne.
Qed.

Lemma spec_emit_sync e : insert_of e = None -> preserves sync_rel (emit e).
Proof.
  intros He w r w' H. inversion H; subst. split; [|exact I].
  apply (sync_rel_quiet _ _ [e]); [reflexivity | reflexivity|].
  unfold inserted. simpl. by rewrite He.
Qed.

Lemma spec_tick_sync : preserves sync_rel tick.
Proof.
  intros w r w' H. inversion H; subst. split; [|exact I].
  apply (sync_rel_quiet _ _ []); [reflexivity | by rewrite app_nil_r | reflexivity].
Qed.

Lemma processEmail_sync cfg env parsed account folder :
  preserves sync_rel (IMAPService.processEmail cfg env parsed account folder).
Proof.
  intros w r w' H.
  destruct (processEmail_run cfg env parsed account folder w) as (w1 & Hrun & _ & Hpr).
  rewrite Hrun in H. inversion H; subst. split; [|exact I].
  destruct Hpr as [hit Hraw Hs Hh Hd Ht | pre t Hpre doc Hd Ht | pre ai t c Hpre Hai Hc doc Hd Ht
                  | pre ai fan t c Hpre Hai Hc Hu1 Hu2 doc Hd Hfan Ht].
  - eapply sync_rel_quiet; [exact Hd | exact Ht | reflexivity].
  - eapply sync_rel_quiet; [exact Hd | exact Ht | by proj_simpl].
  - eapply (sync_rel_insert _ _ _ doc doc); [exact Hd | apply Uncategorized_valid | exact Ht|].
    by proj_simpl.
  - eapply (sync_rel_insert _ _ _ doc); [exact Hd | exact Hc | exact Ht|].
    destruct Hfan as [(-> & hooks & -> & Hhooks)|(Hne & ->)]; by proj_simpl.
Qed.

Ltac sync_one :=
  first
    [ pres_step
    | apply spec_emit_sync; reflexivity
    | apply spec_tick_sync
    | apply processEmail_sync ].

Ltac sync_tac := repeat sync_one.

Lemma onMessage_sync cfg env account folder seqno :
  preserves sync_rel (IMAPService.onMessage cfg env account folder seqno).
Proof. unfold IMAPService.onMessage. sync_tac. Qed.

Lemma fetchEmailsBySeqNo_sync cfg env account seqNos folder :
  preserves sync_rel (IMAPService.fetchEmailsBySeqNo cfg env account seqNos folder).
Proof. unfold IMAPService.fetchEmailsBySeqNo. repeat first [sync_one | apply onMessage_sync]. Qed.

Lemma performInitialSync_sync cfg env account :
  preserves sync_rel (IMAPService.performInitialSync cfg env account).
Proof.
  unfold IMAPService.performInitialSync.
  repeat first [sync_one | apply fetchEmailsBySeqNo_sync].
Qed.

(** C4 (as stated) fails when the index refuses the inserts: the ten most
    recent of twelve messages are handled, none is skipped as a duplicate,
    and no record is persisted. *)
Lemma initial_sync_persists_nothing_when_index_fails :
  let w' := (IMAPService.performInitialSync example_config example_env_index_down
               example_account empty_world).2 in
  let evs := new_events empty_world w' in
  handled evs = [3; 4; 5; 6; 7; 8; 9; 10; 11; 12]%Z /\
  skipped evs = [] /\
  size (es_docs w') = 0.
Proof. vm_compute. repeat split. Qed.

Lemma Inserted_outcome evs doc : Inserted doc ∈ outcomes evs -> doc ∈ inserted evs.
Proof.
  unfold outcomes, inserted. induction evs as [|e evs IH]; simpl; [by intros ?%elem_of_nil|].
  destruct e as [| d [] | | | | | | | | | []]; simpl; auto.
  all: intros [Heq|Hin]%elem_of_cons; try discriminate Heq; auto.
  inversion Heq; subst. by left. by right; apply IH.
Qed.

(** C4 (amended): for every mailbox whose enumeration returns more than 10
    messages, initial sync requests one fetch, of exactly the last 10 of the
    enumeration, and, when the server answers the fetch, runs the message
    handler on exactly these 10 and on no others; each handling ends in one
    outcome (parse error, duplicate skipped, insert refused, record
    inserted); and every record inserted during the sync is, when the sync
    ends, a persisted record whose category is one of the six categories. *)
Theorem initial_sync_last_ten cfg env account w results :
  imap_openBox env (clock w) = true ->
  imap_search env (S (clock w)) false = Some results ->
  10 < length results ->
  let w' := (IMAPService.performInitialSync cfg env account w).2 in
  let evs := new_events w w' in
  let limitedResults := drop (length results - 10) results in
  let answered := imap_fetch env (S (S (clock w))) limitedResults in
  length limitedResults = 10 /\
  fetched evs = [limitedResults] /\
  handled evs = (if answered then limitedResults else []) /\
  length (outcomes evs) = (if answered then 10 else 0) /\
  (forall doc, Inserted doc ∈ outcomes evs -> categorized w' (EmailDocument.id doc)).
Proof.
  intros Hopen Hsearch Hlen.
  destruct (IMAPService.performInitialSync cfg env account w) as [r w'] eqn:E.
  cbn [snd]. cbv zeta.
  assert (Hten : length (drop (length results - 10) results) = 10)
    by (rewrite length_drop; lia).
  split; [exact Hten|].
  destruct (performInitialSync_sync cfg env account _ _ _ E) as [(evs & T & Hins & _) _].
  rewrite (new_events_app _ _ _ T).
  assert (Hshape : exists evs1 tail,
            evs = [ImapOpenBox true; Console LogStartingInitialSync; ImapSearch false true;
                   Console (LogFound (length results) (length (slice_last 10 results)))]
                  ++ evs1 ++ tail /\
            fetched evs1 = [slice_last 10 results] /\
            handled evs1 = (if imap_fetch env (S (S (clock w))) (slice_last 10 results)
                            then slice_last 10 results else []) /\
            length (outcomes evs1) = (if imap_fetch env (S (S (clock w))) (slice_last 10 results)
                                      then length (slice_last 10 results) else 0) /\
            fetched tail = [] /\ handled tail = [] /\ outcomes tail = []).
  { unfold IMAPService.performInitialSync, console in E.
    unfold bind at 1, tick in E. rewrite Hopen in E. cbn [negb] in E.
    rewrite !bind_emit in E. unfold bind at 1 in E. cbn [clock set_trace set_clock] in E.
    rewrite Hsearch, bind_emit in E.
    destruct (Nat.eqb_spec (length results) 0) as [H0|_]; [lia|].
    unfold try_catch at 1 in E. cbv zeta in E. rewrite bind_emit in E. unfold bind at 1 in E.
    match type of E with context [IMAPService.fetchEmailsBySeqNo _ _ _ ?l _ ?w0] =>
      destruct (IMAPService.fetchEmailsBySeqNo cfg env account l "INBOX" w0)
        as [r1 w1] eqn:E1;
      destruct (fetchEmailsBySeqNo_reads _ _ _ _ _ _ _ _ E1) as (evs1 & T1 & Hf & Hh & Ho)
    end.
    wsimpl. exists evs1.
    destruct r1 as [[]|e]; run_in E; inversion E; subst w'; wsimpl.
    - exists [Console LogInitialSyncCompleted]. split; [|done].
      rewrite T1 in T. rewrite <- !app_assoc in T. apply app_inv_head in T. by rewrite <- T.
    - exists []. split; [|done].
      rewrite T1 in T. rewrite <- !app_assoc in T. apply app_inv_head in T.
      by rewrite <- T, app_nil_r. }
  destruct Hshape as (evs1 & tail & -> & Hf & Hh & Ho & Hft & Hht & Hot).
  unfold slice_last in *. rewrite Hten in Ho.
  split; [|split; [|split]].
  - unfold fetched in *. rewrite !omap_app, Hf, Hft. reflexivity.
  - unfold handled in *. rewrite !omap_app, Hh, Hht. simpl. by rewrite app_nil_r.
  - unfold outcomes in *. rewrite !omap_app, Hot, app_nil_r. exact Ho.
  - intros doc Hdoc. apply Hins, Inserted_outcome, Hdoc.
Qed.

Lemma initial_sync_last_ten_witness :
  let w' := (IMAPService.performInitialSync example_config example_env example_account
               empty_world).2 in
  let evs := new_events empty_world w' in
  fetched evs = [[3; 4; 5; 6; 7; 8; 9; 10; 11; 12]%Z] /\
  handled evs = [3; 4; 5; 6; 7; 8; 9; 10; 11; 12]%Z /\
  length (outcomes evs) = 10 /\
  (forall doc, Inserted doc ∈ outcomes evs -> categorized w' (EmailDocument.id doc)).
Proof.
  destruct (initial_sync_last_ten example_config example_env example_account empty_world
              [1; 2; 3; 4; 5; 6; 7; 8; 9; 10; 11; 12]%Z)
    as (_ & Hf & Hh & Ho & Hi); [reflexivity | reflexivity | simpl; lia |].
  split; [exact Hf|]. split; [exact Hh|]. split; [exact Ho | exact Hi].
Defined.

(** ** Parse errors in a batch *)

Lemma mapM_settle_app {A C} (h : A -> M C) (l1 l2 : list A) (w : World) :
  mapM (fun x => settle (h x)) (l1 ++ l2) w =
  let '(r1, w1) := mapM (fun x => settle (h x)) l1 w in
  let '(r2, w2) := mapM (fun x => settle (h x)) l2 w1 in
  match r1, r2 with
  | Ok ps1, Ok ps2 => (Ok (ps1 ++ ps2), w2)
  | Ok _, Throw e => (Throw e, w2)
  | Throw e, _ => (Throw e, w1)
  end.
Proof.
  revert w. induction l1 as [|x l1 IH]; intros w; simpl.
  - destruct (mapM _ l2 w) as [[ps2|e] w2]; reflexivity.
  - unfold bind, ret.
    change (settle (h x) w) with (let '(r, w') := h x w in (Ok r, w')).
    destruct (h x w) as [rx wx]. rewrite IH.
    destruct (mapM _ l1 wx) as [[ps1|e1] w1];
      destruct (mapM _ l2 w1) as [[ps2|e2] w2]; reflexivity.
Qed.

Lemma mapM_settle_never_throws {A C} (h : A -> M C) (l : list A) :
  total (mapM (fun x => settle (h x)) l).
Proof. apply total_mapM. intros x. apply total_settle. Qed.

Lemma promise_all_rejects ps1 e ps2 w :
  exists e', promise_all (ps1 ++ Throw e :: ps2) w = (Throw e', w).
Proof.
  induction ps1 as [|[u|e1] ps1 IH]; simpl; [by exists e | exact IH | by exists e1].
Qed.

(** C6 (as stated) fails: a message that does not parse makes the batch
    reject, and after such an initial sync the [ready] handler does not go on
    to live mode (no keep-alive is armed), although every message of the
    batch was handled. *)
Lemma parse_error_rejects_batch :
  simpleParser example_env (imap_source example_env 3) = None /\
  (IMAPService.fetchEmailsBySeqNo example_config example_env example_account [2; 3; 4]%Z
     "INBOX" empty_world).1 = Throw ParseError /\
  let w' := (IMAPService.onReady example_config example_env example_account empty_world).2 in
  handled (trace w') = [3; 4; 5; 6; 7; 8; 9; 10; 11; 12]%Z /\
  intervals (trace w') = [].
Proof. vm_compute. repeat split. Qed.

(** C6 (amended): for every batch the server answers, a message that does
    not parse is the only one skipped: the batch ends in the world reached
    by running the handlers of the messages before it, adding the two events
    of the failing message (its arrival and the error line) and nothing
    else, and running the handlers of the messages after it; every message
    of the batch is handled; and the batch-level fetch operation then
    rejects. *)
Theorem parse_error_skips_one_message cfg env account folder pre seqno post w :
  simpleParser env (imap_source env seqno) = None ->
  imap_fetch env (clock w) (pre ++ seqno :: post) = true ->
  let seqNos := pre ++ seqno :: post in
  let w0 := set_trace (fun t => t ++ [ImapFetch seqNos]) (set_clock S w) in
  let skip := set_trace (fun t => t ++ [ImapMessage seqno; Console ErrProcessingMessage]) in
  let w' := after_handlers cfg env account folder post
              (skip (after_handlers cfg env account folder pre w0)) in
  (exists e,
     IMAPService.fetchEmailsBySeqNo cfg env account seqNos folder w = (Throw e, w')) /\
  handled (new_events w w') = seqNos.
Proof.
  intros Hparse Hfetch seqNos w0 skip w'.
  assert (Hrun : exists e,
    IMAPService.fetchEmailsBySeqNo cfg env account seqNos folder w = (Throw e, w')).
  { unfold IMAPService.fetchEmailsBySeqNo. unfold bind at 1, tick. rewrite bind_emit.
    fold seqNos in Hfetch. rewrite Hfetch. cbn [negb]. fold w0.
    unfold bind at 1. subst seqNos. rewrite mapM_settle_app.
    subst w'. unfold after_handlers.
    destruct (mapM_settle_never_throws (IMAPService.onMessage cfg env account folder) pre w0)
      as (ps1 & w1 & E1).
    rewrite E1. cbn [snd]. simpl mapM.
    unfold bind at 1, settle at 1. rewrite (onMessage_parse_error _ _ _ _ _ _ Hparse). fold (skip w1).
    unfold bind at 1.
    destruct (mapM_settle_never_throws (IMAPService.onMessage cfg env account folder) post (skip w1))
      as (ps2 & w2 & E2).
    rewrite E2. cbn [snd]. unfold ret at 1. unfold try_catch.
    destruct (promise_all_rejects ps1 ParseError ps2 w2) as [e He]. rewrite He.
    exists e. reflexivity. }
  split; [exact Hrun|].
  destruct Hrun as [e Hrun].
  destruct (fetchEmailsBySeqNo_reads _ _ _ _ _ _ _ _ Hrun) as (evs & T & _ & Hh & _).
  fold seqNos in Hfetch. rewrite Hfetch in Hh. by rewrite (new_events_app _ _ _ T).
Qed.

Lemma parse_error_skips_one_message_witness :
  let w0 := set_trace (fun t => t ++ [ImapFetch [2; 3; 4]%Z]) (set_clock S empty_world) in
  let skip := set_trace (fun t => t ++ [ImapMessage 3; Console ErrProcessingMessage]) in
  let w' := after_handlers example_config example_env example_account "INBOX" [4%Z]
              (skip (after_handlers example_config example_env example_account "INBOX"
                       [2%Z] w0)) in
  (exists e,
     IMAPService.fetchEmailsBySeqNo example_config example_env example_account [2; 3; 4]%Z
       "INBOX" empty_world = (Throw e, w')) /\
  handled (new_events empty_world w') = [2; 3; 4]%Z.
Proof.
  apply (parse_error_skips_one_message example_config example_env example_account "INBOX"
           [2%Z] 3%Z [4%Z] empty_world); reflexivity.
Defined.

(** * Further properties *)

(** ** Lookups and updates of the index *)

(** [findByMessageId] never throws and never changes the index; a hit it
    returns is a record of the index with the identifier, found by a search
    that completed; and when the search completes and some record carries
    the identifier, it returns a hit. *)
Theorem findByMessageId_lookup env messageId w :
  exists found w',
    ElasticsearchService.findByMessageId env messageId w = (Ok found, w') /\
    es_docs w' = es_docs w /\
    (forall hit, found = Some hit ->
       es_docs w !! hit.1 = Some hit.2 /\ EmailDocument.messageId hit.2 = messageId /\
       es_search env (clock w) messageId = true) /\
    (es_search env (clock w) messageId = true -> indexed w messageId -> is_Some found) /\
    (es_search env (clock w) messageId = false -> found = None).
Proof.
  unfold ElasticsearchService.findByMessageId. run.
  destruct (es_search env (clock w) messageId) eqn:Hs.
  - eexists _, _. split; [reflexivity|]. split; [reflexivity|]. wsimpl. split; [|split].
    + intros hit Hhit. destruct (hits_sound _ _ _ Hhit) as [H1 H2]. auto.
    + intros _ (i & d & Hi & Hd). destruct (hits_nonempty _ _ _ _ Hi Hd) as [hit Hhit].
      rewrite Hhit. eauto.
    + discriminate.
  - eexists _, _. split; [reflexivity|]. split; [reflexivity|]. split; [discriminate|].
    split; [discriminate | reflexivity].
Qed.

(** Insert and lookup: when the insert and the following search complete,
    [indexEmail] stores the document under its id, leaves every other id as
    it was, and [existsByMessageId] then finds its identifier. *)
Theorem indexEmail_then_exists env email w :
  es_index env (clock w) email = true ->
  es_search env (S (clock w)) (EmailDocument.messageId email) = true ->
  exists w1 w2,
    ElasticsearchService.indexEmail env email w = (Ok tt, w1) /\
    es_docs w1 !! EmailDocument.id email = Some email /\
    (forall i, i <> EmailDocument.id email -> es_docs w1 !! i = es_docs w !! i) /\
    ElasticsearchService.existsByMessageId env (EmailDocument.messageId email) w1 = (Ok true, w2) /\
    es_docs w2 = es_docs w1.
Proof.
  intros Hi Hs. rewrite indexEmail_run, Hi. eexists _, _. split; [reflexivity|]. wsimpl.
  split; [apply lookup_insert_eq|]. split; [intros i Hne; by apply lookup_insert_ne|].
  rewrite existsByMessageId_run. wsimpl. rewrite Hs.
  destruct (hits_nonempty (EmailDocument.messageId email)
              (<[EmailDocument.id email := email]> (es_docs w)) (EmailDocument.id email) email)
    as [hit Hhit]; [apply lookup_insert_eq | reflexivity|].
  rewrite Hhit. split; reflexivity.
Qed.

Lemma indexEmail_then_exists_witness :
  exists w1 w2,
    ElasticsearchService.indexEmail example_env example_record empty_world = (Ok tt, w1) /\
    es_docs w1 !! "doc-1" = Some example_record /\
    (forall i, i <> "doc-1" -> es_docs w1 !! i = es_docs empty_world !! i) /\
    ElasticsearchService.existsByMessageId example_env "<m1@example.com>" w1 = (Ok true, w2) /\
    es_docs w2 = es_docs w1.
Proof.
  apply (indexEmail_then_exists example_env example_record empty_world); reflexivity.
Defined.

(** A category update, whether it completes, fails or addresses a record
    that is not there, neither adds nor removes a record, leaves every other
    record as it was, changes at most the category of its own, and so keeps
    the identifiers by which duplicates are recognised. *)
Theorem updateEmailCategory_keeps_identifiers env emailId category w :
  let w' := (ElasticsearchService.updateEmailCategory env emailId category w).2 in
  (forall i, i <> emailId -> es_docs w' !! i = es_docs w !! i) /\
  (forall d, es_docs w !! emailId = Some d ->
     es_docs w' !! emailId = Some d \/
     es_docs w' !! emailId = Some (EmailDocument.with_aiCategory category d)) /\
  (es_docs w !! emailId = None -> es_docs w' = es_docs w) /\
  (forall messageId, indexed w' messageId <-> indexed w messageId).
Proof.
  intros w'.
  assert (Hcases : es_docs w' = es_docs w \/
            exists d, es_docs w !! emailId = Some d /\
              es_docs w' = <[emailId := EmailDocument.with_aiCategory category d]> (es_docs w)).
  { subst w'. destruct (es_docs w !! emailId) as [d|] eqn:Hd.
    - rewrite (updateEmailCategory_run _ _ _ _ _ Hd).
      destruct (es_update env (clock w) emailId category); [right; eauto | by left].
    - left. unfold ElasticsearchService.updateEmailCategory. run. wsimpl. by rewrite Hd. }
  clearbody w'. split; [|split; [|split]].
  - intros i Hne. destruct Hcases as [->|(d & _ & ->)]; [reflexivity|].
    by apply lookup_insert_ne.
  - intros d Hd. destruct Hcases as [->|(d' & Hd' & ->)]; [by left|].
    right. rewrite lookup_insert_eq. congruence.
  - intros Hnone. destruct Hcases as [->|(d' & Hd' & _)]; [reflexivity | congruence].
  - intros messageId. unfold indexed.
    destruct Hcases as [->|(d & Hd & ->)]; [reflexivity|].
    split; intros (i & x & Hi & Hx).
    + destruct (decide (i = emailId)) as [->|Hne].
      * rewrite lookup_insert_eq in Hi. inversion Hi; subst x. exists emailId, d.
        split; [exact Hd|]. by destruct d.
      * rewrite lookup_insert_ne in Hi by done. by exists i, x.
    + destruct (decide (i = emailId)) as [->|Hne].
      * exists emailId, (EmailDocument.with_aiCategory category d).
        split; [apply lookup_insert_eq|]. rewrite Hd in Hi. inversion Hi; subst x. by destruct d.
      * exists i, x. split; [by rewrite lookup_insert_ne|exact Hx].
Qed.

(** ** Single runs of the pipeline *)

Lemma ingest_mono_ai e : is_ai_event e -> is_ingest_event e.
Proof. by destruct e as [| | | | | | | | | | []]. Qed.

Lemma ingest_mono_webhook e : is_webhook_event e -> is_ingest_event e.
Proof. by destruct e as [| | | | | | | | | | []]. Qed.

(** [processEmail] never rejects, whatever its collaborators do, and
    touches neither the connection statuses, the reconnection counters nor
    the timers; it makes at most one insert, and every record of the index
    other than the one it inserted is as it was. *)
Theorem processEmail_always_resolves cfg env parsed account folder w :
  exists w',
    IMAPService.processEmail cfg env parsed account folder w = (Ok tt, w') /\
    service_frame w w' /\
    length (inserted (new_events w w')) <= 1 /\
    (forall i, (forall doc, doc ∈ inserted (new_events w w') -> EmailDocument.id doc <> i) ->
       es_docs w' !! i = es_docs w !! i).
Proof.
  destruct (processEmail_run cfg env parsed account folder w) as (w' & Hrun & Hs & Hpr).
  exists w'. split; [exact Hrun|]. split; [exact Hs|].
  destruct Hpr as [hit _ _ _ Hd Ht | pre t Hpre doc Hd Ht | pre ai t c Hpre Hai _ doc Hd Ht
                  | pre ai fan t c Hpre Hai _ _ _ doc Hd Hfan Ht];
    rewrite (new_events_app _ _ _ Ht), Hd.
  - split; [simpl; lia | reflexivity].
  - proj_simpl. split; [simpl; lia | reflexivity].
  - proj_simpl. split; [simpl; lia|]. intros i Hi. apply lookup_insert_ne, Hi. left.
  - assert (Hfan' : Forall is_webhook_event (drop 1 fan) /\ omap insert_of fan = omap insert_of (drop 1 fan)).
    { destruct Hfan as [(_ & hooks & -> & Hh)|(_ & ->)]; [by split | by split]. }
    destruct Hfan' as [Hh Hf]. unfold inserted. rewrite !omap_app, Hf.
    rewrite (omap_Forall_None insert_of is_search_event pre) by first [exact Hpre | none_tac].
    rewrite (omap_Forall_None insert_of is_ai_event ai) by first [exact Hai | none_tac].
    rewrite (omap_Forall_None insert_of is_webhook_event (drop 1 fan))
      by first [exact Hh | none_tac].
    cbn [omap list_omap app insert_of]. split; [simpl; lia|].
    intros i Hi. apply lookup_insert_ne, Hi. left.
Qed.

(** The documents a run of [processEmail] inserts are built by
    [emailDoc_of] from the message, for some generated id and time. *)
Lemma processEmail_inserted cfg env parsed account folder w doc :
  doc ∈ inserted (new_events w (IMAPService.processEmail cfg env parsed account folder w).2) ->
  exists t, doc = IMAPService.emailDoc_of env parsed account folder (rawMessageId_of parsed)
                    (uuidv4 env t) (now env t).
Proof.
  destruct (processEmail_run cfg env parsed account folder w) as (w' & Hrun & _ & Hpr).
  rewrite Hrun. cbn [snd].
  destruct Hpr as [hit _ _ _ Hd Ht | pre t Hpre doc' Hd Ht | pre ai t c Hpre Hai _ doc' Hd Ht
                  | pre ai fan t c Hpre Hai _ _ _ doc' Hd Hfan Ht];
    rewrite (new_events_app _ _ _ Ht); unfold inserted; intros Hin.
  - cbn in Hin. by apply elem_of_nil in Hin.
  - rewrite omap_app, (omap_Forall_None insert_of is_search_event pre) in Hin
      by first [exact Hpre | none_tac].
    cbn in Hin. by apply elem_of_nil in Hin.
  - rewrite !omap_app, (omap_Forall_None insert_of is_search_event pre),
      (omap_Forall_None insert_of is_ai_event ai) in Hin
      by first [exact Hpre | exact Hai | none_tac].
    cbn in Hin. apply list_elem_of_singleton in Hin. by exists t.
  - assert (Hf : omap insert_of fan = []).
    { destruct Hfan as [(_ & hooks & -> & Hh)|(_ & ->)]; [|reflexivity].
      cbn. apply (omap_Forall_None insert_of is_webhook_event); [none_tac | exact Hh]. }
    rewrite !omap_app, Hf, (omap_Forall_None insert_of is_search_event pre),
      (omap_Forall_None insert_of is_ai_event ai) in Hin
      by first [exact Hpre | exact Hai | none_tac].
    cbn in Hin. apply list_elem_of_singleton in Hin. by exists t.
Qed.

Lemma indexEmail_ingest env email :
  preserves (steps is_ingest_event) (ElasticsearchService.indexEmail env email).
Proof.
  unfold ElasticsearchService.indexEmail.
  repeat first [ pres_step | apply spec_emit_steps; by cbv
               | apply spec_tick_steps; intros; exact I | apply spec_docs_steps ].
Qed.

Lemma updateEmailCategory_ingest env emailId category :
  preserves (steps is_ingest_event)
    (ElasticsearchService.updateEmailCategory env emailId category).
Proof.
  unfold ElasticsearchService.updateEmailCategory.
  repeat first [ pres_step | apply spec_emit_steps; by cbv
               | apply spec_tick_steps; intros; exact I | apply spec_docs_steps ].
Qed.

Lemma categorizeEmail_ingest cfg env email :
  preserves (steps is_ingest_event) (AIService.categorizeEmail cfg env email).
Proof.
  eapply preserves_mono; [|apply categorizeEmail_frame].
  intros w w' [_ H]. eapply steps_mono; [apply ingest_mono_ai | exact H].
Qed.

Lemma triggerInterestedWebhooks_ingest cfg env email :
  preserves (steps is_ingest_event) (WebhookService.triggerInterestedWebhooks cfg env email).
Proof.
  intros w r w' H.
  destruct (triggerInterestedWebhooks_run cfg env email w) as (w1 & hooks & Hrun & _ & Hs & Ht & Hh).
  rewrite Hrun in H. inversion H; subst. split; [|exact I]. split; [exact Hs|].
  eexists. split; [exact Ht|]. constructor; [by cbv|].
  eapply Forall_impl; [exact Hh | apply ingest_mono_webhook].
Qed.

(** A message without a transport identifier (absent, empty or blank) is
    never looked up in the index and never skipped as a duplicate: the run
    goes straight to the insert. *)
Theorem processEmail_without_identifier cfg env parsed account folder w :
  truthy (rawMessageId_of parsed) = false ->
  let evs := new_events w (IMAPService.processEmail cfg env parsed account folder w).2 in
  searches evs = [] /\ skipped evs = [] /\ length (outcomes evs) = 1 /\
  forall doc, doc ∈ inserted evs -> EmailDocument.messageId doc = EmailDocument.id doc.
Proof.
  intros Hraw evs.
  assert (Hsteps : preserves (steps is_ingest_event)
                     (IMAPService.processEmail cfg env parsed account folder)).
  { unfold IMAPService.processEmail. fold (rawMessageId_of parsed). rewrite Hraw. cbv zeta.
    apply preserves_try_catch; [exact (steps_trans _) | |].
    - eapply spec_bind with (P := fun a => a = false);
        [exact (steps_trans _) | apply spec_ret; [exact (steps_refl _) | reflexivity] |].
      intros a ->.
      match goal with |- spec ?R _ ?m => change (preserves R m) end.
      repeat first [ pres_step | apply spec_emit_steps; by cbv
                   | apply spec_tick_steps; intros; exact I
                   | apply indexEmail_ingest | apply updateEmailCategory_ingest
                   | apply categorizeEmail_ingest | apply triggerInterestedWebhooks_ingest ].
    - intros e. unfold console. apply spec_emit_steps. by cbv. }
  destruct (IMAPService.processEmail cfg env parsed account folder w) as [r w'] eqn:E.
  destruct (Hsteps _ _ _ E) as [[_ (evs' & Ht & Hev)] _].
  subst evs. cbn [snd]. rewrite (new_events_app _ _ _ Ht).
  split; [|split; [|split]].
  - apply (omap_Forall_None search_of is_ingest_event); [by intros e (_ & ? & _) | exact Hev].
  - apply (omap_Forall_None duplicate_of is_ingest_event); [by intros e (_ & _ & ?) | exact Hev].
  - destruct (processEmail_one_outcome cfg env parsed account folder _ _ _ E)
      as (evs'' & Ht' & Hone).
    rewrite Ht in Ht'. apply app_inv_head in Ht'. subst evs''.
    rewrite outcomes_length, Hone. reflexivity.
  - intros doc Hin.
    destruct (processEmail_inserted cfg env parsed account folder w doc) as [t ->].
    { rewrite E. cbn [snd]. by rewrite (new_events_app _ _ _ Ht). }
    cbn. by rewrite Hraw.
Qed.

Lemma processEmail_without_identifier_witness :
  let parsed := ParsedMail.mk (Some "  ") None (Some "Hello") None ParsedMail.Absent
                  ParsedMail.Absent ParsedMail.Absent None None None in
  let evs := new_events example_world
               (IMAPService.processEmail example_config example_env parsed example_account
                  "INBOX" example_world).2 in
  searches evs = [] /\ skipped evs = [] /\ length (outcomes evs) = 1 /\
  forall doc, doc ∈ inserted evs -> EmailDocument.messageId doc = EmailDocument.id doc.
Proof.
  intros parsed.
  apply (processEmail_without_identifier example_config example_env parsed example_account
           "INBOX" example_world).
  reflexivity.
Defined.

(** Ingestion is idempotent: once a run has inserted the record of a
    message that has a transport identifier, a later run for a message with
    the same identifier (from any account or folder) whose lookup completes
    is skipped as a duplicate, with the index left as it is. *)
Theorem reingestion_is_skipped cfg env parsed account folder w parsed2 account2 folder2 :
  let w1 := (IMAPService.processEmail cfg env parsed account folder w).2 in
  truthy (rawMessageId_of parsed) = true ->
  inserted (new_events w w1) <> [] ->
  rawMessageId_of parsed2 = rawMessageId_of parsed ->
  es_search env (clock w1) (rawMessageId_of parsed) = true ->
  exists w2,
    IMAPService.processEmail cfg env parsed2 account2 folder2 w1 = (Ok tt, w2) /\
    es_docs w2 = es_docs w1 /\
    new_events w1 w2 = [ EsSearch (rawMessageId_of parsed) true;
                         Console (LogDuplicateSkipped (rawMessageId_of parsed)) ].
Proof.
  intros w1 Hraw Hins Hsame Hsearch.
  assert (Hidx : indexed w1 (rawMessageId_of parsed)).
  { destruct (processEmail_run cfg env parsed account folder w) as (w' & Hrun & _ & Hpr).
    subst w1. rewrite Hrun in *. cbn [snd] in *.
    destruct Hpr as [hit _ _ _ Hd Ht | pre t Hpre doc Hd Ht | pre ai t c Hpre Hai _ doc Hd Ht
                    | pre ai fan t c Hpre Hai _ _ _ doc Hd Hfan Ht].
    - rewrite (new_events_app _ _ _ Ht) in Hins. by destruct Hins.
    - rewrite (new_events_app _ _ _ Ht) in Hins. destruct Hins. unfold inserted.
      rewrite omap_app, (omap_Forall_None insert_of is_search_event pre)
        by first [exact Hpre | none_tac]. reflexivity.
    - exists (EmailDocument.id doc), doc. rewrite Hd. split; [apply lookup_insert_eq|].
      subst doc. cbn. by rewrite Hraw.
    - exists (EmailDocument.id doc), (EmailDocument.with_aiCategory c doc). rewrite Hd.
      split; [apply lookup_insert_eq|]. subst doc. cbn. by rewrite Hraw. }
  clearbody w1. destruct Hidx as (i & d & Hi & Hd).
  destruct (hits_nonempty _ _ _ _ Hi Hd) as [hit Hhit].
  unfold IMAPService.processEmail. fold (rawMessageId_of parsed2). rewrite Hsame. cbv zeta.
  unfold try_catch at 1, bind at 1.
  rewrite Hraw, existsByMessageId_run, Hsearch, Hhit.
  eexists. split; [reflexivity|]. split; [reflexivity|].
  apply new_events_app. wsimpl. by rewrite <- app_assoc.
Qed.

Lemma reingestion_is_skipped_witness :
  let w1 := (IMAPService.processEmail example_config example_env example_parsed example_account
               "INBOX" empty_world).2 in
  exists w2,
    IMAPService.processEmail example_config example_env example_parsed example_account
      "Sent" w1 = (Ok tt, w2) /\
    es_docs w2 = es_docs w1 /\
    new_events w1 w2 = [ EsSearch (rawMessageId_of example_parsed) true;
                         Console (LogDuplicateSkipped (rawMessageId_of example_parsed)) ].
Proof.
  apply (reingestion_is_skipped example_config example_env example_parsed example_account
           "INBOX" empty_world example_parsed example_account "Sent");
    [reflexivity | by vm_compute | reflexivity | reflexivity].
Defined.

(** Every document the pipeline inserts belongs to the account and folder
    it was fetched for, has a non-empty subject, starts [Uncategorized],
    carries the recipients of the [to] header and the HTML as parsed, never
    an empty [cc] list or an empty [inReplyTo], and is identified by the
    transport identifier when there is one and by its own id otherwise. *)
Theorem inserted_document_shape cfg env parsed account folder w doc :
  doc ∈ inserted (new_events w (IMAPService.processEmail cfg env parsed account folder w).2) ->
  EmailDocument.accountId doc = EmailAccount.id account /\
  EmailDocument.folder doc = folder /\
  EmailDocument.subject doc <> "" /\
  EmailDocument.aiCategory doc = "Uncategorized" /\
  EmailDocument.to doc = IMAPService.getAddresses (ParsedMail.to parsed) /\
  EmailDocument.htmlBody doc = ParsedMail.html parsed /\
  EmailDocument.cc doc <> Some [] /\
  EmailDocument.inReplyTo doc <> Some "" /\
  EmailDocument.messageId doc =
    (if truthy (rawMessageId_of parsed) then rawMessageId_of parsed else EmailDocument.id doc).
Proof.
  intros Hin. destruct (processEmail_inserted _ _ _ _ _ _ _ Hin) as [t ->]. cbn.
  repeat split.
  - unfold or_default. destruct (ParsedMail.subject parsed) as [s|]; [|done].
    destruct (truthy s) eqn:Hs; [|done]. intros ->. discriminate.
  - assert (Hcc : forall l : list string, (if (0 <? length l)%nat then Some l else None) <> Some []).
    { by intros [|a l]. }
    destruct (ParsedMail.cc parsed); [done | apply Hcc | apply Hcc].
  - destruct (ParsedMail.inReplyTo parsed) as [r|]; [|done].
    destruct (truthy r) eqn:Hr; [|done]. intros [= ->]. discriminate.
Qed.

Lemma inserted_document_shape_witness :
  exists doc,
    doc ∈ inserted (new_events empty_world
                      (IMAPService.processEmail example_config example_env example_parsed
                         example_account "INBOX" empty_world).2) /\
    EmailDocument.accountId doc = "account-1" /\
    EmailDocument.subject doc <> "" /\
    EmailDocument.messageId doc = "<m1@example.com>".
Proof.
  assert (H : IMAPService.emailDoc_of example_env example_parsed example_account "INBOX"
                "<m1@example.com>" "b" 1
              ∈ inserted (new_events empty_world
                            (IMAPService.processEmail example_config example_env example_parsed
                               example_account "INBOX" empty_world).2))
    by (vm_compute; left).
  eexists. split; [exact H|].
  destruct (inserted_document_shape _ _ _ _ _ _ _ H) as (Ha & _ & Hs & _ & _ & _ & _ & _ & Hm).
  split; [exact Ha|]. split; [exact Hs | exact Hm].
Defined.

(** ** The prompt of the classification *)

Lemma append_length (s1 s2 : string) :
  String.length (s1 +:+ s2) = String.length s1 + String.length s2.
Proof. induction s1 as [|a s1 IH]; simpl; [reflexivity | by rewrite IH]. Qed.

Lemma rev_app_length (s1 s2 : string) :
  String.length (String.rev_app s1 s2) = String.length s1 + String.length s2.
Proof.
  revert s2. induction s1 as [|a s1 IH]; intros s2; simpl; [reflexivity|].
  rewrite IH. simpl. lia.
Qed.

Lemma trimStart_length (s : string) : String.length (trimStart s) <= String.length s.
Proof. induction s as [|a s IH]; simpl; [lia|]. destruct (is_ws a); simpl; lia. Qed.

Lemma trim_length (s : string) : String.length (trim s) <= String.length s.
Proof.
  unfold trim, trimEnd, String.rev. rewrite rev_app_length. simpl.
  pose proof (trimStart_length (String.rev_app (trimStart s) "")) as H1.
  rewrite rev_app_length in H1. simpl in H1.
  pose proof (trimStart_length s). lia.
Qed.

Lemma generate_prompts env prompt : yields prompt_sent [prompt] (AIService.generate env prompt).
Proof.
  unfold AIService.generate.
  eapply yields_bind with (l1 := []) (l2 := [prompt]);
    [apply yields_tick | | right; apply total_tick | reflexivity].
  intros t. destruct (generateContent env t prompt).
  - eapply yields_bind with (l1 := [prompt]) (l2 := []);
      [apply (yields_emit prompt_sent) | intros; apply yields_ret | by left | reflexivity].
  - eapply yields_bind with (l1 := [prompt]) (l2 := []);
      [apply (yields_emit prompt_sent) | intros; apply yields_throw | by left | reflexivity].
Qed.

(** [categorizeEmail] calls the model exactly once, with the prompt built
    from the message, when the model is configured, and never otherwise; it
    never touches the index; and the prompt carries at most 4000 characters
    of the body: its length is at most 55 plus the lengths of the sender and
    of the subject plus 4000. *)
Theorem categorizeEmail_one_prompt cfg env email w :
  let w' := (AIService.categorizeEmail cfg env email w).2 in
  classified (new_events w w')
    = (if AIService.categorizationModel cfg then [AIService.prompt_of email] else []) /\
  es_docs w' = es_docs w /\
  String.length (AIService.prompt_of email)
    <= 55 + String.length (AIService.from email) + String.length (AIService.subject email) + 4000.
Proof.
  intros w'. split; [|split].
  - assert (Hy : yields prompt_sent
                   (if AIService.categorizationModel cfg then [AIService.prompt_of email] else [])
                   (AIService.categorizeEmail cfg env email)).
    { unfold AIService.categorizeEmail.
      destruct (AIService.categorizationModel cfg); cbn [negb].
      2:{ eapply yields_bind with (l1 := []) (l2 := []);
            [apply (yields_emit prompt_sent) | intros; apply yields_ret | by left | reflexivity]. }
      apply yields_try_catch.
      -
        cbv zeta.
        eapply yields_bind with (l1 := [AIService.prompt_of email]) (l2 := []);
          [apply generate_prompts | | by left | reflexivity].
        intros text. unfold AIService.parse, AIService.get_category.
        eapply yields_bind with (l1 := []) (l2 := []);
          [destruct (JSON_parse env text); [apply yields_ret | apply yields_throw]
          | | by left | reflexivity].
        intros v.
        eapply yields_bind with (l1 := []) (l2 := []);
          [destruct (member v "category"); [apply yields_ret | apply yields_throw]
          | | by left | reflexivity].
        intros c. destruct (_ && _); [|apply yields_ret].
        destruct c as [[]|]; apply yields_ret.
      - intros e.
        eapply yields_bind with (l1 := []) (l2 := []);
          [apply (yields_emit prompt_sent) | intros; apply yields_ret | by left | reflexivity]. }
    subst w'. destruct (AIService.categorizeEmail cfg env email w) as [r w'] eqn:E.
    destruct (Hy _ _ _ E) as (evs & Ht & Hev). cbn [snd].
    by rewrite (new_events_app _ _ _ Ht).
  - subst w'. destruct (AIService.categorizeEmail cfg env email w) as [r w'] eqn:E.
    by destruct (categorizeEmail_frame cfg env email _ _ _ E) as [[Hd _] _].
  - unfold AIService.prompt_of. etransitivity; [apply trim_length|].
    rewrite !append_length.
    pose proof (substring0_length 4000 (AIService.body email)).
    change (String.length nl) with 1.
    change (String.length "        From: ") with 14.
    change (String.length "        Subject: ") with 17.
    change (String.length "        Body: ") with 14.
    change (String.length "      ") with 6. lia.
Qed.

(** ** The destinations of the generic notification *)

Lemma set_add_NoDup u s : NoDup s -> NoDup (WebhookService.set_add u s).
Proof.
  intros Hs. unfold WebhookService.set_add. destruct (existsb _ s) eqn:E; [exact Hs|].
  apply NoDup_app. split; [exact Hs|]. split; [|apply NoDup_singleton].
  intros x Hx Hu. apply list_elem_of_singleton in Hu. subst x.
  assert (Ht : existsb (String.eqb u) s = true); [|congruence].
  apply existsb_exists. exists u. split; [by apply list_elem_of_In | apply String.eqb_refl].
Qed.

Lemma set_add_sound u s x : In x (WebhookService.set_add u s) -> In x s \/ x = u.
Proof.
  unfold WebhookService.set_add. destruct (existsb _ s); [auto|].
  intros [H|[H|[]]]%in_app_or; auto.
Qed.

Lemma fold_set_add_NoDup l : forall s,
  NoDup s ->
  NoDup (fold_left (fun s u => WebhookService.set_add u s) l s) /\
  forall x, In x (fold_left (fun s u => WebhookService.set_add u s) l s) -> In x s \/ In x l.
Proof.
  induction l as [|u l IH]; simpl; intros s Hs; [auto|].
  destruct (IH _ (set_add_NoDup u s Hs)) as [Hn Hin]. split; [exact Hn|].
  intros x Hx. destruct (Hin x Hx) as [H|H]; [|auto].
  destruct (set_add_sound _ _ _ H); auto.
Qed.

Lemma filter_NoDup {A} (f : A -> bool) (l : list A) : NoDup l -> NoDup (List.filter f l).
Proof.
  induction 1 as [|x l Hx Hl IH]; simpl; [constructor|].
  destruct (f x); [|exact IH]. constructor; [|exact IH].
  intros Hin%list_elem_of_In. apply filter_In in Hin as [Hin _].
  by apply Hx, list_elem_of_In.
Qed.

Lemma broadcastUrls_distinct cfg genericUrl :
  NoDup (WebhookService.broadcastUrls cfg genericUrl) /\
  forall u, In u (WebhookService.broadcastUrls cfg genericUrl) ->
    u <> genericUrl /\ truthy u = true /\ In u (Config.webhooks_interestedUrls cfg).
Proof.
  unfold WebhookService.broadcastUrls, WebhookService.set_delete.
  match goal with |- context [fold_left ?f ?l ?s] =>
    destruct (fold_set_add_NoDup l s) as [Hn Hin]
  end.
  { unfold WebhookService.set_add. simpl. apply NoDup_singleton. }
  split; [by apply filter_NoDup|].
  intros u [Hu Hne]%filter_In. apply negb_true_iff, String.eqb_neq in Hne.
  split; [exact Hne|]. destruct (Hin u Hu) as [H|H].
  - unfold WebhookService.set_add in H. simpl in H. destruct H as [H|[]]. congruence.
  - apply filter_In in H as [H1 H2]. auto.
Qed.

(** One run of [sendGenericWebhook] never posts twice to the same URL,
    even when the interested list repeats a URL or names the generic one,
    and never to an empty URL; every URL it posts to is the generic URL or
    one of the interested list; and all its posts carry one and the same
    payload, built once with one timestamp. *)
Theorem generic_destinations_distinct cfg env email w :
  let evs := new_events w (WebhookService.sendGenericWebhook cfg env email w).2 in
  NoDup (posted evs) /\
  (forall u, u ∈ posted evs ->
     u <> "" /\ (Config.webhooks_generic cfg = Some u \/ u ∈ Config.webhooks_interestedUrls cfg)) /\
  exists timestamp,
    forall p, p ∈ payloads evs -> p = WebhookService.basePayload cfg email timestamp.
Proof.
  intros evs. subst evs.
  destruct (WebhookService.sendGenericWebhook cfg env email w) as [r w'] eqn:E. cbn [snd].
  destruct (sendGenericWebhook_posts cfg env email _ _ _ E) as (evs & Ht & Hp).
  rewrite (new_events_app _ _ _ Ht). unfold posted. rewrite Hp.
  split; [|split].
  - unfold WebhookService.configured. destruct (Config.webhooks_generic cfg) as [g|]; [|constructor].
    destruct (truthy g); [|constructor]. change (default "" (Some g)) with g.
    destruct (broadcastUrls_distinct cfg g) as [Hn Hin].
    apply NoDup_cons. split; [|exact Hn].
    intros Hg%list_elem_of_In. by destruct (Hin _ Hg) as [? _].
  - intros u Hu. unfold WebhookService.configured in Hu.
    destruct (Config.webhooks_generic cfg) as [g|]; [|by apply elem_of_nil in Hu].
    destruct (truthy g) eqn:Hg; [|by apply elem_of_nil in Hu]. change (default "" (Some g)) with g in Hu.
    apply elem_of_cons in Hu as [->|Hu].
    + split; [by intros -> | by left].
    + destruct (broadcastUrls_distinct cfg g) as [_ Hin].
      apply list_elem_of_In in Hu. destruct (Hin _ Hu) as (_ & Hu1 & Hu2).
      split; [by intros -> | right; by apply list_elem_of_In].
  - assert (Hq : exists timestamp,
              Forall (sends_payload (WebhookService.basePayload cfg email timestamp)) evs).
    { clear Hp. unfold WebhookService.sendGenericWebhook in E.
      assert (Hquiet : forall ts line w r w', console line w = (r, w') ->
                steps (sends_payload (WebhookService.basePayload cfg email ts)) w w').
      { intros ts line w1 r1 w1' E1.
        by destruct (spec_emit_steps (sends_payload (WebhookService.basePayload cfg email ts))
                       (Console line) I _ _ _ E1). }
      assert (Hdone : forall ts w1 w1', trace w1' = trace w1 ++ evs ->
                steps (sends_payload (WebhookService.basePayload cfg email ts)) w1 w1' ->
                Forall (sends_payload (WebhookService.basePayload cfg email ts)) evs).
      { intros ts w1 w1' T [_ (evs' & T' & F)]. rewrite T in T'.
        apply app_inv_head in T'. by subst evs'. }
      destruct (Config.webhooks_generic cfg) as [g|];
        [|exists 0%Z; eapply Hdone; [exact Ht | eapply Hquiet, E]].
      destruct (negb (truthy g));
        [exists 0%Z; eapply Hdone; [exact Ht | eapply Hquiet, E]|].
      unfold bind at 1, get_world at 1 in E. cbv zeta in E.
      exists (now env (clock w)). eapply Hdone; [exact Ht|].
      match type of E with ?m w = _ =>
        assert (Hm : preserves
                  (steps (sends_payload (WebhookService.basePayload cfg email (now env (clock w)))))
                  m)
      end.
      { repeat first [ pres_step
                     | apply postSafely_steps; [intros; reflexivity | exact I | exact I]
                     | apply spec_emit_steps; exact I ]. }
      by destruct (Hm _ _ _ E). }
    destruct Hq as [ts Hq]. exists ts. intros p Hp'.
    unfold payloads in Hp'. apply list_elem_of_omap in Hp' as (e & He & Hpe).
    eapply Forall_forall in Hq; [|exact He]. destruct e; try discriminate Hpe.
    simpl in Hpe, Hq. congruence.
Qed.

(** ** Reconnection over repeated failures *)

Lemma scheduleReconnect_run cfg account w :
  let k := default 0%nat (reconnectAttempts w !! EmailAccount.id account) in
  IMAPService.scheduleReconnect cfg account w =
  (Ok tt,
   if (Config.imap_maxReconnectAttempts cfg <=? Z.of_nat k)%Z
   then set_trace (fun t => t ++ [Console ErrMaxReconnect]) w
   else
     let delay := Z.min (Config.imap_reconnectDelay cfg * 2 ^ Z.of_nat k) 60000 in
     set_timers (fun ts => ts ++ [(delay, account)])
       (set_reconnectAttempts <[EmailAccount.id account := (k + 1)%nat]>
          (set_trace (fun t => t ++ [Console (LogReconnecting delay (k + 1))]) w))).
Proof.
  intros k. unfold IMAPService.scheduleReconnect. run. fold k.
  destruct (Config.imap_maxReconnectAttempts cfg <=? Z.of_nat k)%Z; reflexivity.
Qed.

(** However often the connection of an account drops in a row, the
    reconnections scheduled stop at the configured maximum: [n] calls of
    [scheduleReconnect] from the attempt count [k] never throw, arm one
    timer per attempt from [k] up to the maximum, with the delays
    [min (reconnectDelay * 2^j) 60000] in this order, leave the counter at
    the smaller of [k + n] and the maximum (at [k] when it was at or above
    the maximum already), and touch neither the index, the statuses nor the
    counters of the other accounts. *)
Theorem reconnect_attempts_exhaust cfg account n : forall w,
  let id := EmailAccount.id account in
  let maxAttempts := Config.imap_maxReconnectAttempts cfg in
  let k := default 0%nat (reconnectAttempts w !! id) in
  let run := repeatM n (IMAPService.scheduleReconnect cfg account) w in
  let k' := default 0%nat (reconnectAttempts run.2 !! id) in
  run.1 = Ok tt /\
  k' = (if (Z.of_nat k <? maxAttempts)%Z then Nat.min (k + n) (Z.to_nat maxAttempts) else k) /\
  timers run.2 =
    timers w ++ ((fun j => (Z.min (Config.imap_reconnectDelay cfg * 2 ^ Z.of_nat j) 60000, account))
                   <$> seq k (k' - k)) /\
  length (timers run.2) <= length (timers w) + Z.to_nat maxAttempts /\
  es_docs run.2 = es_docs w /\
  connectionStatus run.2 = connectionStatus w /\
  (forall i, i <> id -> reconnectAttempts run.2 !! i = reconnectAttempts w !! i).
Proof.
  induction n as [|n IH]; intros w id maxAttempts k.
  - cbn [repeatM ret fst snd]. fold id k. rewrite Nat.sub_diag, Nat.add_0_r. cbn [seq fmap list_fmap].
    rewrite app_nil_r.
    split; [reflexivity|]. split; [destruct (Z.ltb_spec (Z.of_nat k) maxAttempts); lia|].
    split; [reflexivity|]. split; [lia|]. done.
  - cbn [repeatM]. unfold bind. rewrite scheduleReconnect_run. fold id k maxAttempts.
    cbv zeta.
    destruct (Z.leb_spec maxAttempts (Z.of_nat k)) as [Hge|Hlt].
    + specialize (IH (set_trace (fun t => t ++ [Console ErrMaxReconnect]) w)).
      cbv zeta in IH. wsimpl. fold id k maxAttempts in IH.
      destruct (repeatM n _ _) as [r w']. cbn [fst snd] in *.
      destruct (Z.ltb_spec (Z.of_nat k) maxAttempts) as [?|_]; [lia|]. exact IH.
    + set (delay := Z.min (Config.imap_reconnectDelay cfg * 2 ^ Z.of_nat k) 60000).
      match goal with |- context [repeatM n _ ?w0] => specialize (IH w0); set (w1 := w0) in * end.
      cbv zeta in IH. fold id maxAttempts in IH.
      assert (Hk1 : default 0%nat (reconnectAttempts w1 !! id) = S k).
      { subst w1. wsimpl. rewrite lookup_insert_eq. simpl. lia. }
      rewrite Hk1 in IH.
      destruct (repeatM n _ w1) as [r w']. cbn [fst snd] in *.
      destruct IH as (Hr & Hk' & Ht & Hl & Hd & Hc & Ho).
      set (k' := default 0%nat (reconnectAttempts w' !! id)) in *.
      destruct (Z.ltb_spec (Z.of_nat k) maxAttempts) as [_|?]; [|lia].
      assert (Hk'' : k' = Nat.min (k + S n) (Z.to_nat maxAttempts)).
      { rewrite Hk'. destruct (Z.ltb_spec (Z.of_nat (S k)) maxAttempts); lia. }
      assert (Hgt : k' - k = S (k' - S k)) by lia.
      split; [exact Hr|]. split; [exact Hk''|]. split; [|split; [|split; [|split]]].
      * rewrite Ht, Hgt. subst w1. wsimpl. cbn [seq fmap list_fmap].
        by rewrite <- app_assoc.
      * rewrite Ht, length_app, length_fmap, length_seq. subst w1. wsimpl.
        rewrite length_app. simpl. lia.
      * rewrite Hd. reflexivity.
      * rewrite Hc. reflexivity.
      * intros i Hi. rewrite (Ho i Hi). subst w1. wsimpl. by apply lookup_insert_ne.
Qed.

(** ** Connection statuses *)

(** The handlers of [error], [end] and [ready] replace the status of their
    account and no other: disconnected with the error message, disconnected
    without one, connected (whatever the initial sync that follows does);
    the first two never throw and leave the index as it is. *)
Theorem handlers_record_status cfg env account message s :
  let id := EmailAccount.id account in
  let w := world s in
  (exists s',
     IMAPHandlers.error cfg env account message s = (Ok tt, s') /\
     es_docs (world s') = es_docs w /\
     connectionStatus (world s') =
       <[id := IMAPConnectionStatus.mk id false (now env (clock w)) (Some message)]>
         (connectionStatus w)) /\
  (exists s',
     IMAPHandlers.end_ cfg env account s = (Ok tt, s') /\
     es_docs (world s') = es_docs w /\
     connectionStatus (world s') =
       <[id := IMAPConnectionStatus.mk id false (now env (clock w)) None]> (connectionStatus w)) /\
  (let w' := (IMAPService.onReady cfg env account w).2 in
   connectionStatus w' =
     <[id := IMAPConnectionStatus.mk id true (now env (clock w)) None]> (connectionStatus w)).
Proof.
  intros id w. subst w. split; [|split].
  - unfold IMAPHandlers.error, Http.bind, Http.note, Http.lift. cbn [world notes].
    unfold IMAPService.onError. unfold bind at 1, get_world. unfold bind at 1, modify at 1.
    rewrite scheduleReconnect_run. eexists. split; [reflexivity|]. cbn [world].
    destruct (_ <=? _)%Z; split; reflexivity.
  - unfold IMAPHandlers.end_, Http.bind, Http.note, Http.lift. cbn [world notes].
    unfold IMAPService.onEnd. unfold bind at 1, get_world. unfold bind at 1, modify at 1.
    rewrite scheduleReconnect_run. eexists. split; [reflexivity|]. cbn [world].
    destruct (_ <=? _)%Z; split; reflexivity.
  - unfold IMAPService.onReady, console. rewrite bind_emit.
    unfold bind at 1, get_world. unfold bind at 1, modify at 1. unfold bind at 1, modify at 1.
    match goal with |- context [try_catch ?m ?h ?w0] =>
      assert (Hf : preserves (steps (fun _ => True)) (try_catch m h)) by steps_tac;
      destruct (try_catch m h w0) as [r w'] eqn:E;
      destruct (Hf _ _ _ E) as [[(_ & Hc & _) _] _]
    end.
    cbn [snd]. rewrite Hc. reflexivity.
Qed.

(** ** Records are never deleted *)

Lemma keeps_records_refl w : keeps_records w w.
Proof. exists []. split; [by rewrite app_nil_r|]. split; [auto | simpl; lia]. Qed.

Lemma keeps_records_trans w1 w2 w3 :
  keeps_records w1 w2 -> keeps_records w2 w3 -> keeps_records w1 w3.
Proof.
  intros (e1 & T1 & A1 & B1) (e2 & T2 & A2 & B2).
  exists (e1 ++ e2). split; [by rewrite T2, T1, app_assoc|]. split; [auto|].
  unfold inserted in *. rewrite omap_app, length_app. lia.
Qed.

Lemma keeps_records_quiet w w' evs :
  es_docs w' = es_docs w -> trace w' = trace w ++ evs -> keeps_records w w'.
Proof. intros Hd Ht. exists evs. split; [exact Ht|]. rewrite Hd. split; [auto | lia]. Qed.

Lemma keeps_records_insert w w' evs i d :
  es_docs w' = <[i := d]> (es_docs w) -> trace w' = trace w ++ evs ->
  1 <= length (inserted evs) -> keeps_records w w'.
Proof.
  intros Hd Ht Hi. exists evs. split; [exact Ht|]. rewrite Hd. split.
  - intros j Hj. destruct (decide (i = j)) as [->|Hne].
    + rewrite lookup_insert_eq. eauto.
    + by rewrite lookup_insert_ne.
  - destruct (es_docs w !! i) as [x|] eqn:Hx.
    + rewrite map_size_insert_Some by eauto. lia.
    + rewrite map_size_insert_None by done. lia.
Qed.

Lemma spec_emit_keeps e : preserves keeps_records (emit e).
Proof.
  intros w r w' H. inversion H; subst. split; [|exact I].
  by apply (keeps_records_quiet _ _ [e]).
Qed.

Lemma spec_tick_keeps : preserves keeps_records tick.
Proof.
  intros w r w' H. inversion H; subst. split; [|exact I].
  apply (keeps_records_quiet _ _ []); [reflexivity | by rewrite app_nil_r].
Qed.

Lemma spec_modify_keeps f :
  (forall w, es_docs (f w) = es_docs w /\ trace (f w) = trace w) ->
  preserves keeps_records (modify f).
Proof.
  intros Hf w r w' H. inversion H; subst. split; [|exact I]. destruct (Hf w) as [Hd Ht].
  apply (keeps_records_quiet _ _ []); [exact Hd | by rewrite app_nil_r].
Qed.

Lemma processEmail_keeps cfg env parsed account folder :
  preserves keeps_records (IMAPService.processEmail cfg env parsed account folder).
Proof.
  intros w r w' H. split; [|by destruct r].
  destruct (processEmail_run cfg env parsed account folder w) as (w1 & Hrun & _ & Hpr).
  rewrite Hrun in H. inversion H; subst w1. clear H Hrun.
  destruct Hpr as [hit _ _ _ Hd Ht | pre t Hpre doc Hd Ht | pre ai t c Hpre Hai _ doc Hd Ht
                  | pre ai fan t c Hpre Hai _ _ _ doc Hd Hfan Ht].
  - eapply keeps_records_quiet; eassumption.
  - eapply keeps_records_quiet; eassumption.
  - eapply keeps_records_insert; [exact Hd | exact Ht|].
    unfold inserted. rewrite !omap_app, !length_app. simpl. lia.
  - eapply keeps_records_insert; [exact Hd | exact Ht|].
    unfold inserted. rewrite !omap_app, !length_app. simpl. lia.
Qed.

Ltac keeps_one :=
  first
    [ apply processEmail_keeps
    | apply preserves_bind; [exact keeps_records_trans | | intros ?]
    | apply preserves_try_catch; [exact keeps_records_trans | | intros ?]
    | apply spec_mapM; [exact keeps_records_refl | exact keeps_records_trans | intros ? _]
    | apply spec_promise_all; [exact keeps_records_refl]
    | apply spec_ret; [exact keeps_records_refl | exact I]
    | apply spec_throw; exact keeps_records_refl
    | apply spec_get_world; [exact keeps_records_refl | intros; exact I]
    | pres_step
    | apply spec_emit_keeps
    | apply spec_tick_keeps
    | apply spec_modify_keeps; intros; split; reflexivity ].

Lemma fetchEmailsBySeqNo_keeps cfg env account seqNos folder :
  preserves keeps_records (IMAPService.fetchEmailsBySeqNo cfg env account seqNos folder).
Proof. unfold IMAPService.fetchEmailsBySeqNo, IMAPService.onMessage. repeat keeps_one. Qed.

Lemma inserted_le_outcomes evs : length (inserted evs) <= length (outcomes evs).
Proof.
  unfold inserted, outcomes. induction evs as [|e evs IH]; [reflexivity|].
  destruct e as [| d [] | | | | | | | | | []]; simpl;
    first [exact IH | apply le_n_S; exact IH | apply Nat.le_le_succ_r; exact IH].
Qed.

(** Neither the [ready] handler, with the initial sync it runs, nor the
    [mail] handler ever removes a record from the index, and the index
    grows by at most one record per insert that succeeded. *)
Theorem handlers_never_delete cfg env account numNewMsgs w :
  (let w' := (IMAPService.onReady cfg env account w).2 in
   (forall i, is_Some (es_docs w !! i) -> is_Some (es_docs w' !! i)) /\
   size (es_docs w') <= size (es_docs w) + length (inserted (new_events w w'))) /\
  (let w' := (IMAPService.onMail cfg env account numNewMsgs w).2 in
   (forall i, is_Some (es_docs w !! i) -> is_Some (es_docs w' !! i)) /\
   size (es_docs w') <= size (es_docs w) + length (inserted (new_events w w'))).
Proof.
  assert (Hk : forall (m : M unit), preserves keeps_records m ->
            let w' := (m w).2 in
            (forall i, is_Some (es_docs w !! i) -> is_Some (es_docs w' !! i)) /\
            size (es_docs w') <= size (es_docs w) + length (inserted (new_events w w'))).
  { intros m Hm. destruct (m w) as [r w'] eqn:E. cbn [snd].
    destruct (Hm _ _ _ E) as [(evs & Ht & Hi & Hs) _].
    by rewrite (new_events_app _ _ _ Ht). }
  split; apply Hk.
  - unfold IMAPService.onReady, IMAPService.performInitialSync, IMAPService.startIdleMode.
    repeat first [apply fetchEmailsBySeqNo_keeps | keeps_one].
  - unfold IMAPService.onMail.
    repeat first [apply fetchEmailsBySeqNo_keeps | keeps_one].
Qed.

(** ** Initial sync, whatever the mailbox *)

(** The events of an initial sync of a mailbox that is not empty: four
    lines of preamble, the events of the batch, and at most a closing
    line. *)
Lemma performInitialSync_reads cfg env account w results r w' :
  imap_openBox env (clock w) = true ->
  imap_search env (S (clock w)) false = Some results ->
  length results <> 0 ->
  IMAPService.performInitialSync cfg env account w = (r, w') ->
  exists evs1 tail,
    trace w' = trace w
               ++ [ImapOpenBox true; Console LogStartingInitialSync; ImapSearch false true;
                   Console (LogFound (length results) (length (slice_last 10 results)))]
               ++ evs1 ++ tail /\
    fetched evs1 = [slice_last 10 results] /\
    handled evs1 = (if imap_fetch env (S (S (clock w))) (slice_last 10 results)
                    then slice_last 10 results else []) /\
    length (outcomes evs1) = (if imap_fetch env (S (S (clock w))) (slice_last 10 results)
                              then length (slice_last 10 results) else 0) /\
    (tail = [] \/ tail = [Console LogInitialSyncCompleted]).
Proof.
  intros Hopen Hsearch Hlen E.
  unfold IMAPService.performInitialSync, console in E.
  unfold bind at 1, tick in E. rewrite Hopen in E. cbn [negb] in E.
  rewrite !bind_emit in E. unfold bind at 1 in E. cbn [clock set_trace set_clock] in E.
  rewrite Hsearch, bind_emit in E.
  destruct (Nat.eqb_spec (length results) 0) as [H0|_]; [lia|].
  unfold try_catch at 1 in E. cbv zeta in E. rewrite bind_emit in E. unfold bind at 1 in E.
  match type of E with context [IMAPService.fetchEmailsBySeqNo _ _ _ ?l _ ?w0] =>
    destruct (IMAPService.fetchEmailsBySeqNo cfg env account l "INBOX" w0)
      as [r1 w1] eqn:E1;
    destruct (fetchEmailsBySeqNo_reads _ _ _ _ _ _ _ _ E1) as (evs1 & T1 & Hf & Hh & Ho)
  end.
  wsimpl. exists evs1.
  destruct r1 as [[]|e]; run_in E; inversion E; subst w'; wsimpl.
  - exists [Console LogInitialSyncCompleted]. rewrite T1, <- !app_assoc.
    split; [reflexivity|]. auto.
  - exists []. rewrite T1, <- !app_assoc, app_nil_r.
    split; [reflexivity|]. auto.
Qed.

Lemma slice_last_short {A} (n : nat) (a : list A) : length a <= n -> slice_last n a = a.
Proof. intros H. unfold slice_last. by replace (length a - n) with 0 by lia. Qed.

Lemma slice_last_length {A} (n : nat) (a : list A) : length (slice_last n a) <= n.
Proof. unfold slice_last. rewrite length_drop. lia. Qed.

(** For a mailbox whose enumeration returns at most 10 messages (and at
    least one), initial sync requests one fetch of all of them, in the order
    of the enumeration, and, when the server answers the fetch, runs the
    message handler on each of them once. *)
Theorem initial_sync_small_mailbox cfg env account w results :
  imap_openBox env (clock w) = true ->
  imap_search env (S (clock w)) false = Some results ->
  0 < length results <= 10 ->
  let evs := new_events w (IMAPService.performInitialSync cfg env account w).2 in
  let answered := imap_fetch env (S (S (clock w))) results in
  fetched evs = [results] /\
  handled evs = (if answered then results else []) /\
  length (outcomes evs) = (if answered then length results else 0).
Proof.
  intros Hopen Hsearch Hlen.
  destruct (IMAPService.performInitialSync cfg env account w) as [r w'] eqn:E.
  cbn [snd]. cbv zeta.
  destruct (performInitialSync_reads _ _ _ _ _ _ _ Hopen Hsearch ltac:(lia) E)
    as (evs1 & tail & T & Hf & Hh & Ho & Htail).
  rewrite (new_events_app _ _ _ T). rewrite (slice_last_short 10 results) in * by lia.
  unfold fetched, handled, outcomes in *. rewrite !omap_app, Hf, Hh.
  rewrite !length_app, Ho.
  destruct Htail as [-> | ->]; simpl; rewrite ?app_nil_r; split; try split; try reflexivity; lia.
Qed.

Lemma initial_sync_small_mailbox_witness :
  let env := mkEnv (es_search example_env) (es_index example_env) (es_update example_env)
               (generateContent example_env) (JSON_parse example_env) (axios_post example_env)
               (imap_openBox example_env) (fun _ _ => Some [7; 8]%Z) (imap_fetch example_env)
               (imap_source example_env) (simpleParser example_env) (htmlToText example_env)
               (uuidv4 example_env) (now example_env) in
  let evs := new_events empty_world
               (IMAPService.performInitialSync example_config env example_account
                  empty_world).2 in
  fetched evs = [[7; 8]%Z] /\ handled evs = [7; 8]%Z /\ length (outcomes evs) = 2.
Proof.
  intros env.
  apply (initial_sync_small_mailbox example_config env example_account empty_world [7; 8]%Z);
    [reflexivity | reflexivity | simpl; lia].
Defined.

(** Whatever the mailbox and whatever fails, one initial sync requests at
    most one fetch, of at most 10 messages, handles at most 10 messages,
    makes at most 10 inserts and so adds at most 10 records to the index. *)
Theorem initial_sync_bounded cfg env account w :
  let w' := (IMAPService.performInitialSync cfg env account w).2 in
  let evs := new_events w w' in
  length (fetched evs) <= 1 /\
  Forall (fun seqNos => length seqNos <= 10) (fetched evs) /\
  length (handled evs) <= 10 /\
  length (inserted evs) <= 10 /\
  size (es_docs w') <= size (es_docs w) + 10.
Proof.
  destruct (IMAPService.performInitialSync cfg env account w) as [r w'] eqn:E.
  cbn [snd]. cbv zeta.
  assert (Hkeep : size (es_docs w') <= size (es_docs w) + length (inserted (new_events w w'))).
  { assert (Hk : preserves keeps_records (IMAPService.performInitialSync cfg env account)).
    { unfold IMAPService.performInitialSync.
      repeat first [apply fetchEmailsBySeqNo_keeps | keeps_one]. }
    destruct (Hk _ _ _ E) as [(evs & Ht & _ & Hs) _]. by rewrite (new_events_app _ _ _ Ht). }
  assert (Hquiet : forall evs, trace w' = trace w ++ evs ->
            fetched evs = [] -> handled evs = [] -> inserted evs = [] ->
            length (fetched (new_events w w')) <= 1 /\
            Forall (fun seqNos => length seqNos <= 10) (fetched (new_events w w')) /\
            length (handled (new_events w w')) <= 10 /\
            length (inserted (new_events w w')) <= 10 /\
            size (es_docs w') <= size (es_docs w) + 10).
  { intros evs Ht Hf Hh Hi. rewrite (new_events_app _ _ _ Ht) in *. rewrite Hf, Hh.
    rewrite Hi in *. simpl in *. repeat split; try lia. constructor. }
  destruct (imap_openBox env (clock w)) eqn:Hopen.
  2:{ unfold IMAPService.performInitialSync in E. unfold bind at 1, tick in E.
      rewrite Hopen in E. run_in E. inversion E; subst w'. by eapply Hquiet. }
  destruct (imap_search env (S (clock w)) false) as [results|] eqn:Hsearch.
  2:{ unfold IMAPService.performInitialSync, console in E. unfold bind at 1, tick in E.
      rewrite Hopen in E. cbn [negb] in E. rewrite !bind_emit in E. unfold bind at 1 in E.
      cbn [clock set_trace set_clock] in E. rewrite Hsearch in E. run_in E.
      inversion E; subst w'. eapply Hquiet; [wsimpl; by rewrite <- !app_assoc | done..]. }
  destruct (Nat.eq_dec (length results) 0) as [H0|Hne].
  { unfold IMAPService.performInitialSync, console in E. unfold bind at 1, tick in E.
    rewrite Hopen in E. cbn [negb] in E. rewrite !bind_emit in E. unfold bind at 1 in E.
    cbn [clock set_trace set_clock] in E. rewrite Hsearch, bind_emit, H0 in E. run_in E.
    inversion E; subst w'. eapply Hquiet; [wsimpl; by rewrite <- !app_assoc | done..]. }
  destruct (performInitialSync_reads _ _ _ _ _ _ _ Hopen Hsearch Hne E)
    as (evs1 & tail & T & Hf & Hh & Ho & Htail).
  clear Hquiet. rewrite (new_events_app _ _ _ T) in *.
  pose proof (slice_last_length 10 results) as Hten.
  pose proof (inserted_le_outcomes evs1) as Hio.
  assert (Hh' : length (handled evs1) <= 10).
  { rewrite Hh. destruct (imap_fetch _ _ _); simpl; lia. }
  assert (Ho' : length (outcomes evs1) <= 10).
  { rewrite Ho. destruct (imap_fetch _ _ _); simpl; lia. }
  assert (Htl : fetched tail = [] /\ handled tail = [] /\ inserted tail = [])
    by (destruct Htail as [-> | ->]; done).
  destruct Htl as (Hft & Hht & Hit).
  assert (Hfe : fetched ([ImapOpenBox true; Console LogStartingInitialSync; ImapSearch false true;
                          Console (LogFound (length results) (length (slice_last 10 results)))]
                         ++ evs1 ++ tail) = fetched evs1).
  { unfold fetched in *. by rewrite !omap_app, Hft, app_nil_r. }
  assert (Hhe : handled ([ImapOpenBox true; Console LogStartingInitialSync; ImapSearch false true;
                          Console (LogFound (length results) (length (slice_last 10 results)))]
                         ++ evs1 ++ tail) = handled evs1).
  { unfold handled in *. by rewrite !omap_app, Hht, app_nil_r. }
  assert (Hie : inserted ([ImapOpenBox true; Console LogStartingInitialSync; ImapSearch false true;
                           Console (LogFound (length results) (length (slice_last 10 results)))]
                          ++ evs1 ++ tail) = inserted evs1).
  { unfold inserted in *. by rewrite !omap_app, Hit, app_nil_r. }
  rewrite Hfe, Hhe, Hie in *. rewrite Hf.
  split; [simpl; lia|]. split; [constructor; [exact Hten | constructor]|]. lia.
Qed.

(** An initial sync stops at the first step that fails: when the folder
    cannot be opened it rejects without searching, when the enumeration
    fails it rejects without fetching, and for an empty mailbox it resolves
    without fetching; in all three cases the index is left as it is. *)
Theorem initial_sync_stops_early cfg env account w :
  let run := IMAPService.performInitialSync cfg env account w in
  (imap_openBox env (clock w) = false ->
   run.1 = Throw ImapError /\ new_events w run.2 = [ImapOpenBox false] /\
   es_docs run.2 = es_docs w) /\
  (imap_openBox env (clock w) = true -> imap_search env (S (clock w)) false = None ->
   run.1 = Throw ImapError /\
   new_events w run.2
     = [ImapOpenBox true; Console LogStartingInitialSync; ImapSearch false false] /\
   es_docs run.2 = es_docs w) /\
  (imap_openBox env (clock w) = true -> imap_search env (S (clock w)) false = Some [] ->
   run.1 = Ok tt /\
   new_events w run.2
     = [ImapOpenBox true; Console LogStartingInitialSync; ImapSearch false true;
        Console LogNoEmailsFound] /\
   es_docs run.2 = es_docs w).
Proof.
  intros run. subst run.
  destruct (IMAPService.performInitialSync cfg env account w) as [r w'] eqn:E. cbn [fst snd].
  unfold IMAPService.performInitialSync, console in E. unfold bind at 1, tick in E.
  split; [|split].
  - intros Ho. rewrite Ho in E. cbn [negb] in E. run_in E. inversion E; subst.
    split; [reflexivity|]. split; [|reflexivity]. by apply new_events_app.
  - intros Ho Hs. rewrite Ho in E. cbn [negb] in E. rewrite !bind_emit in E.
    unfold bind at 1 in E. cbn [clock set_trace set_clock] in E. rewrite Hs in E.
    run_in E. inversion E; subst.
    split; [reflexivity|]. split; [|reflexivity].
    apply new_events_app. wsimpl. by rewrite <- !app_assoc.
  - intros Ho Hs. rewrite Ho in E. cbn [negb] in E. rewrite !bind_emit in E.
    unfold bind at 1 in E. cbn [clock set_trace set_clock] in E. rewrite Hs in E.
    run_in E. inversion E; subst.
    split; [reflexivity|]. split; [|reflexivity].
    apply new_events_app. wsimpl. by rewrite <- !app_assoc.
Qed.

(** ** The [ready] and [mail] handlers at the edges *)

Lemma performInitialSync_arms_nothing cfg env account :
  preserves (steps (fun e => interval_of e = None))
    (IMAPService.performInitialSync cfg env account).
Proof.
  unfold IMAPService.performInitialSync.
  repeat first
    [ steps_one
    | eapply preserves_mono; [|apply fetchEmailsBySeqNo_steps];
      intros ? ?; apply steps_mono; none_tac ].
Qed.

(** The [ready] handler never rejects, and it goes on to live mode, arming
    the keep-alive of 29 minutes, exactly when the initial sync resolves;
    when the sync rejects, the failure is logged and no keep-alive is
    armed. *)
Theorem ready_idle_iff_sync_resolves cfg env account w :
  let sync := IMAPService.performInitialSync cfg env account (ready_world env account w) in
  exists w',
    IMAPService.onReady cfg env account w = (Ok tt, w') /\
    match sync.1 with
    | Ok _ => intervals (new_events w w') = [1740000%Z] /\
              Console ErrReadyHandler ∉ drop (length (trace sync.2)) (trace w')
    | Throw _ => intervals (new_events w w') = [] /\
                 trace w' = trace sync.2 ++ [Console ErrReadyHandler]
    end.
Proof.
  intros sync. subst sync.
  unfold IMAPService.onReady, console. rewrite bind_emit.
  unfold bind at 1, get_world. unfold bind at 1, modify at 1. unfold bind at 1, modify at 1.
  cbn [clock set_trace]. fold (ready_world env account w).
  destruct (IMAPService.performInitialSync cfg env account (ready_world env account w))
    as [r1 w1] eqn:E1.
  destruct (performInitialSync_arms_nothing cfg env account _ _ _ E1) as [[_ (evs & Ht & Hev)] _].
  assert (Hi : intervals evs = []).
  { apply (omap_Forall_None interval_of (fun e => interval_of e = None)); [auto | exact Hev]. }
  unfold try_catch, bind at 1. rewrite E1. cbn [fst snd].
  destruct r1 as [[]|e].
  - unfold IMAPService.startIdleMode. run. eexists. split; [reflexivity|]. wsimpl. split.
    + rewrite (new_events_app _ _ ([Console LogConnected] ++ evs
               ++ [Console LogStartingIdle; Console LogIdleActive; SetInterval (29 * 60 * 1000)])).
      * unfold intervals in *. rewrite !omap_app, Hi. reflexivity.
      * wsimpl. rewrite Ht. unfold ready_world. wsimpl. by rewrite <- !app_assoc.
    + rewrite <- !app_assoc, drop_app_length. intros Hin. in_cases Hin.
  - run. eexists. split; [reflexivity|]. wsimpl. split; [|reflexivity].
    rewrite (new_events_app _ _ ([Console LogConnected] ++ evs ++ [Console ErrReadyHandler])).
    + unfold intervals in *. rewrite !omap_app, Hi. reflexivity.
    + wsimpl. rewrite Ht. unfold ready_world. wsimpl. by rewrite <- !app_assoc.
Qed.

(** A [mail] notification that finds nothing to fetch resolves without a
    fetch and leaves the index as it is: a failing re-query is logged and
    swallowed, an empty result is ignored. *)
Theorem mail_without_unseen cfg env account numNewMsgs w :
  let run := IMAPService.onMail cfg env account numNewMsgs w in
  (imap_search env (clock w) true = None ->
   run.1 = Ok tt /\ es_docs run.2 = es_docs w /\
   new_events w run.2
     = [Console (LogNewMail numNewMsgs); ImapSearch true false; Console ErrSearchingNewEmails]) /\
  (imap_search env (clock w) true = Some [] ->
   run.1 = Ok tt /\ es_docs run.2 = es_docs w /\
   new_events w run.2 = [Console (LogNewMail numNewMsgs); ImapSearch true true]).
Proof.
  intros run. subst run.
  destruct (IMAPService.onMail cfg env account numNewMsgs w) as [r w'] eqn:E. cbn [fst snd].
  unfold IMAPService.onMail, console in E. rewrite bind_emit in E.
  unfold bind at 1, tick in E. cbn [clock set_trace set_clock] in E.
  split; intros Hs; rewrite Hs in E; run_in E; cbn [last] in E; inversion E; subst;
    (split; [reflexivity|]); (split; [reflexivity|]);
    apply new_events_app; wsimpl; by rewrite <- !app_assoc.
Qed.

(** ** The result of a batch *)

Lemma onMessage_result cfg env account folder seqno w :
  (IMAPService.onMessage cfg env account folder seqno w).1
  = if parses env seqno then Ok tt else Throw ParseError.
Proof.
  unfold parses. destruct (simpleParser env (imap_source env seqno)) as [parsed|] eqn:Hp.
  - unfold IMAPService.onMessage. rewrite bind_emit, Hp. unfold try_catch.
    match goal with |- context [IMAPService.processEmail _ _ _ _ _ ?w0] =>
      destruct (processEmail_run cfg env parsed account folder w0) as (w' & Hrun & _)
    end.
    by rewrite Hrun.
  - by rewrite (onMessage_parse_error _ _ _ _ _ _ Hp).
Qed.

Lemma handlers_results cfg env account folder seqNos : forall w,
  (mapM (fun seqno => settle (IMAPService.onMessage cfg env account folder seqno)) seqNos w).1
  = Ok ((fun seqno => if parses env seqno then Ok tt else Throw ParseError) <$> seqNos).
Proof.
  induction seqNos as [|s l IH]; intros w; [reflexivity|].
  cbn [mapM]. unfold bind at 1, settle at 1.
  pose proof (onMessage_result cfg env account folder s w) as Hs.
  destruct (IMAPService.onMessage cfg env account folder s w) as [r1 w1]. cbn [fst] in Hs.
  unfold bind at 1. specialize (IH w1).
  destruct (mapM _ l w1) as [[ps|e] w2]; cbn [fst] in IH; [|discriminate].
  inversion IH; subst. reflexivity.
Qed.

Lemma promise_all_results env seqNos w :
  promise_all ((fun seqno => if parses env seqno then Ok tt else Throw ParseError) <$> seqNos) w
  = (if forallb (parses env) seqNos then Ok tt else Throw ParseError, w).
Proof.
  induction seqNos as [|s l IH]; [reflexivity|].
  cbn [fmap list_fmap forallb promise_all]. destruct (parses env s); [exact IH | reflexivity].
Qed.

(** A batch the server answers resolves exactly when every one of its
    messages parses, and rejects with the parse error otherwise: no failure
    of the index, of the model or of a webhook ever rejects a batch. *)
Theorem batch_rejects_iff_parse_error cfg env account seqNos folder w :
  imap_fetch env (clock w) seqNos = true ->
  (IMAPService.fetchEmailsBySeqNo cfg env account seqNos folder w).1
  = if forallb (parses env) seqNos then Ok tt else Throw ParseError.
Proof.
  intros Hfetch. unfold IMAPService.fetchEmailsBySeqNo.
  unfold bind at 1, tick. rewrite bind_emit, Hfetch. cbn [negb].
  unfold bind at 1.
  match goal with |- context [mapM ?f seqNos ?w0] =>
    pose proof (handlers_results cfg env account folder seqNos w0) as Hps;
    destruct (mapM f seqNos w0) as [rs w1]
  end.
  cbn [fst] in Hps. subst rs. unfold try_catch. rewrite promise_all_results.
  by destruct (forallb (parses env) seqNos).
Qed.

Lemma batch_rejects_iff_parse_error_witness :
  (IMAPService.fetchEmailsBySeqNo example_config example_env_index_down example_account
     [1; 2]%Z "INBOX" empty_world).1 = Ok tt /\
  (IMAPService.fetchEmailsBySeqNo example_config example_env example_account
     [2; 3]%Z "INBOX" empty_world).1 = Throw ParseError.
Proof.
  split.
  - apply (batch_rejects_iff_parse_error example_config example_env_index_down example_account
             [1; 2]%Z "INBOX" empty_world). reflexivity.
  - apply (batch_rejects_iff_parse_error example_config example_env example_account
             [2; 3]%Z "INBOX" empty_world). reflexivity.
Defined.

(** * The HTTP surface *)

(** Unfolds the monad of the controller in the goal. *)
Ltac hrun :=
  cbv beta iota zeta delta
    [Http.bind Http.try_catch Http.ret Http.throw Http.lift Http.note tick get_world];
  cbn [world notes].

Lemma updateEmailCategory_cases env emailId category w :
  exists w', service_frame w w' /\
    ((exists d, es_docs w !! emailId = Some d /\
        ElasticsearchService.updateEmailCategory env emailId category w = (Ok tt, w') /\
        es_docs w' = <[emailId := EmailDocument.with_aiCategory category d]> (es_docs w) /\
        trace w' = trace w ++ [EsUpdate emailId category true])
     \/ (ElasticsearchService.updateEmailCategory env emailId category w = (Throw EsError, w') /\
         es_docs w' = es_docs w /\
         trace w' = trace w ++ [EsUpdate emailId category false; Console ErrUpdatingCategory])).
Proof.
  destruct (es_docs w !! emailId) as [d|] eqn:Hd.
  - rewrite (updateEmailCategory_run _ _ _ _ _ Hd).
    destruct (es_update env (clock w) emailId category).
    + eexists. split; [|left; exists d; repeat split; reflexivity]. by repeat split.
    + eexists. split; [|right; split; [reflexivity|]; wsimpl; by rewrite <- app_assoc].
      by repeat split.
  - unfold ElasticsearchService.updateEmailCategory. run. wsimpl. rewrite Hd.
    eexists. split; [|right; split; [reflexivity|]; wsimpl; by rewrite <- app_assoc].
    by repeat split.
Qed.

Lemma backfill_loop_run cfg env batch : forall success failed w,
  exists success' failed' w' evs,
    EmailController.backfill_loop cfg env batch success failed w = (Ok (success', failed'), w') /\
    success' + failed' = success + failed + length batch /\
    success' = success + length (updates evs) /\
    trace w' = trace w ++ evs /\
    Forall is_backfill_event evs /\
    service_frame w w' /\
    (forall i, is_Some (es_docs w' !! i) <-> is_Some (es_docs w !! i)) /\
    Forall (fun u => u.2 ∈ AIService.validCategories) (updates evs).
Proof.
  induction batch as [|email rest IH]; intros success failed w.
  - exists success, failed, w, []. cbn. rewrite app_nil_r.
    repeat split; try done; try lia. 
  - cbn [EmailController.backfill_loop]. unfold bind at 1, try_catch at 1, bind at 1.
    match goal with |- context [AIService.categorizeEmail cfg env ?input w] =>
      destruct (categorizeEmail_run cfg env input w)
        as (c & w1 & ai & Hrun & Hc & Hd1 & Hs1 & _ & Ht1 & Hai & _)
    end.
    rewrite Hrun. cbn [AIService.category]. unfold bind at 1.
    assert (Hai' : Forall is_backfill_event ai).
    { eapply Forall_impl; [exact Hai|]. by intros [| | | | | | | | | | []]. }
    assert (Hau : updates ai = []).
    { apply (omap_Forall_None update_of is_ai_event); [none_tac | exact Hai]. }
    destruct (updateEmailCategory_cases env (EmailDocument.id email) c w1)
      as (w2 & Hs2 & [(d & Hd & Hup & Hd2 & Ht2)|(Hup & Hd2 & Ht2)]); rewrite Hup.
    + unfold ret at 1.
      destruct (IH (S success) failed w2)
        as (s' & f' & w' & evs & Hloop & Hsum & Hcount & Ht & Hev & Hs & Hdom & Hval).
      rewrite Hloop. exists s', f', w', (ai ++ [EsUpdate (EmailDocument.id email) c true] ++ evs).
      split; [reflexivity|]. split; [simpl; lia|].
      unfold updates in *. rewrite !omap_app, Hau. cbn [omap list_omap update_of app].
      split; [simpl; lia|]. split; [rewrite Ht, Ht2, Ht1; by rewrite <- !app_assoc|].
      split; [apply Forall_app; split; [exact Hai'|]; constructor; [exact I | exact Hev]|].
      split; [eapply service_frame_trans; [exact Hs1|]; eapply service_frame_trans; eassumption|].
      split; [|constructor; [exact Hc | exact Hval]].
      intros i. rewrite Hdom, Hd2, Hd1.
      destruct (decide (i = EmailDocument.id email)) as [->|Hne].
      * rewrite lookup_insert_eq, <- Hd1, Hd. split; eauto.
      * by rewrite lookup_insert_ne.
    + unfold ret at 1.
      destruct (IH success (S failed) w2)
        as (s' & f' & w' & evs & Hloop & Hsum & Hcount & Ht & Hev & Hs & Hdom & Hval).
      rewrite Hloop.
      exists s', f', w',
        (ai ++ [EsUpdate (EmailDocument.id email) c false; Console ErrUpdatingCategory] ++ evs).
      split; [reflexivity|]. split; [simpl; lia|].
      unfold updates in *. rewrite !omap_app, Hau. cbn [omap list_omap update_of app].
      split; [exact Hcount|]. split; [rewrite Ht, Ht2, Ht1; by rewrite <- !app_assoc|].
      split; [apply Forall_app; split; [exact Hai'|]; repeat constructor; exact Hev|].
      split; [eapply service_frame_trans; [exact Hs1|]; eapply service_frame_trans; eassumption|].
      split; [|exact Hval].
      intros i. by rewrite Hdom, Hd2, Hd1.
Qed.

Lemma uncategorized_hits_sound docs e :
  e ∈ Services.uncategorized_hits docs ->
  EmailDocument.aiCategory e = "Uncategorized" /\ exists i, docs !! i = Some e.
Proof.
  unfold Services.uncategorized_hits. rewrite merge_sort_Permutation.
  intros Hin%list_elem_of_In. apply filter_In in Hin as [Hin Hc].
  apply String.eqb_eq in Hc. split; [exact Hc|].
  apply list_elem_of_In, list_elem_of_fmap in Hin as ([i d] & -> & Hin).
  exists i. by apply elem_of_map_to_list.
Qed.

Lemma findUncategorized_run henv limit s :
  exists batch ns,
    Services.findUncategorized henv limit s
      = (Ok batch, mkServer (set_clock S (world s)) (notes s ++ ns)) /\
    length batch <= Z.to_nat limit /\
    (forall e, e ∈ batch ->
       EmailDocument.aiCategory e = "Uncategorized" /\ exists i, es_docs (world s) !! i = Some e).
Proof.
  unfold Services.findUncategorized. hrun.
  destruct ((0 <=? limit)%Z && es_search_uncategorized henv (clock (world s)) limit); hrun.
  - eexists _, [_]. split; [reflexivity|]. split; [rewrite length_take; lia|].
    intros e He. wsimpl. apply uncategorized_hits_sound. eapply subseteq_take, He.
  - eexists [], [_; _]. rewrite <- app_assoc. split; [reflexivity|]. split; [simpl; lia|].
    intros e He. by apply elem_of_nil in He.
Qed.

(** The limit of a backfill is at most 200, whatever the request asks for,
    and 50 when the request gives none that parses to a non-zero number. *)
Lemma backfill_limit limit :
  (Z.min (num_or (parseInt limit) 50) 200 <= 200)%Z /\
  (parseInt limit = None \/ parseInt limit = Some 0%Z ->
   Z.min (num_or (parseInt limit) 50) 200 = 50%Z).
Proof. split; [lia|]. by intros [-> | ->]. Qed.

Lemma backfillCategorization_run cfg env henv limit s :
  let lim := Z.min (num_or (parseInt limit) 50) 200 in
  exists batch ns categorized failed w' evs,
    EmailController.backfillCategorization cfg env henv limit s
      = (Ok (BackfillReport (length batch) categorized failed), mkServer w' (notes s ++ ns)) /\
    length batch <= Z.to_nat lim /\
    (forall e, e ∈ batch ->
       EmailDocument.aiCategory e = "Uncategorized" /\ exists i, es_docs (world s) !! i = Some e) /\
    EmailController.backfill_loop cfg env batch 0 0 (set_clock S (world s))
      = (Ok (categorized, failed), w') /\
    categorized + failed = length batch /\
    categorized = length (updates evs) /\
    trace w' = trace (world s) ++ evs /\
    Forall is_backfill_event evs /\
    service_frame (world s) w' /\
    (forall i, is_Some (es_docs w' !! i) <-> is_Some (es_docs (world s) !! i)) /\
    Forall (fun u => u.2 ∈ AIService.validCategories) (updates evs).
Proof.
  intros lim. unfold EmailController.backfillCategorization. cbv zeta. fold lim.
  destruct (findUncategorized_run henv lim s) as (batch & ns & Hfind & Hlen & Hbatch).
  unfold Http.try_catch, Http.bind at 1. rewrite Hfind.
  unfold Http.bind at 1, Http.lift. cbn [world notes].
  destruct (backfill_loop_run cfg env batch 0 0 (set_clock S (world s)))
    as (c & f & w' & evs & Hloop & Hsum & Hcount & Ht & Hev & Hs & Hdom & Hval).
  rewrite Hloop. unfold Http.ret. cbn [fst snd].
  exists batch, ns, c, f, w', evs. split; [reflexivity|]. split; [exact Hlen|].
  split; [exact Hbatch|]. split; [exact Hloop|]. split; [lia|]. split; [lia|].
  split; [exact Ht|]. split; [exact Hev|]. split; [exact Hs|]. split; [exact Hdom | exact Hval].
Qed.

(** A backfill always answers with a report, never with an error: it
    processes at most 200 records (at most 50 when the request gives no
    usable limit, none for a negative one), and every record processed is
    counted once, as categorized exactly when its category update completed
    and as failed otherwise. *)
Theorem backfill_reports_counts cfg env henv limit s :
  exists processed categorized failed s',
    EmailController.backfillCategorization cfg env henv limit s
      = (Ok (BackfillReport processed categorized failed), s') /\
    processed = categorized + failed /\
    processed <= 200 /\
    (parseInt limit = None \/ parseInt limit = Some 0%Z -> processed <= 50) /\
    (forall n, parseInt limit = Some n -> (n < 0)%Z -> processed = 0) /\
    categorized = length (updates (new_events (world s) (world s'))).
Proof.
  destruct (backfillCategorization_run cfg env henv limit s)
    as (batch & ns & c & f & w' & evs & Hrun & Hlen & _ & _ & Hsum & Hcount & Ht & _).
  cbv zeta in Hlen.
  exists (length batch), c, f, (mkServer w' (notes s ++ ns)).
  split; [exact Hrun|]. split; [lia|].
  destruct (backfill_limit limit) as [H200 H50].
  split; [lia|]. split; [intros Hp; rewrite (H50 Hp) in Hlen; simpl in Hlen; lia|].
  split.
  - intros n Hn Hneg. rewrite Hn in Hlen. cbn [num_or] in Hlen.
    destruct (Z.eqb_spec n 0); lia.
  - cbn [world]. by rewrite (new_events_app _ w' evs).
Qed.

(** A backfill never notifies and never inserts: it posts no webhook and
    triggers no fanout, even for the records it turns [Interested]; it
    neither adds nor removes a record and leaves the maps of the IMAP
    service alone; and every category it writes is one of the six. *)
Theorem backfill_never_notifies cfg env henv limit s :
  let s' := (EmailController.backfillCategorization cfg env henv limit s).2 in
  let evs := new_events (world s) (world s') in
  posted evs = [] /\ triggered evs = [] /\ inserted evs = [] /\
  service_frame (world s) (world s') /\
  (forall i, is_Some (es_docs (world s') !! i) <-> is_Some (es_docs (world s) !! i)) /\
  (forall u, u ∈ updates evs -> u.2 ∈ AIService.validCategories).
Proof.
  destruct (backfillCategorization_run cfg env henv limit s)
    as (batch & ns & c & f & w' & evs & Hrun & _ & _ & _ & _ & _ & Ht & Hev & Hs & Hdom & Hval).
  rewrite Hrun. cbn [snd world]. cbv zeta.
  rewrite (new_events_app _ w' evs) by exact Ht.
  split; [apply (omap_Forall_None url_of is_backfill_event); [none_tac | exact Hev]|].
  split; [apply (omap_Forall_None trigger_of is_backfill_event); [none_tac | exact Hev]|].
  split; [apply (omap_Forall_None insert_of is_backfill_event); [none_tac | exact Hev]|].
  split; [exact Hs|]. split; [exact Hdom|].
  intros u Hu. eapply Forall_forall in Hval; eassumption.
Qed.

Lemma with_aiCategory_same category d :
  EmailDocument.aiCategory d = category -> EmailDocument.with_aiCategory category d = d.
Proof. destruct d. simpl. by intros <-. Qed.

Lemma backfill_loop_without_model cfg env batch :
  AIService.categorizationModel cfg = false ->
  forall success failed w r w',
    (forall e, e ∈ batch ->
       es_docs w !! EmailDocument.id e = Some e /\
       EmailDocument.aiCategory e = "Uncategorized") ->
    EmailController.backfill_loop cfg env batch success failed w = (r, w') ->
    es_docs w' = es_docs w /\
    exists evs, trace w' = trace w ++ evs /\ classified evs = [].
Proof.
  intros Hcfg. induction batch as [|email rest IH]; intros success failed w r w' Hbatch E.
  - cbn in E. inversion E; subst. split; [reflexivity|]. exists []. by rewrite app_nil_r.
  - cbn [EmailController.backfill_loop] in E.
    unfold bind at 1, try_catch at 1, bind at 1 in E.
    unfold AIService.categorizeEmail in E. rewrite Hcfg in E. cbn [negb] in E.
    unfold console in E. rewrite bind_emit in E. unfold ret at 1 in E.
    cbn [AIService.category] in E.
    set (w1 := set_trace _ w) in E. unfold bind at 1 in E.
    destruct (Hbatch email ltac:(left)) as [Hlook Hcat].
    destruct (updateEmailCategory_cases env (EmailDocument.id email) "Uncategorized" w1)
      as (w2 & _ & [(d & Hd & Hup & Hd2 & Ht2)|(Hup & Hd2 & Ht2)]);
      rewrite Hup in E; unfold ret at 1 in E.
    + assert (Hsame : es_docs w2 = es_docs w).
      { rewrite Hd2. subst w1. wsimpl. rewrite Hlook in Hd. inversion Hd; subst d.
        rewrite (with_aiCategory_same _ _ Hcat). by apply insert_id. }
      destruct (IH (S success) failed w2 r w') as [Hd' (evs & Ht & Hcl)]; [|exact E|].
      { intros e He. rewrite Hsame. apply Hbatch. by right. }
      split; [by rewrite Hd'|].
      exists ([Console WarnAiNotConfigured;
               EsUpdate (EmailDocument.id email) "Uncategorized" true] ++ evs).
      split; [rewrite Ht, Ht2; subst w1; wsimpl; by rewrite <- !app_assoc|].
      unfold classified in *. by rewrite omap_app, Hcl.
    + assert (Hsame : es_docs w2 = es_docs w) by (by rewrite Hd2).
      destruct (IH success (S failed) w2 r w') as [Hd' (evs & Ht & Hcl)]; [|exact E|].
      { intros e He. rewrite Hsame. apply Hbatch. by right. }
      split; [by rewrite Hd'|].
      exists ([Console WarnAiNotConfigured;
               EsUpdate (EmailDocument.id email) "Uncategorized" false;
               Console ErrUpdatingCategory] ++ evs).
      split; [rewrite Ht, Ht2; subst w1; wsimpl; by rewrite <- !app_assoc|].
      unfold classified in *. by rewrite omap_app, Hcl.
Qed.

(** Without a configured model, a backfill calls no model and leaves the
    index exactly as it was, on an index whose records are stored under
    their own ids; the records whose update completed are nevertheless
    reported as categorized. *)
Theorem backfill_without_model cfg env henv limit s :
  AIService.categorizationModel cfg = false ->
  index_keyed (world s) ->
  let run := EmailController.backfillCategorization cfg env henv limit s in
  let evs := new_events (world s) (world run.2) in
  es_docs (world run.2) = es_docs (world s) /\
  classified evs = [] /\
  exists processed failed,
    run.1 = Ok (BackfillReport processed (length (updates evs)) failed).
Proof.
  intros Hcfg Hkeyed.
  destruct (backfillCategorization_run cfg env henv limit s)
    as (batch & ns & c & f & w' & evs & Hrun & _ & Hbatch & Hloop & _ & Hcount & Ht & _).
  rewrite Hrun. cbn [fst snd world]. cbv zeta.
  rewrite (new_events_app _ w' evs) by exact Ht.
  destruct (backfill_loop_without_model cfg env batch Hcfg 0 0 (set_clock S (world s))
              (Ok (c, f)) w')
    as [Hd (evs' & Ht' & Hcl)]; [|exact Hloop|].
  { intros e He. destruct (Hbatch e He) as [Hc (i & Hi)]. split; [|exact Hc].
    cbn [es_docs set_clock]. by rewrite (Hkeyed _ _ Hi). }
  change (trace (set_clock S (world s))) with (trace (world s)) in Ht'.
  rewrite Ht in Ht'. apply app_inv_head in Ht'. subst evs'.
  split; [exact Hd|]. split; [exact Hcl|]. exists (length batch), f. by rewrite <- Hcount.
Qed.

Lemma backfill_without_model_witness :
  let run := EmailController.backfillCategorization example_config_no_ai example_env
               example_henv None example_server in
  run.1 = Ok (BackfillReport 1 1 0) /\
  es_docs (world run.2) = es_docs (world example_server) /\
  classified (new_events (world example_server) (world run.2)) = [].
Proof.
  split; [vm_compute; reflexivity|].
  destruct (backfill_without_model example_config_no_ai example_env example_henv None
              example_server) as (Hd & Hc & _).
  - reflexivity.
  - intros i d Hi. unfold example_server in Hi. cbn [world es_docs] in Hi.
    apply lookup_singleton_Some in Hi as [<- <-]. reflexivity.
  - split; [exact Hd | exact Hc].
Defined.

(** ** Reading one email and suggesting a reply *)

(** [GET /emails/:id] never answers 500 and never changes the index or the
    trace of the engine: it answers 400 for an empty id, 200 with the record
    when the record is in the index and the get completes, and 404
    otherwise, also when it is the index that fails. *)
Theorem getEmailById_answers henv id s :
  exists s',
    EmailController.getEmailById henv id s =
    (Ok (if negb (truthy id) then BadRequest "Email ID is required"
         else match es_docs (world s) !! id with
              | Some email =>
                  if es_get henv (clock (world s)) id then EmailFound email
                  else NotFound "Email not found"
              | None => NotFound "Email not found"
              end), s') /\
    es_docs (world s') = es_docs (world s) /\
    trace (world s') = trace (world s).
Proof.
  unfold EmailController.getEmailById, Services.getEmailById.
  destruct (negb (truthy id)); hrun; [eexists; split; [reflexivity | by split]|].
  cbn [es_docs set_clock].
  destruct (es_docs (world s) !! id) as [email|]; hrun;
    [destruct (es_get henv (clock (world s)) id); hrun|];
    (eexists; split; [reflexivity | by split]).
Qed.

(** [POST /emails/:id/suggest-reply] answers 400 for an empty id, 404 when
    the record cannot be read, 500 when the model is not configured (no
    prompt is sent then) or its call fails, and otherwise 200 with the text
    of the model; the context of a reply is always empty and its prompt
    never has a context section, whether or not the vector store is
    configured; the index and the trace of the engine are left as they
    are. *)
Theorem suggestReply_answers cfg qdrant henv id s :
  let found :=
    if truthy id
    then match es_docs (world s) !! id with
         | Some email => if es_get henv (clock (world s)) id then Some email else None
         | None => None
         end
    else None in
  let prompt_of email :=
    trim (Services.reply_prompt
            ("Subject: " +:+ EmailDocument.subject email +:+ nl
             +:+ "From: " +:+ EmailDocument.from email +:+ nl +:+ nl
             +:+ EmailDocument.body email) None) in
  exists s',
    EmailController.suggestReply cfg qdrant henv id s =
    (Ok (if negb (truthy id) then BadRequest "Email ID is required"
         else match found with
              | None => NotFound "Email not found"
              | Some email =>
                  if negb (Services.generationModel cfg) then ServerError NotConfigured
                  else match chat_sendMessage henv (S (clock (world s))) (prompt_of email) with
                       | Some text => ReplySuggested id (mkSuggestedReply text [] 85)
                       | None => ServerError AiError
                       end
              end), s') /\
    es_docs (world s') = es_docs (world s) /\
    trace (world s') = trace (world s) /\
    omap chat_of (drop (length (notes s)) (notes s'))
      = match found with
        | Some email => if Services.generationModel cfg then [prompt_of email] else []
        | None => []
        end.
Proof.
  intros found prompt_of. subst found prompt_of.
  unfold EmailController.suggestReply, Services.getEmailById, Services.searchSimilarContext,
    Services.generateReply.
  destruct (truthy id); cbn [negb]; hrun.
  2:{ eexists. split; [reflexivity|]. split; [reflexivity|]. split; [reflexivity|].
      by rewrite drop_all. }
  cbn [es_docs set_clock clock].
  destruct (es_docs (world s) !! id) as [email|]; hrun.
  2:{ eexists. split; [reflexivity|]. split; [reflexivity|]. split; [reflexivity|].
      cbn [notes]. by rewrite <- app_assoc, drop_app_length. }
  destruct (es_get henv (clock (world s)) id); hrun.
  2:{ eexists. split; [reflexivity|]. split; [reflexivity|]. split; [reflexivity|].
      cbn [notes]. by rewrite <- app_assoc, drop_app_length. }
  destruct qdrant; cbn [negb]; hrun;
    (destruct (Services.generationModel cfg); cbn [negb]; hrun;
     [cbn [clock set_clock];
      change (Services.reply_prompt ?c (Some [])) with (Services.reply_prompt c None);
      match goal with |- context [chat_sendMessage henv ?t ?p] =>
        destruct (chat_sendMessage henv t p)
      end; hrun|]);
    (eexists; split; [reflexivity|]; split; [reflexivity|]; split; [reflexivity|];
     cbn [notes]; rewrite <- ?app_assoc, drop_app_length; reflexivity).
Qed.

(** ** Testing the webhooks *)

(** [POST /webhooks/test] always answers with a report: it posts one test
    message to each configured URL, Slack first, and to no other; a URL is
    reported as working exactly when it is configured and answers its test
    message with 2xx; the index and the maps of the IMAP service are left
    alone. *)
Theorem webhooks_test_reports cfg env s :
  let w := world s in
  let slackUrl := default "" (Config.webhooks_slack cfg) in
  let genericUrl := default "" (Config.webhooks_generic cfg) in
  let slack := WebhookService.configured (Config.webhooks_slack cfg) in
  let generic := WebhookService.configured (Config.webhooks_generic cfg) in
  exists a b s',
    EmailController.webhooks_test cfg env s = (Ok (WebhookTestReport a b), s') /\
    es_docs (world s') = es_docs w /\
    service_frame w (world s') /\
    posted (new_events w (world s'))
      = (if slack then [slackUrl] else []) ++ (if generic then [genericUrl] else []) /\
    a = slack && is2xx (axios_post env (clock w) slackUrl
                          (JObj [("text", JStr "✅ Test message from ReachInbox Onebox")])) /\
    b = generic && is2xx (axios_post env (if slack then S (clock w) else clock w) genericUrl
                            (JObj [("event", JStr "test");
                                   ("message", JStr "Test webhook from ReachInbox Onebox")])).
Proof.
  intros w slackUrl genericUrl slack generic. subst w slackUrl genericUrl slack generic.
  unfold EmailController.webhooks_test, Services.testWebhooks, WebhookService.configured.
  destruct (Config.webhooks_slack cfg) as [slackUrl|]; cbn [default from_option id].
  2:{ destruct (Config.webhooks_generic cfg) as [genericUrl|]; cbn [default from_option id].
      2:{ hrun. eexists _, _, _. split; [reflexivity|]. split; [reflexivity|].
          split; [by repeat split|]. split; [|by split].
          unfold new_events. by rewrite drop_all. }
      destruct (truthy genericUrl); cbn [negb andb].
      2:{ hrun. eexists _, _, _. split; [reflexivity|]. split; [reflexivity|].
          split; [by repeat split|]. split; [|by split].
          unfold new_events. by rewrite drop_all. }
      unfold WebhookService.post. hrun. run. cbn [world notes].
      destruct (axios_post env (clock (world s)) genericUrl _) eqn:Hg; hrun;
        (eexists _, _, _; split; [reflexivity|]; split; [reflexivity|];
         split; [by repeat split|]; split; [|by split];
         cbn [world]; unfold new_events; wsimpl; by rewrite drop_app_length). }
  destruct (truthy slackUrl); cbn [negb andb].
  2:{ destruct (Config.webhooks_generic cfg) as [genericUrl|]; cbn [default from_option id].
      2:{ hrun. eexists _, _, _. split; [reflexivity|]. split; [reflexivity|].
          split; [by repeat split|]. split; [|by split].
          unfold new_events. by rewrite drop_all. }
      destruct (truthy genericUrl); cbn [negb andb].
      2:{ hrun. eexists _, _, _. split; [reflexivity|]. split; [reflexivity|].
          split; [by repeat split|]. split; [|by split].
          unfold new_events. by rewrite drop_all. }
      unfold WebhookService.post. hrun. run. cbn [world notes].
      destruct (axios_post env (clock (world s)) genericUrl _) eqn:Hg; hrun;
        (eexists _, _, _; split; [reflexivity|]; split; [reflexivity|];
         split; [by repeat split|]; split; [|by split];
         cbn [world]; unfold new_events; wsimpl; by rewrite drop_app_length). }
  unfold WebhookService.post. hrun. run. cbn [world notes].
  destruct (axios_post env (clock (world s)) slackUrl _) eqn:Hs; hrun;
    (destruct (Config.webhooks_generic cfg) as [genericUrl|]; cbn [default from_option id];
     [destruct (truthy genericUrl); cbn [negb andb];
      [hrun; run; cbn [world notes clock set_clock set_trace];
       destruct (axios_post env (S (clock (world s))) genericUrl _) eqn:Hg; hrun|hrun]
     |hrun]);
    (eexists _, _, _; split; [reflexivity|]; split; [reflexivity|];
     split; [by repeat split|]; split; [|by split];
     cbn [world]; unfold new_events; wsimpl; rewrite <- ?app_assoc; by rewrite drop_app_length).
Qed.

(** ** The reports of the generic notification *)

Lemma postSafely_run env url payload w :
  let outcome := axios_post env (clock w) url payload in
  exists w' lines,
    WebhookService.postSafely env url payload w = (Ok (is2xx outcome), w') /\
    trace w' = trace w ++ HttpPost url payload outcome :: lines /\
    omap answered_of lines = [] /\ omap primary_of lines = [] /\ omap report_of lines = [].
Proof.
  intros outcome. unfold WebhookService.postSafely, WebhookService.post. run. fold outcome.
  destruct outcome as [|status|]; run.
  - eexists _, []. split; [reflexivity|]. wsimpl. by repeat split.
  - destruct status as [|p|p]; run;
      try (eexists _, [_]; split; [reflexivity|]; wsimpl; rewrite <- app_assoc; by repeat split).
    do 9 (destruct p as [p|p|]; run;
      try (eexists _, [_]; split; [reflexivity|]; wsimpl; rewrite <- app_assoc; by repeat split)).
  - eexists _, [_]. split; [reflexivity|]. wsimpl. rewrite <- app_assoc. by repeat split.
Qed.

Lemma broadcast_run env payload urls : forall w,
  exists results w' evs,
    mapM (fun u => WebhookService.postSafely env u payload) urls w = (Ok results, w') /\
    trace w' = trace w ++ evs /\
    omap answered_of evs = results /\ omap primary_of evs = [] /\ omap report_of evs = [] /\
    length results = length urls.
Proof.
  induction urls as [|u urls IH]; intros w.
  - exists [], w, []. cbn. by rewrite app_nil_r.
  - cbn [mapM]. unfold bind at 1.
    destruct (postSafely_run env u payload w) as (w1 & lines & Hrun & Ht & Ha & Hp & Hr).
    cbv zeta in Hrun, Ht. rewrite Hrun. unfold bind at 1.
    destruct (IH w1) as (results & w' & evs & Hmap & Ht' & Ha' & Hp' & Hr' & Hl).
    rewrite Hmap. unfold ret.
    eexists _, _, (HttpPost u payload (axios_post env (clock w) u payload) :: lines ++ evs).
    split; [reflexivity|].
    split; [rewrite Ht', Ht; by rewrite <- app_assoc|].
    change (omap ?f (?e :: ?l)) with (omap f [e] ++ omap f l).
    rewrite !omap_app, Ha, Ha', Hp, Hp', Hr, Hr'. cbn. by rewrite Hl.
Qed.

(** The reports of [sendGenericWebhook] are exact: there is at most one
    broadcast report; every post answered with 2xx is reported, the primary
    one by the line that the generic webhook was triggered and the others
    in the success count of the broadcast report; and the total of the
    report is the number of broadcast posts. *)
Theorem generic_reports_exact cfg env email w :
  let evs := new_events w (WebhookService.sendGenericWebhook cfg env email w).2 in
  match omap report_of evs with
  | [] => successes evs = length (omap primary_of evs) /\ length (posted evs) <= 1
  | [(successCount, total)] =>
      successes evs = length (omap primary_of evs) + successCount /\
      length (posted evs) = 1 + total
  | _ => False
  end.
Proof.
  intros evs. subst evs.
  destruct (WebhookService.sendGenericWebhook cfg env email w) as [r w'] eqn:E. cbn [snd].
  assert (Hposted : forall l, length (posted l) = length (omap answered_of l)).
  { intros l. unfold posted. induction l as [|e l IH]; [done|].
    destruct e; cbn; try exact IH. by rewrite IH. }
  unfold WebhookService.sendGenericWebhook in E.
  destruct (Config.webhooks_generic cfg) as [genericUrl|].
  2:{ run_in E. inversion E; subst. unfold new_events. wsimpl. rewrite drop_app_length. cbn.
      split; [reflexivity | lia]. }
  destruct (negb (truthy genericUrl)).
  { run_in E. inversion E; subst. unfold new_events. wsimpl. rewrite drop_app_length. cbn.
    split; [reflexivity | lia]. }
  unfold bind at 1, get_world at 1 in E. cbv zeta in E.
  set (payload := WebhookService.basePayload cfg email (now env (clock w))) in E.
  unfold bind at 1 in E.
  destruct (postSafely_run env genericUrl payload w) as (w1 & lines & Hrun & Ht & Ha & Hp & Hr).
  cbv zeta in Hrun, Ht. rewrite Hrun in E.
  set (o := axios_post env (clock w) genericUrl payload) in *.
  set (primary := if is2xx o then [Console LogGenericTriggered] else []).
  assert (Hprim : exists w2,
    (if is2xx o then console LogGenericTriggered else ret tt) w1 = (Ok tt, w2) /\
    trace w2 = trace w1 ++ primary).
  { subst primary. destruct (is2xx o); run; eexists; split; try reflexivity.
    by rewrite app_nil_r. }
  destruct Hprim as (w2 & Hrun2 & Ht2).
  unfold bind at 1 in E. rewrite Hrun2 in E.
  assert (Hprimary : omap answered_of primary = [] /\ omap report_of primary = [] /\
                     length (omap primary_of primary) = if is2xx o then 1 else 0).
  { subst primary. by destruct (is2xx o). }
  destruct Hprimary as (Hpa & Hpr & Hpp).
  destruct (length (WebhookService.broadcastUrls cfg genericUrl) =? 0)%nat.
  - run_in E. inversion E; subst r w'. clear E.
    set (L := [HttpPost genericUrl payload o] ++ lines ++ primary
              ++ [Console WarnNoInterestedUrls]).
    assert (HLr : omap report_of L = []).
    { subst L. by rewrite !omap_app, Hr, Hpr. }
    assert (HLa : omap answered_of L = [is2xx o]).
    { subst L. by rewrite !omap_app, Ha, Hpa. }
    assert (HLp : length (omap primary_of L) = if is2xx o then 1 else 0).
    { subst L. rewrite !omap_app, Hp, !length_app, Hpp. simpl. lia. }
    rewrite (new_events_app w _ L).
    2:{ subst L. wsimpl. rewrite Ht2, Ht. by rewrite <- !app_assoc. }
    clearbody L. rewrite HLr. unfold successes. rewrite Hposted, HLa, HLp.
    destruct (is2xx o); cbn; split; lia.
  - unfold bind at 1 in E.
    destruct (broadcast_run env payload (WebhookService.broadcastUrls cfg genericUrl) w2)
      as (results & w3 & evs & Hmap & Ht3 & Ha3 & Hp3 & Hr3 & Hl3).
    rewrite Hmap in E. run_in E. inversion E; subst r w'. clear E.
    set (n := length (List.filter (fun b : bool => b) results)).
    set (m := length (WebhookService.broadcastUrls cfg genericUrl)) in *.
    set (L := [HttpPost genericUrl payload o] ++ lines ++ primary ++ evs
              ++ [Console (LogBroadcast n m)]).
    assert (HLr : omap report_of L = [(n, m)]).
    { subst L. by rewrite !omap_app, Hr, Hpr, Hr3. }
    assert (HLa : omap answered_of L = is2xx o :: results).
    { subst L. rewrite !omap_app, Ha, Hpa, Ha3. cbn. by rewrite app_nil_r. }
    assert (HLp : length (omap primary_of L) = if is2xx o then 1 else 0).
    { subst L. rewrite !omap_app, Hp, Hp3, !length_app, Hpp. simpl. lia. }
    rewrite (new_events_app w _ L).
    2:{ subst L. wsimpl. rewrite Ht3, Ht2, Ht. by rewrite <- !app_assoc. }
    clearbody L. rewrite HLr. unfold successes. rewrite Hposted, HLa, HLp.
    fold n. destruct (is2xx o); cbn [List.filter length]; fold n; split; lia.
Qed.

(** ** A live message that does not parse *)

(** The fetch of the [mail] handler is awaited inside the search callback,
    where nothing catches its rejection: when the re-query finds messages,
    the handler ends in the result of the batch of the latest one, which
    rejects when the server refuses the fetch and when the message does
    not parse, and resolves otherwise. *)
Theorem mail_rejection_unhandled cfg env account numNewMsgs w results latest :
  imap_search env (clock w) true = Some results ->
  last results = Some latest ->
  (IMAPService.onMail cfg env account numNewMsgs w).1
  = if imap_fetch env (S (clock w)) [latest]
    then (if parses env latest then Ok tt else Throw ParseError)
    else Throw ImapError.
Proof.
  intros Hsearch Hlast.
  unfold IMAPService.onMail, console. rewrite bind_emit.
  unfold bind at 1, tick. cbn [clock set_trace set_clock].
  rewrite Hsearch, bind_emit, Hlast.
  unfold IMAPService.fetchEmailsBySeqNo. unfold bind at 1, tick. rewrite bind_emit.
  cbn [clock set_trace set_clock].
  destruct (imap_fetch env (S (clock w)) [latest]); cbn [negb]; [|reflexivity].
  unfold bind at 1.
  match goal with |- context [mapM ?f [latest] ?w0] =>
    pose proof (handlers_results cfg env account "INBOX" [latest] w0) as Hps;
    destruct (mapM f [latest] w0) as [rs w1]
  end.
  cbn [fst] in Hps. subst rs. unfold try_catch. rewrite promise_all_results.
  cbn [forallb]. rewrite andb_true_r. by destruct (parses env latest).
Qed.

Lemma mail_rejection_unhandled_witness :
  let env := mkEnv (es_search example_env) (es_index example_env) (es_update example_env)
               (generateContent example_env) (JSON_parse example_env) (axios_post example_env)
               (imap_openBox example_env) (fun _ _ => Some [2; 3]%Z) (imap_fetch example_env)
               (imap_source example_env) (simpleParser example_env) (htmlToText example_env)
               (uuidv4 example_env) (now example_env) in
  (IMAPService.onMail example_config env example_account 1 empty_world).1 = Throw ParseError.
Proof.
  intros env.
  apply (mail_rejection_unhandled example_config env example_account 1 empty_world
           [2; 3]%Z 3%Z); reflexivity.
Defined.

(** ** An insert that fails *)

(** When the index refuses the insert of a message, the pipeline stops
    there: the model is not called, no category is written, no webhook is
    triggered or posted, the index is left as it was, and the run ends with
    the error line of [processEmail] (and still resolves). *)
Theorem insert_failure_stops_pipeline cfg env parsed account folder w doc :
  let run := IMAPService.processEmail cfg env parsed account folder w in
  let evs := new_events w run.2 in
  EsIndex doc false ∈ evs ->
  run.1 = Ok tt /\
  es_docs run.2 = es_docs w /\
  classified evs = [] /\ updates evs = [] /\ triggered evs = [] /\ posted evs = [] /\
  last evs = Some (Console ErrProcessingEmail).
Proof.
  destruct (processEmail_run cfg env parsed account folder w) as (w' & Hrun & _ & Hpr).
  rewrite Hrun. cbn [fst snd]. cbv zeta.
  destruct Hpr as [hit _ _ _ Hd Ht | pre t Hpre doc' Hd Ht | pre ai t c Hpre Hai _ doc' Hd Ht
                  | pre ai fan t c Hpre Hai _ _ _ doc' Hd Hfan Ht];
    rewrite (new_events_app _ _ _ Ht); intros Hin.
  - in_cases Hin.
  - split; [reflexivity|]. split; [exact Hd|].
    unfold classified, updates, triggered, posted. rewrite !omap_app.
    rewrite (omap_Forall_None prompt_sent is_search_event pre) by first [exact Hpre | none_tac].
    rewrite (omap_Forall_None update_of is_search_event pre) by first [exact Hpre | none_tac].
    rewrite (omap_Forall_None trigger_of is_search_event pre) by first [exact Hpre | none_tac].
    rewrite (omap_Forall_None url_of is_search_event pre) by first [exact Hpre | none_tac].
    repeat (split; [reflexivity|]).
    change [EsIndex doc' false; Console ErrIndexing; Console ErrProcessingEmail]
      with ([EsIndex doc' false; Console ErrIndexing] ++ [Console ErrProcessingEmail]).
    by rewrite !app_assoc, last_snoc.
  - in_cases Hin.
  - destruct Hfan as [(_ & hooks & -> & Hh)|(_ & ->)]; in_cases Hin.
Qed.

Lemma insert_failure_stops_pipeline_witness :
  let run := IMAPService.processEmail example_config example_env_index_down example_parsed
               example_account "INBOX" empty_world in
  let evs := new_events empty_world run.2 in
  run.1 = Ok tt /\
  es_docs run.2 = es_docs empty_world /\
  classified evs = [] /\ updates evs = [] /\ triggered evs = [] /\ posted evs = [] /\
  last evs = Some (Console ErrProcessingEmail).
Proof.
  apply (insert_failure_stops_pipeline example_config example_env_index_down example_parsed
           example_account "INBOX" empty_world
           (IMAPService.emailDoc_of example_env_index_down example_parsed example_account
              "INBOX" "<m1@example.com>" "b" 1)).
  vm_compute. right. left.
Defined.
